(** * PrivPDF: a shallow embedding of the browser-side PDF toolkit

    The development follows the JavaScript sources class by class:
    - [JS]: the fragments of the platform the code relies on (exceptions,
      strings, bytes, typed arrays over array buffers, binary64 numbers,
      property lookup on object literals);
    - [PrivPDF]: the application state of [privpdf.js]
      ([switchTool], [resetTool], [rotatePage], [parsePageRange]);
    - [PDFProtection]: the container format of the AES-GCM path;
    - [QPDFEncryption]: the XOR stand-in used when QPDF cannot be loaded;
    - [GhostscriptWASM]: the mock compression and the loader of
      [ghostscript-wasm.js];
    - [Viewer]: the single-document viewer that shares a file with
      [PDFProtection];
    - [Sample]: a small JSON printer and parser and sample inputs.
    The statements and their proofs come after the definitions.

    Conventions. A JavaScript string is represented by the [string] of its
    UTF-8 bytes, so that [TextEncoder.encode] is [list_byte_of_string].
    Integral JavaScript numbers are [Z]; [NaN] is an explicit [None] where
    the code can produce it.  Numbers that are not integral (the compression
    ratios) are binary64 values of [SpecFloat].  Array buffers live in a
    store, and typed arrays are windows on them, so that aliasing and
    copying are told apart. *)

From Stdlib Require Import ZArith List Lia Strings.String Strings.Ascii Strings.Byte.
From Stdlib Require Import Floats.SpecFloat.
From stdpp Require Import gmap strings list fin_maps sorting pretty.

Local Open Scope Z_scope.

(** ** Platform *)

Module JS.

(** The exceptions the modelled code can raise. *)
Inductive error :=
| TypeError
| RangeError
| SyntaxError
| Error (message : string).

Inductive result (A : Type) :=
| Ok (a : A)
| Throw (e : error).
Arguments Ok {A} a.
Arguments Throw {A} e.

(** [x || 0] on a map lookup of numbers: [undefined], [0] and [NaN] all
    fall through to [0]. *)
Definition or_zero (x : option Z) : Z :=
  match x with
  | Some v => if Z.eqb v 0 then 0 else v
  | None => 0
  end.

(** [a % b] on integral numbers: the sign follows the dividend. *)
Definition rem (a b : Z) : Z := Z.rem a b.

(** *** Strings

    String operations work on the UTF-8 bytes of the string. *)

Definition code (b : byte) : Z := Z.of_N (Byte.to_N b).

Definition chr (c : Z) (b : byte) : bool := Z.eqb (code b) c.

Definition comma : Z := 44.
Definition hyphen : Z := 45.

(** [WhiteSpace] and [LineTerminator] code points, by the length of their
    UTF-8 encoding: TAB, LF, VT, FF, CR, SP; U+00A0; U+1680, U+2000 to
    U+200A, U+2028, U+2029, U+202F, U+205F, U+3000 and U+FEFF. *)
Definition ws1 (a : byte) : bool :=
  let c := code a in
  (Z.leb 9 c && Z.leb c 13) || Z.eqb c 32.

Definition ws2 (a b : byte) : bool :=
  Z.eqb (code a) 194 && Z.eqb (code b) 160.

Definition ws3 (a b c : byte) : bool :=
  let '(x, y, z) := (code a, code b, code c) in
  (Z.eqb x 225 && Z.eqb y 154 && Z.eqb z 128)
  || (Z.eqb x 226 && Z.eqb y 128
      && ((Z.leb 128 z && Z.leb z 138) || Z.eqb z 168 || Z.eqb z 169 || Z.eqb z 175))
  || (Z.eqb x 226 && Z.eqb y 129 && Z.eqb z 159)
  || (Z.eqb x 227 && Z.eqb y 128 && Z.eqb z 128)
  || (Z.eqb x 239 && Z.eqb y 187 && Z.eqb z 191).

(** Drops the white space at the head of [l]; with [backwards] the list is
    a reversed string and the encodings are matched last byte first. *)
Fixpoint strip_ws (backwards : bool) (l : list byte) : list byte :=
  match l with
  | [] => []
  | a :: t1 =>
    if ws1 a then strip_ws backwards t1
    else match t1 with
         | [] => l
         | b :: t2 =>
           if (if backwards then ws2 b a else ws2 a b) then strip_ws backwards t2
           else match t2 with
                | [] => l
                | c :: t3 =>
                  if (if backwards then ws3 c b a else ws3 a b c)
                  then strip_ws backwards t3
                  else l
                end
         end
  end.

Definition trimStart (l : list byte) : list byte := strip_ws false l.
Definition trimEnd (l : list byte) : list byte := rev (strip_ws true (rev l)).
Definition trim (l : list byte) : list byte := trimEnd (trimStart l).

Definition includes (c : Z) (l : list byte) : bool := existsb (chr c) l.

(** [s.split(c)] for a one-character separator: never empty, and the
    empty string splits into one empty piece. *)
Fixpoint split (c : Z) (l : list byte) : list (list byte) :=
  match l with
  | [] => [[]]
  | a :: t =>
    if chr c a then [] :: split c t
    else match split c t with
         | [] => [[a]]
         | p :: ps => (a :: p) :: ps
         end
  end.

(** The value of a digit character in radix up to 36. *)
Definition digit (b : byte) : option Z :=
  let c := code b in
  if Z.leb 48 c && Z.leb c 57 then Some (c - 48)
  else if Z.leb 97 c && Z.leb c 122 then Some (c - 87)
  else if Z.leb 65 c && Z.leb c 90 then Some (c - 55)
  else None.

(** The longest prefix of digits valid in [radix]. *)
Fixpoint digits (radix : Z) (l : list byte) : list Z :=
  match l with
  | [] => []
  | a :: t =>
    match digit a with
    | Some d => if Z.ltb d radix then d :: digits radix t else []
    | None => []
    end
  end.

(** [parseInt(s)] without a radix argument; [None] is [NaN].  The value is
    kept exact, where the platform rounds integers beyond 2^53 to the
    nearest binary64 number. *)
Definition parseInt (s : list byte) : option Z :=
  let s1 := trimStart s in
  let '(sign, s2) :=
    match s1 with
    | a :: t => if chr 45 a then (-1, t) else if chr 43 a then (1, t) else (1, s1)
    | [] => (1, s1)
    end in
  let '(radix, s3) :=
    match s2 with
    | a :: b :: t =>
      if chr 48 a && (chr 120 b || chr 88 b) then (16, t) else (10, s2)
    | _ => (10, s2)
    end in
  match digits radix s3 with
  | [] => None
  | ds => Some (sign * foldl (λ acc d, acc * radix + d) 0 ds)
  end.

(** [[...new Set(a)]]: the distinct elements in order of first occurrence. *)
Fixpoint uniq_from (seen l : list Z) : list Z :=
  match l with
  | [] => []
  | x :: t =>
    if bool_decide (x ∈ seen) then uniq_from seen t
    else x :: uniq_from (x :: seen) t
  end.

Definition Set_spread (l : list Z) : list Z := uniq_from [] l.

(** [a.sort((x, y) => x - y)]: the ascending rearrangement. *)
Definition sort_ascending (l : list Z) : list Z := merge_sort Z.le l.

(** *** Bytes *)

Definition zero_byte : byte := "000"%byte.

#[export] Instance byte_inhabited : Inhabited byte := populate zero_byte.

(** The conversion applied by a store into a [Uint8Array]: modulo 2^8. *)
Definition u8 (z : Z) : byte :=
  default zero_byte (Byte.of_N (Z.to_N (z mod 256))).

(** [x ^ y] on the operands the code has: an element read off a typed
    array, where [undefined] (an index out of range) counts as 0, and a
    small non-negative integer. *)
Definition xor (x : option byte) (y : Z) : Z :=
  Z.lxor (from_option code 0 x) y.

(** *** Array buffers and typed arrays

    The store maps the identity of an [ArrayBuffer] (its position) to its
    bytes.  A [Uint8Array] is a window on a buffer; two arrays on the same
    buffer alias. *)

Abbreviation heap := (list (list byte)).

Record Uint8Array := {
  buffer : nat;
  byteOffset : nat;
  byteLength : nat
}.

(** Computations that read and write the store and may throw.  The store
    keeps the writes made before an exception. *)
Definition M (A : Type) : Type := heap → result A * heap.

#[export] Instance M_ret : MRet M := λ A a h, (Ok a, h).

#[export] Instance M_bind : MBind M := λ A B f m h,
  match m h with
  | (Ok a, h') => f a h'
  | (Throw e, h') => (Throw e, h')
  end.

(** The bytes an array shows in a store. *)
Definition bytes_of (a : Uint8Array) (h : heap) : list byte :=
  take (byteLength a) (drop (byteOffset a) (h !!! buffer a)).

Definition valid (h : heap) (a : Uint8Array) : Prop :=
  ∃ bs, h !! buffer a = Some bs ∧ (byteOffset a + byteLength a ≤ length bs)%nat.

(** [new ArrayBuffer] holding [bs]. *)
Definition alloc (bs : list byte) : M nat :=
  λ h, (Ok (length h), h ++ [bs]).

(** [new Uint8Array(n)]: a fresh buffer of [n] zero bytes. *)
Definition Uint8Array_new (n : nat) : M Uint8Array :=
  b ← alloc (replicate n zero_byte);
  mret {| buffer := b; byteOffset := 0; byteLength := n |}.

(** [new Uint8Array(a)] for a typed array [a]: a fresh buffer holding a
    copy of the bytes of [a]. *)
Definition Uint8Array_from (a : Uint8Array) : M Uint8Array :=
  λ h, (b ← alloc (bytes_of a h);
        mret {| buffer := b; byteOffset := 0; byteLength := byteLength a |}) h.

(** [new Uint8Array(buffer, byteOffset, length)]: a window on an existing
    buffer; without [length] the window runs to the end of the buffer. *)
Definition Uint8Array_on (b : nat) (off : nat) (len : option nat) : M Uint8Array :=
  λ h,
    let size := length (h !!! b) in
    match len with
    | Some n =>
      if bool_decide (off + n ≤ size)%nat
      then (Ok {| buffer := b; byteOffset := off; byteLength := n |}, h)
      else (Throw RangeError, h)
    | None =>
      if bool_decide (off ≤ size)%nat
      then (Ok {| buffer := b; byteOffset := off; byteLength := size - off |}, h)
      else (Throw RangeError, h)
    end.

(** [a[i]]; [None] is [undefined], for an index out of range. *)
Definition get (a : Uint8Array) (i : nat) : M (option byte) :=
  λ h, (Ok (bytes_of a h !! i), h).

(** Overwrites a buffer from position [pos] on. *)
Definition write_at (pos : nat) (src : list byte) (bs : list byte) : list byte :=
  take pos bs ++ src ++ drop (pos + length src) bs.

(** [a[i] = v]: ignored out of range. *)
Definition put (a : Uint8Array) (i : nat) (v : Z) : M unit :=
  λ h,
    if bool_decide (i < byteLength a)%nat
    then (Ok (), alter (write_at (byteOffset a + i) [u8 v]) (buffer a) h)
    else (Ok (), h).

(** [a.set(src, offset)] for the bytes [src] of the source. *)
Definition set_bytes (a : Uint8Array) (src : list byte) (offset : nat) : M unit :=
  λ h,
    if bool_decide (length src + offset ≤ byteLength a)%nat
    then (Ok (), alter (write_at (byteOffset a + offset) src) (buffer a) h)
    else (Throw RangeError, h).

(** [a.set(src, offset)] for a typed array [src]: the source is read
    before the target is written. *)
Definition set (a src : Uint8Array) (offset : nat) : M unit :=
  λ h, set_bytes a (bytes_of src h) offset h.

(** The outcome of a platform function, in the monad. *)
Definition lift {A} (r : result A) : M A := λ h, (r, h).

(** [!!s] for an optional string: absent and empty are falsy. *)
Definition truthy (s : option string) : bool :=
  match s with
  | Some p => negb (String.eqb p "")
  | None => false
  end.

(** [new TextDecoder().decode(bytes)] on well-formed UTF-8: a leading byte
    order mark is dropped.  (Ill-formed sequences, which the platform
    replaces by U+FFFD, are kept as they are.) *)
Definition TextDecoder_decode (bs : list byte) : string :=
  string_of_list_byte
    match bs with
    | a :: b :: c :: rest =>
      if Z.eqb (code a) 239 && Z.eqb (code b) 187 && Z.eqb (code c) 191
      then rest else bs
    | _ => bs
    end.

(** The four bytes of a 32-bit unsigned integer, least significant first;
    the value is taken modulo 2^32. *)
Definition le32 (v : Z) : list byte :=
  [u8 v; u8 (v / 2 ^ 8); u8 (v / 2 ^ 16); u8 (v / 2 ^ 24)].

(** The unsigned integer whose little-endian bytes are [bs]. *)
Definition of_le (bs : list byte) : Z :=
  foldr (λ b acc, code b + 2 ^ 8 * acc) 0 bs.

(** [new DataView(buffer).setUint32(offset, v, true)]. *)
Definition setUint32_le (b : nat) (offset : nat) (v : Z) : M unit :=
  λ h,
    if bool_decide (offset + 4 ≤ length (h !!! b))%nat
    then (Ok (), alter (write_at offset (le32 v)) b h)
    else (Throw RangeError, h).

(** [new DataView(buffer).getUint32(offset, true)]. *)
Definition getUint32_le (b : nat) (offset : nat) : M Z :=
  λ h,
    if bool_decide (offset + 4 ≤ length (h !!! b))%nat
    then (Ok (of_le (take 4 (drop offset (h !!! b)))), h)
    else (Throw RangeError, h).

(** [for (let i = 0; i < n; i++) body(i)]. *)
Fixpoint for_each (l : list nat) (body : nat → M unit) : M unit :=
  match l with
  | [] => mret ()
  | i :: l' => body i ≫= λ _, for_each l' body
  end.

Definition for_upto (n : nat) (body : nat → M unit) : M unit :=
  for_each (seq 0 n) body.

(** [i % n] as an index: [NaN] for [n = 0], which indexes nothing. *)
Definition index_mod (i n : nat) : option nat :=
  if bool_decide (n = 0)%nat then None else Some (i mod n)%nat.

(** [TextEncoder.encode]: the UTF-8 bytes. *)
Definition TextEncoder_encode (s : string) : list byte := list_byte_of_string s.

(** *** Numbers

    Numbers that need not be integral are binary64 values. *)

Definition b64_mul : spec_float → spec_float → spec_float := SFmul 53 1024.
Definition b64_div : spec_float → spec_float → spec_float := SFdiv 53 1024.
Definition b64_sub : spec_float → spec_float → spec_float := SFsub 53 1024.
Definition b64_add : spec_float → spec_float → spec_float := SFadd 53 1024.

(** The binary64 number nearest to an integer (the integer itself below
    2^53). *)
Definition b64_of_Z (n : Z) : spec_float := binary_normalize 53 1024 n 0 false.

(** [Number.MAX_SAFE_INTEGER], 2^53 - 1: up to it the numbers of the
    platform hold every integer, and [x + 1] and [x - 1] are exact. *)
Definition MAX_SAFE_INTEGER : Z := 9007199254740991.

(** [Math.floor]; [None] is [NaN].  Infinite arguments, which the model
    never produces, are not told apart from [NaN]. *)
Definition Math_floor (x : spec_float) : option Z :=
  match x with
  | S754_zero _ => Some 0
  | S754_finite sign m e =>
    let mant := if sign then Z.neg m else Z.pos m in
    Some (if Z.leb 0 e then mant * 2 ^ e else mant / 2 ^ (- e))
  | _ => None
  end.

(** [x.toFixed(1)]: the integer [n] nearest to [10 x], the larger one in a
    tie, printed with a point before its last digit.  From 10^21 on the
    platform switches to exponent notation, which is not modelled (the
    empty string stands for it). *)
Definition tenths (m : positive) (e : Z) : Z :=
  if Z.leb 0 e then 10 * Z.pos m * 2 ^ e
  else (20 * Z.pos m + 2 ^ (- e)) / 2 ^ (- e + 1).

Definition print_tenths (n : Z) : string :=
  pretty (n / 10) +:+ "." +:+ pretty (n mod 10).

Definition toFixed1 (x : spec_float) : string :=
  match x with
  | S754_nan => "NaN"
  | S754_infinity sign => if sign then "-Infinity" else "Infinity"
  | S754_zero sign => if sign then "-0.0" else "0.0"
  | S754_finite sign m e =>
    let n := tenths m e in
    if Z.leb (10 ^ 22) n then ""
    else (if sign then "-" else "") +:+ print_tenths n
  end.

(** The members every object literal inherits from [Object.prototype]. *)
Definition Object_prototype_keys : list string :=
  ["constructor"; "__defineGetter__"; "__defineSetter__"; "hasOwnProperty";
   "__lookupGetter__"; "__lookupSetter__"; "isPrototypeOf";
   "propertyIsEnumerable"; "toString"; "valueOf"; "__proto__";
   "toLocaleString"]%string.

(** The outcome of [literal[key]] for an object literal with values in [A]:
    an own property, a member of [Object.prototype] (a function, or the
    prototype itself for [__proto__]), or [undefined]. *)
Inductive member (A : Type) :=
| Own (a : A)
| Inherited
| Undefined.
Arguments Own {A} a.
Arguments Inherited {A}.
Arguments Undefined {A}.

Fixpoint assoc {A} (key : string) (literal : list (string * A)) : option A :=
  match literal with
  | [] => None
  | (k, a) :: rest => if String.eqb key k then Some a else assoc key rest
  end.

Definition property {A} (literal : list (string * A)) (key : string) : member A :=
  match assoc key literal with
  | Some a => Own a
  | None =>
    if bool_decide (key ∈ Object_prototype_keys) then Inherited else Undefined
  end.

(** [literal[key] || literal[fallback]] when every own value is truthy: only
    [undefined] falls through. *)
Definition property_or {A} (literal : list (string * A)) (key fallback : string)
  : member A :=
  match property literal key with
  | Undefined => property literal fallback
  | found => found
  end.

(** *** Numbers that may be [NaN]

    Integral numbers where [None] is [NaN]: an operation on [NaN] gives
    [NaN] and every comparison with [NaN] is false. *)

Definition num_add (a b : option Z) : option Z := x ← a; y ← b; Some (x + y).

Definition num_sub (a b : option Z) : option Z := x ← a; y ← b; Some (x - y).

Definition num_lt (a b : option Z) : bool :=
  match a, b with
  | Some x, Some y => Z.ltb x y
  | _, _ => false
  end.

Definition num_le (a b : option Z) : bool :=
  match a, b with
  | Some x, Some y => Z.leb x y
  | _, _ => false
  end.

Definition num_gt (a b : option Z) : bool := num_lt b a.

Definition isNaN (a : option Z) : bool :=
  match a with
  | Some _ => false
  | None => true
  end.

Definition Math_min (a b : option Z) : option Z := x ← a; y ← b; Some (Z.min x y).

(** A number inside a template literal. *)
Definition show (a : option Z) : string :=
  match a with
  | Some z => pretty z
  | None => "NaN"
  end.

(** [Array.from({ length: n }, (_, i) => f(i))]: a length that is [NaN] or
    negative counts as 0. *)
Definition Array_from (n : option Z) (f : Z → Z) : list Z :=
  map f (seqZ 0 (default 0 n)).

(** [[...Array(n).keys()]] for a length [n] that is not negative. *)
Definition Array_keys (n : Z) : list Z := seqZ 0 n.

(** [a[i]] and [a[i] = v] on an array whose elements may be [undefined]
    ([None]): reading past the end gives [undefined], writing past the end
    extends the array with holes, which read as [undefined]. *)
Definition Array_get {A} (i : nat) (a : list (option A)) : option A :=
  default None (a !! i).

Definition Array_set {A} (i : nat) (v : option A) (a : list (option A))
  : list (option A) :=
  if bool_decide (i < length a)%nat then <[i := v]> a
  else a ++ replicate (i - length a) None ++ [v].

(** *** Exceptions in the store monad *)

Definition throw {A} (e : error) : M A := λ h, (Throw e, h).

(** [try { m } catch (error) { handler(error) }]. *)
Definition catch {A} (m : M A) (handler : error → M A) : M A :=
  λ h,
    match m h with
    | (Ok a, h') => (Ok a, h')
    | (Throw e, h') => handler e h'
    end.

(** [error.message]; [platform_message] gives the text the platform puts
    into the exceptions it raises itself. *)
Definition message (platform_message : error → string) (e : error) : string :=
  match e with
  | Error m => m
  | _ => platform_message e
  end.

End JS.

(** ** privpdf.js *)

Module PrivPDF.

(** The part of the document [switchTool] depends on: whether
    [document.querySelector('[data-tool="t"]')] and
    [document.getElementById(id)] find an element. *)
Record document := {
  querySelector_data_tool : string → bool;
  getElementById : string → bool
}.

Section App.
(** [File] objects are opaque to the application. *)
Context {File : Type}.

Record state := mkState {
  currentTool : string;
  loadedPDFs : gmap string File;
  selectedPages : gset Z;
  pageRotations : gmap Z Z;
  pageOrder : list Z
}.

(** The fields as the constructor leaves them. *)
Definition constructor : state :=
  mkState "merge" ∅ ∅ ∅ [].

(** [resetTool]: the three containers are cleared in place and
    [pageOrder] is rebound to a fresh empty array.  The remaining
    statements only restyle the document. *)
Definition resetTool (st : state) : state :=
  mkState (currentTool st) ∅ ∅ ∅ [].

(** [switchTool]: [classList] is read off the results of the two lookups,
    so a missing element raises [TypeError] before [currentTool] is
    assigned and before [resetTool] runs. *)
Definition switchTool (doc : document) (tool : string) (st : state)
  : JS.result unit * state :=
  if negb (querySelector_data_tool doc tool) then (JS.Throw JS.TypeError, st)
  else if negb (getElementById doc (tool +:+ "-panel")) then (JS.Throw JS.TypeError, st)
  else
    let st1 := mkState tool (loadedPDFs st) (selectedPages st)
                       (pageRotations st) (pageOrder st) in
    (JS.Ok (), resetTool st1).

Definition rotatePage (pageNum degrees : Z) (st : state) : state :=
  let current := JS.or_zero (pageRotations st !! pageNum) in
  let newRotation := JS.rem (current + degrees + 360) 360 in
  mkState (currentTool st) (loadedPDFs st) (selectedPages st)
          (<[pageNum := newRotation]> (pageRotations st)) (pageOrder st).

(** [rotateAllPages]: [thumbnails] lists the page numbers read off the
    thumbnails of the rotate panel, in document order. *)
Definition rotateAllPages (thumbnails : list Z) (degrees : Z) (st : state) : state :=
  foldl (λ s pageNum, rotatePage pageNum degrees s) st thumbnails.

(** The rotation controls of the user interface. *)
Inductive rotation :=
| RotatePage (pageNum degrees : Z)
| RotateAllPages (thumbnails : list Z) (degrees : Z).

Definition rotate (st : state) (c : rotation) : state :=
  match c with
  | RotatePage pageNum degrees => rotatePage pageNum degrees st
  | RotateAllPages thumbnails degrees => rotateAllPages thumbnails degrees st
  end.

Definition degrees_of (c : rotation) : Z :=
  match c with
  | RotatePage _ d => d
  | RotateAllPages _ d => d
  end.

Definition cleared (st : state) : Prop :=
  loadedPDFs st = ∅ ∧ selectedPages st = ∅ ∧ pageRotations st = ∅ ∧ pageOrder st = [].

Definition quarter_turn (r : Z) : Prop := r = 0 ∨ r = 90 ∨ r = 180 ∨ r = 270.

Definition rotations_ok (st : state) : Prop :=
  ∀ pageNum r, pageRotations st !! pageNum = Some r → quarter_turn r.

End App.
Arguments state : clear implicits.

(** *** Page ranges *)

(** What one comma-separated part pushes onto [pages].  The numbers are
    exact integers: for [maxPage] up to [JS.MAX_SAFE_INTEGER] this is what
    the code computes, since a number [parseInt] rounds is beyond
    [maxPage] before and after rounding, and the loop counts below
    [maxPage] only. *)
Definition part_pages (part : list byte) (maxPage : Z) : list Z :=
  let trimmed := JS.trim part in
  if JS.includes JS.hyphen trimmed then
    let ends := map (λ n, (λ v, v - 1) <$> JS.parseInt (JS.trim n))
                    (JS.split JS.hyphen trimmed) in
    match ends with
    | Some start :: Some end_ :: _ =>
      (* for (i = start; i <= Math.min(end, maxPage - 1); i++) *)
      let last := Z.min end_ (maxPage - 1) in
      filter (λ i, 0 ≤ i ∧ i < maxPage) (seqZ start (last - start + 1))
    | _ =>
      (* [start] or the loop bound is NaN: the loop test is false *)
      []
    end
  else
    match (λ v, v - 1) <$> JS.parseInt trimmed with
    | Some page => if bool_decide (0 ≤ page ∧ page < maxPage) then [page] else []
    | None => []
    end.

Definition parsePageRange (range : string) (maxPage : Z) : list Z :=
  let parts := JS.split JS.comma (list_byte_of_string range) in
  let pages := flat_map (λ part, part_pages part maxPage) parts in
  JS.sort_ascending (JS.Set_spread pages).








(** *** Selecting pages

    The thumbnails of a panel are represented by the page numbers they
    carry, in document order. *)

Section Pages.
Context {File : Type}.
Implicit Types st : state File.

Definition Set_add (pageNum : Z) st : state File :=
  mkState (currentTool st) (loadedPDFs st) ({[pageNum]} ∪ selectedPages st)
          (pageRotations st) (pageOrder st).

Definition Set_delete (pageNum : Z) st : state File :=
  mkState (currentTool st) (loadedPDFs st) (selectedPages st ∖ {[pageNum]})
          (pageRotations st) (pageOrder st).

(** The click handler [createPageThumbnail] gives to a thumbnail. *)
Definition click (pageNum : Z) st : state File :=
  if bool_decide (pageNum ∈ selectedPages st) then Set_delete pageNum st
  else Set_add pageNum st.

Definition selectAllPages (thumbnails : list Z) (selected : bool) st : state File :=
  foldl (λ s pageNum, if selected then Set_add pageNum s else Set_delete pageNum s)
        st thumbnails.

(** [selectAllPagesForDeletion]: the state and the text of [delete-count]. *)
Definition selectAllPagesForDeletion (thumbnails : list Z) (selected : bool) st
  : state File * string :=
  let st' :=
    foldl (λ s pageNum, if selected then Set_add pageNum s else Set_delete pageNum s)
          st thumbnails in
  (st', pretty (size (selectedPages st')) +:+ " pages selected for deletion").

Definition invertSelection (thumbnails : list Z) st : state File :=
  foldl (λ s pageNum,
           if bool_decide (pageNum ∈ selectedPages s) then Set_delete pageNum s
           else Set_add pageNum s)
        st thumbnails.

(** [updatePageOrder]: the original page numbers of the thumbnails, in the
    order the container has them. *)
Definition updatePageOrder (container : list Z) st : state File :=
  mkState (currentTool st) (loadedPDFs st) (selectedPages st)
          (pageRotations st) container.

(** [resetPageOrder]: the thumbnails are sorted by original page number and
    put back; the container is returned with the state. *)
Definition resetPageOrder (container : list Z) st : list Z * state File :=
  let thumbnails := JS.sort_ascending container in
  (thumbnails, updatePageOrder thumbnails st).

(** *** Page operations

    A page operation loads the document, computes page indices and hands
    them to [copyPages]; the copy is saved and handed to [downloadPDF]
    under a file name.  An operation is represented by the indices and the
    names it hands over, in order, and by the toast it ends with. *)

Record download := {
  indices : list Z;
  filename : string
}.

Inductive outcome :=
| Done (files : list download) (toast : string)
| Refused (toast : string).

(** [splitPDF], method ['single']. *)
Definition splitPDF_single (totalPages : Z) : outcome :=
  let files :=
    map (λ i, {| indices := [i]; filename := "page_" +:+ pretty (i + 1) +:+ ".pdf" |})
        (seqZ 0 totalPages) in
  Done files ("Split into " +:+ pretty (length files)
              +:+ " individual pages successfully!").

(** The loop [for (let i = 0; i < totalPages; i += pagesPerDoc)] from [i]
    on, run for at most [fuel] rounds. *)
Fixpoint chunks (fuel : nat) (i pagesPerDoc : option Z) (totalPages : Z)
  : list download :=
  match fuel with
  | O => []
  | S fuel =>
    if JS.num_lt i (Some totalPages) then
      let endPage := JS.Math_min (JS.num_add i pagesPerDoc) (Some totalPages) in
      let indices :=
        JS.Array_from (JS.num_sub endPage i) (λ idx, default 0 i + idx) in
      let startPage := JS.num_add i (Some 1) in
      {| indices := indices;
         filename := "pages_" +:+ JS.show startPage +:+ "-" +:+ JS.show endPage
                     +:+ ".pdf" |}
      :: chunks fuel (JS.num_add i pagesPerDoc) pagesPerDoc totalPages
    else []
  end.

(** [splitPDF], method ['pages']; [input] is the value of the field
    [split-pages].  Every round of the loop moves [i] on by at least one
    page or makes it [NaN], so [totalPages] rounds are enough. *)
Definition splitPDF_pages (input : string) (totalPages : Z) : outcome :=
  let pagesPerDoc := JS.parseInt (list_byte_of_string input) in
  if JS.num_le pagesPerDoc (Some 0) || JS.num_gt pagesPerDoc (Some totalPages)
  then Refused "Invalid page count. Please enter a valid number."
  else
    let files := chunks (Z.to_nat totalPages) (Some 0) pagesPerDoc totalPages in
    Done files ("Split into " +:+ pretty (length files) +:+ " files ("
                +:+ JS.show pagesPerDoc +:+ " pages each)!").

(** One round of the loop of method ['range']: [None] is a range that is
    skipped. *)
Definition splitPDF_range_part (range : list byte) (totalPages : Z) : option download :=
  let '(startPage, endPage) :=
    if JS.includes JS.hyphen range then
      let parts := map (λ n, JS.parseInt (JS.trim n)) (JS.split JS.hyphen range) in
      (default None (parts !! 0%nat), default None (parts !! 1%nat))
    else
      let page := JS.parseInt (JS.trim range) in (page, page) in
  if JS.isNaN startPage || JS.isNaN endPage
     || JS.num_lt startPage (Some 1) || JS.num_gt endPage (Some totalPages)
     || JS.num_gt startPage endPage
  then None
  else
    Some {| indices :=
              JS.Array_from (JS.num_add (JS.num_sub endPage startPage) (Some 1))
                            (λ i, default 0 startPage - 1 + i);
            filename :=
              if bool_decide (startPage = endPage)
              then "page_" +:+ JS.show startPage +:+ ".pdf"
              else "pages_" +:+ JS.show startPage +:+ "-" +:+ JS.show endPage
                   +:+ ".pdf" |}.

(** [splitPDF], method ['range']; [rangeInput] is the value of the field
    [split-ranges]. *)
Definition splitPDF_range (rangeInput : string) (totalPages : Z) : outcome :=
  let input := list_byte_of_string rangeInput in
  if bool_decide (JS.trim input = []) then
    Refused "Please enter page ranges (e.g., 1-3, 4-6)"
  else
    let ranges := map JS.trim (JS.split JS.comma input) in
    let files := omap (λ range, splitPDF_range_part range totalPages) ranges in
    if bool_decide (0 < length files)%nat
    then Done files ("Split into " +:+ pretty (length files)
                     +:+ " files based on ranges!")
    else Refused "No valid ranges found. Please check your input.".

(** How a piece of the range text is read: as a page, which is both ends
    of its range, or as the two ends of a range, each the number
    [parseInt] takes from it. *)
Inductive range_reads (range : list byte) (startPage endPage : Z) : Prop :=
| reads_page :
    JS.includes JS.hyphen range = false →
    JS.parseInt (JS.trim range) = Some startPage →
    endPage = startPage →
    range_reads range startPage endPage
| reads_range first second rest :
    JS.split JS.hyphen range = first :: second :: rest →
    JS.parseInt (JS.trim first) = Some startPage →
    JS.parseInt (JS.trim second) = Some endPage →
    range_reads range startPage endPage.

(** The file of the pages [startPage] to [endPage]. *)
Definition range_file (startPage endPage : Z) : download :=
  {| indices := seqZ (startPage - 1) (endPage - startPage + 1);
     filename :=
       if bool_decide (startPage = endPage)
       then "page_" +:+ pretty startPage +:+ ".pdf"
       else "pages_" +:+ pretty startPage +:+ "-" +:+ pretty endPage +:+ ".pdf" |}.

(** The files that belong to the pieces of a range text: in the order of
    the text, one file for each piece read as a range inside the document,
    and none for any other piece. *)
Inductive files_of_ranges (totalPages : Z) : list (list byte) → list download → Prop :=
| no_range : files_of_ranges totalPages [] []
| range_in_document range ranges files startPage endPage :
    range_reads range startPage endPage →
    1 ≤ startPage → startPage ≤ endPage → endPage ≤ totalPages →
    files_of_ranges totalPages ranges files →
    files_of_ranges totalPages (range :: ranges)
                    (range_file startPage endPage :: files)
| range_skipped range ranges files :
    (∀ startPage endPage,
       range_reads range startPage endPage →
       startPage < 1 ∨ endPage < startPage ∨ totalPages < endPage) →
    files_of_ranges totalPages ranges files →
    files_of_ranges totalPages (range :: ranges) files.

(** [extractPages]: the selection is listed in the order of insertion and
    sorted before it is used, so that any listing of the set will do. *)
Definition extractPages st : outcome :=
  let selectedIndices :=
    JS.sort_ascending (map (λ p, p - 1) (elements (selectedPages st))) in
  if bool_decide (length selectedIndices = 0%nat) then
    Refused "Please select pages to extract"
  else
    Done [{| indices := selectedIndices; filename := "extracted_pages.pdf" |}]
         ("Extracted " +:+ pretty (length selectedIndices) +:+ " pages successfully!").

Definition saveReorderedPDF st : outcome :=
  let reorderedIndices := map (λ p, p - 1) (pageOrder st) in
  Done [{| indices := reorderedIndices; filename := "reordered.pdf" |}]
       "Pages reordered successfully!".

(** [deletePages]; [pageCount] is [pdf.getPageCount()]. *)
Definition deletePages (pageCount : Z) st : outcome :=
  let pagesToKeep :=
    map (λ i, i - 1)
        (filter (λ i, i ∉ selectedPages st) (seqZ 1 pageCount)) in
  if bool_decide (length pagesToKeep = 0%nat) then
    Refused "Cannot delete all pages"
  else
    Done [{| indices := pagesToKeep; filename := "pages_deleted.pdf" |}]
         ("Deleted " +:+ pretty (size (selectedPages st)) +:+ " pages successfully!").

(** The fields a selection leaves alone. *)
Definition same_document st st' : Prop :=
  currentTool st' = currentTool st ∧ loadedPDFs st' = loadedPDFs st
  ∧ pageRotations st' = pageRotations st ∧ pageOrder st' = pageOrder st.

End Pages.

(** *** The pages of the watermark and of the image tools *)

(** [pagesToWatermark] in [applyWatermark]; [pagesOption] and [range] are
    the values of the fields [watermark-pages] and [watermark-range]. *)
Definition pagesToWatermark (pagesOption range : string) (pageCount : Z) : list Z :=
  if String.eqb pagesOption "all" then JS.Array_from (Some pageCount) (λ i, i)
  else if String.eqb pagesOption "first" then [0]
  else if String.eqb pagesOption "last" then [pageCount - 1]
  else if String.eqb pagesOption "custom" then parsePageRange range pageCount
  else [].

(** The preview of the image tool: [currentPage] and
    [currentPDF.numPages]. *)
Record viewer := {
  currentPage : Z;
  numPages : Z
}.

Definition previousPage (v : viewer) : viewer :=
  if Z.ltb 1 (currentPage v)
  then {| currentPage := currentPage v - 1; numPages := numPages v |}
  else v.

Definition nextPage (v : viewer) : viewer :=
  if Z.ltb (currentPage v) (numPages v)
  then {| currentPage := currentPage v + 1; numPages := numPages v |}
  else v.

Inductive navigation := PreviousPage | NextPage.

Definition navigate (v : viewer) (n : navigation) : viewer :=
  match n with
  | PreviousPage => previousPage v
  | NextPage => nextPage v
  end.

(** [pagesToConvert] in [convertPDFToImages]: the page numbers handed to
    [getPage], in order. *)
Definition pagesToConvert (pagesOption range : string) (v : viewer) : list Z :=
  if String.eqb pagesOption "all" then JS.Array_from (Some (numPages v)) (λ i, i + 1)
  else if String.eqb pagesOption "current" then [currentPage v]
  else if String.eqb pagesOption "range"
  then map (λ p, p + 1) (parsePageRange range (numPages v))
  else [].

(** The index lists an operation hands to [copyPages]; none when it is
    refused. *)
Definition copied (o : outcome) : list (list Z) :=
  match o with
  | Done files _ => map indices files
  | Refused _ => []
  end.

End PrivPDF.

(** ** The container of the AES-GCM path *)

Module PDFProtection.
Import JS.

Section Container.
(** The value of [options.permissions], which the container passes through
    [JSON.stringify] untouched. *)
Context {Permissions : Type}.

Record options := {
  opt_permissions : Permissions;
  userPassword : option string;
  ownerPassword : option string
}.

Record metadata := {
  version : string;
  encryption : string;
  timestamp : string;
  permissions : Permissions;
  hasUserPassword : bool;
  hasOwnerPassword : bool
}.

(** [JSON.stringify] and [JSON.parse] of the platform, on metadata
    objects; both may throw. *)
Context (JSON_stringify : metadata → result string).
Context (JSON_parse : string → result metadata).

(** The object literal built at the head of [createEncryptedContainer];
    [now] is [new Date().toISOString()]. *)
Definition metadata_of (now : string) (opts : options) : metadata :=
  {| version := "1.0";
     encryption := "AES-256-GCM";
     timestamp := now;
     permissions := opt_permissions opts;
     hasUserPassword := truthy (userPassword opts);
     hasOwnerPassword := truthy (ownerPassword opts) |}.

Definition createEncryptedContainer (now : string)
    (encryptedData salt iv : Uint8Array) (opts : options) : M Uint8Array :=
  let metadata := metadata_of now opts in
  metadataStr ← lift (JSON_stringify metadata);
  let metadataBytes := TextEncoder_encode metadataStr in
  container ← Uint8Array_new
    (4 + length metadataBytes + byteLength salt + byteLength iv
     + byteLength encryptedData);
  let offset := 0%nat in
  setUint32_le (buffer container) offset (Z.of_nat (length metadataBytes));;
  let offset := (offset + 4)%nat in
  set_bytes container metadataBytes offset;;
  let offset := (offset + length metadataBytes)%nat in
  set container salt offset;;
  let offset := (offset + byteLength salt)%nat in
  set container iv offset;;
  let offset := (offset + byteLength iv)%nat in
  set container encryptedData offset;;
  mret container.

Record parsed := {
  p_metadata : metadata;
  p_salt : Uint8Array;
  p_iv : Uint8Array;
  p_encryptedData : Uint8Array
}.

(** [parseEncryptedContainer]: every read goes through
    [containerData.buffer], from the start of that buffer. *)
Definition parseEncryptedContainer (containerData : Uint8Array) : M parsed :=
  let view := buffer containerData in
  let offset := 0%nat in
  metadataLength ← getUint32_le view offset;
  let offset := (offset + 4)%nat in
  metadataBytes ← Uint8Array_on (buffer containerData) offset
                                (Some (Z.to_nat metadataLength));
  metadataStr ← (λ h, (Ok (TextDecoder_decode (bytes_of metadataBytes h)), h));
  metadata ← lift (JSON_parse metadataStr);
  let offset := (offset + Z.to_nat metadataLength)%nat in
  salt ← Uint8Array_on (buffer containerData) offset (Some 16%nat);
  let offset := (offset + 16)%nat in
  iv ← Uint8Array_on (buffer containerData) offset (Some 12%nat);
  let offset := (offset + 12)%nat in
  encryptedData ← Uint8Array_on (buffer containerData) offset None;
  mret {| p_metadata := metadata; p_salt := salt; p_iv := iv;
          p_encryptedData := encryptedData |}.

End Container.
Arguments options : clear implicits.
Arguments metadata : clear implicits.
Arguments parsed : clear implicits.

(** The layout the specification gives for the container. *)
Definition layout (metadataBytes salt iv ciphertext : list byte) : list byte :=
  le32 (Z.of_nat (length metadataBytes))
  ++ metadataBytes ++ salt ++ iv ++ ciphertext.

(** The text [JSON.stringify] gives for an object opens with a brace. *)
Definition opens_with_brace (s : string) : Prop :=
  ∃ rest, s = String "{"%char rest.

(** *** Recognising, encrypting and decrypting *)

Section WebCrypto.
Context {Permissions : Type}.
Context (JSON_stringify : metadata Permissions → result string).
Context (JSON_parse : string → result (metadata Permissions)).

(** [isEncryptedPDF]: like [parseEncryptedContainer], it reads
    [data.buffer] from its start. *)
Definition isEncryptedPDF (data : Uint8Array) : M bool :=
  catch
    (if bool_decide (byteLength data < 32)%nat then mret false
     else
       metadataLength ← getUint32_le (buffer data) 0;
       if bool_decide (0 < metadataLength ∧ metadataLength < Z.of_nat (byteLength data))
       then
         metadataBytes ← Uint8Array_on (buffer data) 4
                                       (Some (Z.to_nat metadataLength));
         metadataStr ← (λ h, (Ok (TextDecoder_decode (bytes_of metadataBytes h)), h));
         metadata ← lift (JSON_parse metadataStr);
         mret (String.eqb (encryption metadata) "AES-256-GCM")
       else mret false)
    (λ _, mret false).

(** [crypto.subtle]: [importKey] on the bytes of the password, [deriveKey]
    with PBKDF2 (the salt, 100000 iterations, SHA-256) for a 256-bit AES-GCM
    key, and AES-GCM under a key and an IV.  Each of them may reject. *)
Context {KeyMaterial Key : Type}.
Context (importKey : list byte → result KeyMaterial).
Context (deriveKey : KeyMaterial → list byte → result Key).
Context (AES_GCM_encrypt AES_GCM_decrypt : Key → list byte → list byte → result (list byte)).
Context (platform_message : error → string).

(** [crypto.getRandomValues(a)]: fills [a] with the bytes [random] the
    generator delivers and returns it. *)
Definition getRandomValues (a : Uint8Array) (random : list byte) : M Uint8Array :=
  set_bytes a (resize (byteLength a) zero_byte random) 0;;
  mret a.

(** [new Uint8Array(arrayBuffer)] for the fresh [ArrayBuffer] in which
    [crypto.subtle] delivers a result. *)
Definition Uint8Array_of_result (bs : list byte) : M Uint8Array :=
  b ← alloc bs;
  mret {| buffer := b; byteOffset := 0; byteLength := length bs |}.

Record protection := {
  success : bool;
  data : Uint8Array;
  method : string;
  isEncrypted : bool;
  requiresPassword : bool;
  originalSize : nat;
  protectedSize : nat
}.

(** [userPassword || ownerPassword]. *)
Definition password_of (opts : options Permissions) : option string :=
  if truthy (userPassword opts) then userPassword opts else ownerPassword opts.

(** [encryptWithWebCrypto], run without interruption; [random16] and
    [random12] are the bytes the generator delivers for the salt and for
    the IV. *)
Definition encryptWithWebCrypto (supportsWebCrypto : bool)
    (random16 random12 : list byte) (now : string)
    (pdfData : Uint8Array) (opts : options Permissions) : M protection :=
  if negb supportsWebCrypto then throw (Error "Web Crypto API not supported")
  else
    match password_of opts with
    | Some password =>
      if negb (truthy (Some password))
      then throw (Error "Password required for encryption")
      else
        catch
          (keyMaterial ← lift (importKey (TextEncoder_encode password));
           salt ← (a ← Uint8Array_new 16; getRandomValues a random16);
           key ← (λ h, lift (deriveKey keyMaterial (bytes_of salt h)) h);
           iv ← (a ← Uint8Array_new 12; getRandomValues a random12);
           encryptedData ←
             (λ h, lift (AES_GCM_encrypt key (bytes_of iv h) (bytes_of pdfData h)) h);
           encrypted ← Uint8Array_of_result encryptedData;
           protectedContainer ←
             createEncryptedContainer JSON_stringify now encrypted salt iv opts;
           mret {| success := true;
                   data := protectedContainer;
                   method := "AES-256-GCM Encryption";
                   isEncrypted := true;
                   requiresPassword := true;
                   originalSize := byteLength pdfData;
                   protectedSize := byteLength protectedContainer |})
          (λ error, throw (Error ("Encryption failed: "
                                  +:+ message platform_message error)))
    | None => throw (Error "Password required for encryption")
    end.

Record decryption := {
  decrypted_success : bool;
  decrypted_data : Uint8Array;
  decrypted_metadata : metadata Permissions
}.

(** [decryptPDF], run without interruption. *)
Definition decryptPDF (supportsWebCrypto : bool)
    (protectedData : Uint8Array) (password : string) : M decryption :=
  if negb supportsWebCrypto then throw (Error "Web Crypto API not supported")
  else
    catch
      (p ← parseEncryptedContainer JSON_parse protectedData;
       if negb (String.eqb (encryption (p_metadata p)) "AES-256-GCM")
       then throw (Error "Unsupported encryption method")
       else
         keyMaterial ← lift (importKey (TextEncoder_encode password));
         key ← (λ h, lift (deriveKey keyMaterial (bytes_of (p_salt p) h)) h);
         decryptedData ←
           (λ h, lift (AES_GCM_decrypt key (bytes_of (p_iv p) h)
                                       (bytes_of (p_encryptedData p) h)) h);
         plain ← Uint8Array_of_result decryptedData;
         mret {| decrypted_success := true;
                 decrypted_data := plain;
                 decrypted_metadata := p_metadata p |})
      (λ error, throw (Error ("Decryption failed: "
                              +:+ message platform_message error))).

End WebCrypto.
Arguments protection : clear implicits.
Arguments decryption : clear implicits.

End PDFProtection.

(** ** The QPDF stand-in *)

Module QPDFEncryption.
Import JS.

(** The fields of [options] the stand-in reads; [None] is an absent
    property. *)
Record options := {
  userPassword : option string
}.

(** [generateKey(password)]. *)
Definition generateKey (password : string) : M Uint8Array :=
  let data := TextEncoder_encode password in
  key ← Uint8Array_new 256;
  for_upto 256 (λ i,
    put key i (xor (index_mod i (length data) ≫= λ j, data !! j) (Z.of_nat i * 17)));;
  mret key.

(** [options.userPassword || 'default']. *)
Definition password_of (opts : options) : string :=
  match userPassword opts with
  | Some p => if String.eqb p "" then "default" else p
  | None => "default"
  end.

(** The [encrypt] method of the object made by [createMockQPDF]. *)
Definition encrypt (pdfData : Uint8Array) (opts : options) : M Uint8Array :=
  let password := password_of opts in
  key ← generateKey password;
  encrypted ← Uint8Array_from pdfData;
  for_upto (byteLength encrypted) (λ i,
    x ← get encrypted i;
    k ← from_option (get key) (mret None) (index_mod i (byteLength key));
    put encrypted i (xor x (from_option code 0 k)));;
  mret encrypted.

(** The bytes [generateKey] leaves in the fresh key array. *)
Definition key_bytes (data : list byte) : list byte :=
  imap (λ i _, u8 (xor (index_mod i (length data) ≫= λ j, data !! j) (Z.of_nat i * 17)))
       (replicate 256 zero_byte).

(** The key and the output in the words of the specification. *)
Definition spec_key (passwordBytes : list byte) (j : nat) : Z :=
  Z.lxor (code (passwordBytes !!! (j mod length passwordBytes)%nat))
         ((Z.of_nat j * 17) mod 256).

Definition spec_encrypt (passwordBytes : list byte) (input : list byte) : list byte :=
  imap (λ i x, u8 (Z.lxor (code x) (spec_key passwordBytes (i mod 256)))) input.

(** *** Loading and [encryptPDF]

    A call is run on its own, from its first statement to its last: no
    other call of the object runs between its stretches. *)

(** [progressCallback]: [None] is [null]; the function tells whether the
    call [progressCallback(text, progress)] throws. *)
Definition callback := option (string → Z → bool).

Definition throws (cb : callback) (text : string) (progress : Z) : bool :=
  match cb with
  | Some f => f text progress
  | None => false
  end.

(** The value of the field [qpdf]: the object made by [createMockQPDF], or
    the module [initQPDFModule] delivers, which may or may not have a member
    [encrypt]. *)
Inductive qpdf_object :=
| Mock
| Real (has_encrypt : bool).

(** The fields of a [QPDFEncryption] object; a promise is represented by
    the way it settles. *)
Record object := {
  qpdf : option qpdf_object;
  status : string;
  loadPromise : option (result unit)
}.

Definition constructor : object :=
  {| qpdf := None; status := "not-loaded"; loadPromise := None |}.

Definition set_qpdf (q : qpdf_object) (this : object) : object :=
  {| qpdf := Some q; status := status this; loadPromise := loadPromise this |}.

Definition set_status (s : string) (this : object) : object :=
  {| qpdf := qpdf this; status := s; loadPromise := loadPromise this |}.

Definition set_loadPromise (r : result unit) (this : object) : object :=
  {| qpdf := qpdf this; status := status this; loadPromise := Some r |}.

(** What the page offers half a second after the module script has been
    added: [window.initQPDFModule] is missing ([None]), or it is a function
    whose call rejects or delivers a module. *)
Definition environment := option (result bool).

Definition failed : error := Error "callback".

(** [_loadQPDF]; the value it resolves to ([true]) is not recorded. *)
Definition _loadQPDF (cb : callback) (initQPDFModule : environment) (this : object)
  : result unit * object :=
  let attempt : result unit * object :=
    if throws cb "Loading QPDF WASM module..." 10 then (Throw failed, this)
    else if throws cb "Initializing QPDF..." 50 then (Throw failed, this)
    else
      match initQPDFModule with
      | Some (Ok has_encrypt) =>
        let this := set_qpdf (Real has_encrypt) this in
        if throws cb "QPDF ready!" 100 then (Throw failed, this)
        else (Ok (), this)
      | Some (Throw e) => (Throw e, this)
      | None => (Throw (Error "QPDF module failed to load"), this)
      end in
  match attempt with
  | (Ok _, this) => (Ok (), this)
  | (Throw _, this) =>
    if throws cb "Using fallback encryption..." 100 then (Throw failed, this)
    else (Ok (), set_qpdf Mock this)
  end.

(** [loadModule]; under the status ['loading'] the call hands on the
    promise of the load in progress. *)
Definition loadModule (cb : callback) (initQPDFModule : environment) (this : object)
  : result unit * object :=
  if String.eqb (status this) "ready" then (Ok (), this)
  else if String.eqb (status this) "loading"
  then (default (Ok ()) (loadPromise this), this)
  else
    let this := set_status "loading" this in
    let '(r, this) := _loadQPDF cb initQPDFModule this in
    let this := set_loadPromise r this in
    match r with
    | Ok _ => (Ok (), set_status "ready" this)
    | Throw e => (Throw e, set_status "error" this)
    end.

(** The argument of [encryptPDF]: a [Uint8Array], or an [ArrayBuffer]. *)
Inductive source :=
| Typed (a : Uint8Array)
| Buffer (b : nat).

(** The fields of [options] that [encryptPDF] reads; [None] is an absent
    property. *)
Record request := {
  request_userPassword : option string;
  request_ownerPassword : option string;
  encryptionMethod : option string
}.

Record encrypted := {
  success : bool;
  data : Uint8Array;
  method : string;
  isRealEncryption : bool
}.

Section encryptPDF.
(** The [encrypt] member of a real module and [fallbackEncryption], which
    works through PDF-lib. *)
Context (real_encrypt : Uint8Array → request → M Uint8Array).
Context (fallbackEncryption : Uint8Array → request → M encrypted).
Context (platform_message : error → string).

Definition encryptPDF (initQPDFModule : environment) (pdfData : source)
    (opts : request) (this : object) : heap → (result encrypted * object) * heap :=
  λ h,
    let userPassword := default ""%string (request_userPassword opts) in
    let encryptionMethod := default "AES-256"%string (encryptionMethod opts) in
    let '(loaded, this) :=
      if negb (String.eqb (status this) "ready")
      then loadModule None initQPDFModule this
      else (Ok (), this) in
    let body : M encrypted :=
      lift loaded;;
      pdfBytes ← match pdfData with
                 | Typed a => mret a
                 | Buffer b => Uint8Array_on b 0 None
                 end;
      match qpdf this with
      | Some Mock =>
        encryptedData ← encrypt pdfBytes {| userPassword := Some userPassword |};
        mret {| success := true; data := encryptedData;
                method := "QPDF " +:+ encryptionMethod +:+ " Encryption";
                isRealEncryption := true |}
      | Some (Real true) =>
        encryptedData ← real_encrypt pdfBytes opts;
        mret {| success := true; data := encryptedData;
                method := "QPDF " +:+ encryptionMethod +:+ " Encryption";
                isRealEncryption := true |}
      | _ => fallbackEncryption pdfBytes opts
      end in
    let '(r, h') :=
      catch body
            (λ error, throw (Error ("Failed to encrypt PDF: "
                                    +:+ message platform_message error))) h in
    ((r, this), h').

End encryptPDF.

End QPDFEncryption.

(** ** ghostscript-wasm.js *)

Module GhostscriptWASM.
Import JS.

(** *** The mock compression *)

(** The literals 0.3, 0.5, 0.7 and 0.85: the binary64 numbers nearest to
    3/10, 1/2, 7/10 and 85/100. *)
Definition ratios : list (string * spec_float) :=
  [("screen", b64_div (b64_of_Z 3) (b64_of_Z 10));
   ("ebook", b64_div (b64_of_Z 1) (b64_of_Z 2));
   ("printer", b64_div (b64_of_Z 7) (b64_of_Z 10));
   ("prepress", b64_div (b64_of_Z 85) (b64_of_Z 100))]%string.

Definition descriptions : list (string * string) :=
  [("screen", "Screen quality (72 DPI)");
   ("ebook", "eBook quality (150 DPI)");
   ("printer", "Printer quality (300 DPI)");
   ("prepress", "Prepress quality (300+ DPI)")]%string.

Definition getCompressionRatio (quality : string) : member spec_float :=
  property_or ratios quality "ebook".

Definition getQualityDescription (quality : string) : member string :=
  property_or descriptions quality "ebook".

(** [byteLength * ratio]: a function or an object as a factor converts to
    [NaN]. *)
Definition times (byteLength : nat) (ratio : member spec_float) : spec_float :=
  match ratio with
  | Own r => b64_mul (b64_of_Z (Z.of_nat byteLength)) r
  | _ => S754_nan
  end.

(** [simulateCompression(pdfData, ratio)]; [pdfData] holds the bytes of
    the [ArrayBuffer] and the result those of the fresh [simulatedData]. *)
Definition simulateCompression (pdfData : list byte) (ratio : member spec_float)
  : list byte :=
  let byteLength := length pdfData in
  let header := take (Nat.min 1024 byteLength) pdfData in
  let footer := drop (byteLength - Nat.min 1024 byteLength) pdfData in
  let targetSize := Math_floor (times byteLength ratio) in
  (* new Uint8Array(targetSize): NaN counts as 0 *)
  let simulatedData := replicate (Z.to_nat (default 0 targetSize)) zero_byte in
  (* header.slice(0, Math.min(header.length, targetSize / 2)) *)
  let kept :=
    match targetSize with
    | Some t => take (Nat.min (length header) (Z.to_nat (t / 2))) header
    | None => []
    end in
  let simulatedData := write_at 0 kept simulatedData in
  match targetSize with
  | Some t =>
    if bool_decide (Z.of_nat (length footer) < t)
    then write_at (Z.to_nat t - length footer) footer simulatedData
    else simulatedData
  | None => simulatedData
  end.

Record compression := {
  success : bool;
  data : list byte;
  originalSize : nat;
  compressedSize : nat;
  reduction : string;
  quality : member string;
  method : string
}.

(** [mockCompression(pdfData, quality, ...)].  The two callbacks only
    report progress and the timers only pass time. *)
Definition mockCompression (pdfData : list byte) (quality : string) : compression :=
  let compressionRatio := getCompressionRatio quality in
  let compressedData := simulateCompression pdfData compressionRatio in
  {| success := true;
     data := compressedData;
     originalSize := length pdfData;
     compressedSize := length compressedData;
     reduction :=
       toFixed1
         (b64_mul
            (b64_sub (b64_of_Z 1)
               (b64_div (b64_of_Z (Z.of_nat (length compressedData)))
                        (b64_of_Z (Z.of_nat (length pdfData)))))
            (b64_of_Z 100));
     quality := getQualityDescription quality;
     method := "Mock Compression (Fallback)" |}.

(** *** The loader

    [loadModule] is an [async] function: a call runs until its first
    [await], and is resumed, one stretch at a time, when what it awaits has
    settled.  Stretches of different calls interleave; within a stretch the
    object is read and written without interruption.  A call is represented
    by the place where it is suspended. *)

(** [progressCallback]: [None] is [null]; the function tells whether the
    call [progressCallback(text, progress)] throws.  A callback reports
    progress; it is taken not to call back into the object nor to write
    its fields. *)
Definition callback := option (string → Z → bool).

Definition throws (cb : callback) (text : string) (progress : Z) : bool :=
  match cb with
  | Some f => f text progress
  | None => false
  end.

(** The fields of a [GhostscriptWASM] object; [gs] and [module] record
    whether the field has been assigned. *)
Record object := {
  gs : bool;
  module : bool;
  isLoaded : bool;
  isLoading : bool
}.

Definition constructor : object :=
  {| gs := false; module := false; isLoaded := false; isLoading := false |}.

Definition getStatus (this : object) : string :=
  if isLoading this then "loading"
  else if isLoaded this then "ready"
  else "not-loaded".

(** Where a call of [loadModule] is suspended, or how it ended. *)
Inductive place :=
| Polling                          (* in the polling loop, on the 100 ms timer *)
| AwaitImport                      (* in loadRealModule, on import(...) *)
| AwaitInit                        (* in loadRealModule, on initGhostscript(...) *)
| AwaitMockTimer (k : nat)         (* in loadMockModule, on the timer of step k *)
| AwaitLoadMock (r : result unit)  (* in the catch block of loadRealModule, on
                                      loadMockModule, which settled with r *)
| AwaitLoadReal (r : result unit)  (* in loadModule, on loadRealModule, which
                                      settled with r *)
| Returned
| Threw (e : error).

(** How an awaited promise settled.  [FulfilledUnusable] is an import that
    succeeds with a module whose default export throws when called. *)
Inductive settled := Fulfilled | Rejected | FulfilledUnusable.

Definition steps : list (string * Z) :=
  [("Downloading Ghostscript WASM...", 20);
   ("Initializing WebAssembly...", 40);
   ("Setting up virtual filesystem...", 60);
   ("Loading Ghostscript engine...", 80);
   ("Ready for compression!", 100)]%string.

Definition set_isLoading (b : bool) (this : object) : object :=
  {| gs := gs this; module := module this; isLoaded := isLoaded this; isLoading := b |}.

Definition set_isLoaded (b : bool) (this : object) : object :=
  {| gs := gs this; module := module this; isLoaded := b; isLoading := isLoading this |}.

Definition set_module (this : object) : object :=
  {| gs := gs this; module := true; isLoaded := isLoaded this; isLoading := isLoading this |}.

Definition set_gs (this : object) : object :=
  {| gs := true; module := module this; isLoaded := isLoaded this; isLoading := isLoading this |}.

Definition failed : error := Error "callback".

(** The error thrown by the [catch] block of [loadModule], whose message
    ends with the message of the error caught.  Only what a progress
    callback threw gets there, here [failed]; an exception of the platform
    would bring the platform's text, which is left empty. *)
Definition rethrown (error : JS.error) : JS.error :=
  Error ("Failed to load Ghostscript WASM: " +:+ JS.message (λ _, "") error).

(** [loadMockModule] from step [k] of its loop on: the callback, then the
    timer; after the last step the module is installed. *)
Definition loadMockModule_from (k : nat) (cb : callback) (this : object)
  : place * object :=
  match steps !! k with
  | Some (text, progress) =>
    if throws cb text progress then (AwaitLoadMock (Throw failed), this)
    else (AwaitMockTimer k, this)
  | None => (AwaitLoadMock (Ok ()), set_module this)
  end.

(** The [catch] block of [loadRealModule]. *)
Definition loadRealModule_catch (cb : callback) (this : object) : place * object :=
  if throws cb "Using fallback compression..." 50
  then (AwaitLoadReal (Throw failed), this)
  else loadMockModule_from 0 cb this.

(** [loadRealModule] up to [await import(...)]. *)
Definition loadRealModule_start (cb : callback) (this : object) : place * object :=
  if throws cb "Loading Ghostscript module..." 20
  then loadRealModule_catch cb this
  else (AwaitImport, this).

(** A call of [loadModule], up to its first [await]. *)
Definition loadModule (cb : callback) (this : object) : place * object :=
  if isLoaded this then (Returned, this)
  else if isLoading this then (Polling, this)
  else
    let this := set_isLoading true this in
    if throws cb "Downloading Ghostscript WASM (16MB)..." 10
    then (Threw (rethrown failed), set_isLoading false this)
    else loadRealModule_start cb this.

(** The stretch that follows the [await] at [at_]. *)
Definition resume (how : settled) (cb : callback) (at_ : place) (this : object)
  : place * object :=
  match at_ with
  | Polling =>
    if isLoading this then (Polling, this) else (Returned, this)
  | AwaitImport =>
    match how with
    | Rejected => loadRealModule_catch cb this
    | _ =>
      if throws cb "Initializing WebAssembly..." 40
      then loadRealModule_catch cb this
      else match how with
           | FulfilledUnusable => loadRealModule_catch cb this
           | _ => (AwaitInit, this)
           end
    end
  | AwaitInit =>
    match how with
    | Rejected => loadRealModule_catch cb this
    | _ =>
      let this := set_gs this in
      if throws cb "Ghostscript WASM ready!" 100
      then loadRealModule_catch cb this
      else (AwaitLoadReal (Ok ()), set_module this)
    end
  | AwaitMockTimer k => loadMockModule_from (S k) cb this
  | AwaitLoadMock r => (AwaitLoadReal r, this)
  | AwaitLoadReal (Ok _) =>
    (Returned, set_isLoading false (set_isLoaded true this))
  | AwaitLoadReal (Throw error) =>
    (Threw (rethrown error), set_isLoading false this)
  | Returned => (Returned, this)
  | Threw e => (Threw e, this)
  end.

Record task := {
  progressCallback : callback;
  at_ : place
}.

Record system := {
  this : object;
  tasks : list task
}.

Definition initial : system := {| this := constructor; tasks := [] |}.

(** What happens next: somebody calls [loadModule], or the call numbered
    [i] is resumed. *)
Inductive event :=
| Call (cb : callback)
| Resume (i : nat) (how : settled).

Definition step (sys : system) (e : event) : system :=
  match e with
  | Call cb =>
    let '(p, o) := loadModule cb (this sys) in
    {| this := o; tasks := tasks sys ++ [{| progressCallback := cb; at_ := p |}] |}
  | Resume i how =>
    match tasks sys !! i with
    | Some t =>
      let '(p, o) := resume how (progressCallback t) (at_ t) (this sys) in
      {| this := o;
         tasks := <[i := {| progressCallback := progressCallback t; at_ := p |}]>
                    (tasks sys) |}
    | None => sys
    end
  end.

Definition run (sys : system) (es : list event) : system := foldl step sys es.

(** A call is loading from the assignment [isLoading = true] until it
    returns or throws. *)
Definition loading (p : place) : bool :=
  match p with
  | AwaitImport | AwaitInit | AwaitMockTimer _ | AwaitLoadMock _ | AwaitLoadReal _ => true
  | Polling | Returned | Threw _ => false
  end.

Definition in_progress (ts : list task) (i : nat) : Prop :=
  ∃ t, ts !! i = Some t ∧ loading (at_ t) = true.

(** A callback that never throws. *)
Definition quiet (cb : callback) : Prop :=
  ∀ text progress, throws cb text progress = false.

Definition resumes (i : nat) (e : event) : bool :=
  match e with
  | Resume j _ => Nat.eqb i j
  | Call _ => false
  end.

Definition resumes_of (i : nat) (es : list event) : nat :=
  length (filter (λ e, resumes i e = true) es).

(** When the import or the initialisation fails. *)
Definition real_module_fails (p : place) (how : settled) : Prop :=
  (p = AwaitImport ∧ (how = Rejected ∨ how = FulfilledUnusable))
  ∨ (p = AwaitInit ∧ how = Rejected).

(** The fallback succeeds for the call numbered [i], which was resumed
    into the state [sys] with the failure and has run on to [final]: the
    call has not thrown and [loadRealModule] has not rejected; and once the
    call has been resumed seven more times (the five timers of
    [loadMockModule] and the two returns) it has returned, the mock module
    is installed, [gs] is as it was, [isLoaded] is set and [getStatus()]
    is ["ready"]. *)
Definition fallback_succeeds (i : nat) (es : list event) (sys final : system) : Prop :=
  (∀ t', tasks final !! i = Some t' →
         ∀ e, at_ t' ≠ Threw e ∧ at_ t' ≠ AwaitLoadReal (Throw e))
  ∧ ((7 ≤ resumes_of i es)%nat →
     (∃ t', tasks final !! i = Some t' ∧ at_ t' = Returned)
     ∧ module (this final) = true
     ∧ gs (this final) = gs (this sys)
     ∧ isLoaded (this final) = true
     ∧ getStatus (this final) = "ready"%string).

(** What every reachable state satisfies: while [isLoading] is set exactly
    one call is loading and the module is not loaded; otherwise no call is
    loading. *)
Definition invariant (sys : system) : Prop :=
  if isLoading (this sys)
  then isLoaded (this sys) = false
       ∧ ∃ i, ∀ j, in_progress (tasks sys) j ↔ j = i
  else ∀ j, ¬ in_progress (tasks sys) j.

(** The remaining stretches of a call that has entered the fallback. *)
Definition fallback_stage (p : place) : option nat :=
  match p with
  | AwaitMockTimer k => if (k <? 5)%nat then Some (7 - k)%nat else None
  | AwaitLoadMock (Ok _) => Some 2%nat
  | AwaitLoadReal (Ok _) => Some 1%nat
  | Returned => Some 0%nat
  | _ => None
  end.

Definition falling_back (g : bool) (i r : nat) (sys : system) : Prop :=
  ∃ t, tasks sys !! i = Some t
       ∧ quiet (progressCallback t)
       ∧ fallback_stage (at_ t) = Some r
       ∧ (∀ j, in_progress (tasks sys) j → j = i)
       ∧ gs (this sys) = g
       ∧ match r with
         | O => isLoaded (this sys) = true ∧ isLoading (this sys) = false
                ∧ module (this sys) = true
         | S _ => isLoaded (this sys) = false ∧ isLoading (this sys) = true
                  ∧ ((r ≤ 2)%nat → module (this sys) = true)
         end.

(** The claimed ratio: 3/10, 1/2, 7/10 or 85/100 by name, 1/2 otherwise. *)
Definition spec_ratio (quality : string) : spec_float :=
  if String.eqb quality "screen" then b64_div (b64_of_Z 3) (b64_of_Z 10)
  else if String.eqb quality "printer" then b64_div (b64_of_Z 7) (b64_of_Z 10)
  else if String.eqb quality "prepress" then b64_div (b64_of_Z 85) (b64_of_Z 100)
  else b64_div (b64_of_Z 1) (b64_of_Z 2).

(** *** A load whose callback never throws *)

(** An upper bound on the stretches a loading call has left. *)
Definition load_stage (p : place) : option nat :=
  match p with
  | AwaitImport => Some 9%nat
  | AwaitInit => Some 8%nat
  | AwaitMockTimer k => if (k <? 5)%nat then Some (7 - k)%nat else None
  | AwaitLoadMock (Ok _) => Some 2%nat
  | AwaitLoadReal (Ok _) => Some 1%nat
  | Returned => Some 0%nat
  | _ => None
  end.

Definition loading_quietly (i r : nat) (sys : system) : Prop :=
  ∃ t r', tasks sys !! i = Some t
       ∧ quiet (progressCallback t)
       ∧ load_stage (at_ t) = Some r'
       ∧ (r' ≤ r)%nat
       ∧ (∀ j, in_progress (tasks sys) j → j = i)
       ∧ match r' with
         | O => isLoaded (this sys) = true ∧ isLoading (this sys) = false
                ∧ module (this sys) = true
         | S _ => isLoaded (this sys) = false ∧ isLoading (this sys) = true
                  ∧ ((r' ≤ 2)%nat → module (this sys) = true)
         end.

(** *** [compressPDF] *)

Definition qualitySettings : list (string * (string * string)) :=
  [("screen", ("/screen", "Screen quality (72 DPI)"));
   ("ebook", ("/ebook", "eBook quality (150 DPI)"));
   ("printer", ("/printer", "Printer quality (300 DPI)"));
   ("prepress", ("/prepress", "Prepress quality (300+ DPI)"))]%string.

(** [compressPDF(pdfData, quality)], its two callbacks left at their
    default [null].  The choice between the two compressions is made before
    the first [await].  [usable] tells whether the module in [gs] has the
    members [callMain] and [FS]; [realGhostscriptCompression], which runs
    Ghostscript, is a parameter. *)
Definition compressPDF (usable : bool)
    (realGhostscriptCompression :
       list byte → member (string * string) → result compression)
    (this : object) (pdfData : list byte) (quality : string) : result compression :=
  if negb (isLoaded this) then Throw (Error "Ghostscript WASM module not loaded")
  else
    let settings := property_or qualitySettings quality "ebook" in
    if gs this && usable then realGhostscriptCompression pdfData settings
    else Ok (mockCompression pdfData quality).

(** No initialisation of the real module succeeds in the run [es] from
    [sys]: whenever a call suspended on [initGhostscript] is resumed, the
    initialisation has been rejected. *)
Fixpoint never_initialised (sys : system) (es : list event) : bool :=
  match es with
  | [] => true
  | e :: es =>
    match e with
    | Resume i how =>
      match at_ <$> tasks sys !! i, how with
      | Some AwaitInit, Rejected => true
      | Some AwaitInit, _ => false
      | _, _ => true
      end
    | Call _ => true
    end && never_initialised (step sys e) es
  end.

End GhostscriptWASM.

(** ** The single-document viewer

    The script that follows [PDFProtection] in the same file keeps one
    document, a current page and a rotation in global variables. *)

Module Viewer.

(** [pdfDoc] is represented by its [numPages]; [None] is [null]. *)
Record globals := {
  pdfDoc : option Z;
  pageNum : Z;
  currentRotation : Z
}.

(** The values of the declarations. *)
Definition initial : globals :=
  {| pdfDoc := None; pageNum := 1; currentRotation := 0 |}.

(** The callback of [loadPDF], for a document of [numPages] pages. *)
Definition loaded (numPages : Z) : globals :=
  {| pdfDoc := Some numPages; pageNum := 1; currentRotation := 0 |}.

Definition rotatePage (g : globals) : globals :=
  {| pdfDoc := pdfDoc g; pageNum := pageNum g;
     currentRotation := JS.rem (currentRotation g + 90) 360 |}.

Definition showPreviousPage (g : globals) : globals :=
  if Z.leb (pageNum g) 1 then g
  else {| pdfDoc := pdfDoc g; pageNum := pageNum g - 1;
          currentRotation := currentRotation g |}.

(** [showNextPage] reads [pdfDoc.numPages]: without a document it
    throws. *)
Definition showNextPage (g : globals) : JS.result globals :=
  match pdfDoc g with
  | None => JS.Throw JS.TypeError
  | Some numPages =>
    if Z.leb numPages (pageNum g) then JS.Ok g
    else JS.Ok {| pdfDoc := pdfDoc g; pageNum := pageNum g + 1;
                  currentRotation := currentRotation g |}
  end.

Inductive click := RotatePage | ShowPreviousPage | ShowNextPage.

#[export] Instance click_eq_dec : EqDecision click.
Proof. solve_decision. Defined.

(** A click whose handler throws leaves the globals as they are. *)
Definition handle (g : globals) (c : click) : globals :=
  match c with
  | RotatePage => rotatePage g
  | ShowPreviousPage => showPreviousPage g
  | ShowNextPage =>
    match showNextPage g with
    | JS.Ok g' => g'
    | JS.Throw _ => g
    end
  end.

Definition rotations (cs : list click) : Z :=
  Z.of_nat (length (filter (λ c, c = RotatePage) cs)).

(** [reorderPages]: the array handed to [copyPages]; [None] when the
    function returns at its first test.  The document PDF-lib loads has the
    pages [pdfDoc] has. *)
Definition reorderPages (g : globals) : option (list (option Z)) :=
  match pdfDoc g with
  | None => None
  | Some numPages =>
    if Z.leb numPages 1 || Z.leb (pageNum g) 1 then None
    else
      let pageIndices := map Some (JS.Array_keys numPages) in
      let currentIndex := Z.to_nat (pageNum g - 1) in
      (* [a[c - 1], a[c]] = [a[c], a[c - 1]] *)
      let first := JS.Array_get currentIndex pageIndices in
      let second := JS.Array_get (currentIndex - 1) pageIndices in
      let pageIndices := JS.Array_set (currentIndex - 1) first pageIndices in
      let pageIndices := JS.Array_set currentIndex second pageIndices in
      Some pageIndices
  end.

(** [splitPDF]: the index lists of the two parts; a part without pages is
    not downloaded. *)
Definition splitPDF (g : globals) : option (list Z * list Z) :=
  match pdfDoc g with
  | None => None
  | Some numPages =>
    if Z.leb numPages 1 then None
    else
      let pageCount := numPages in
      let part1 :=
        if Z.ltb 1 (pageNum g) then JS.Array_keys (pageNum g - 1) else [] in
      let part2 :=
        JS.Array_from (Some (pageCount - pageNum g + 1)) (λ i, i + pageNum g - 1) in
      Some (part1, part2)
  end.

End Viewer.

(** ** A sample platform

    A small JSON printer and parser, enough for metadata whose permissions
    are a flat object of booleans and whose strings need no escaping, and
    sample inputs, on which the statements below are exercised. *)

Module Sample.
Import JS.

Definition quote : ascii := ascii_of_nat 34.

#[local] Set Warnings "-register-all".
Inductive json :=
| JString (s : string)
| JBool (b : bool)
| JObject (fields : list (string * json)).

Definition print_string (s : string) : string :=
  String quote (s +:+ String quote "").

Fixpoint print (j : json) : string :=
  match j with
  | JString s => print_string s
  | JBool b => if b then "true" else "false"
  | JObject fields =>
    let member '(k, v) := print_string k +:+ ":" +:+ print v in
    "{" +:+ String.concat "," (map member fields) +:+ "}"
  end.

(** Reads the characters up to the closing quote. *)
Fixpoint read_string (s : string) : option (string * string) :=
  match s with
  | EmptyString => None
  | String c rest =>
    if Ascii.eqb c quote then Some (EmptyString, rest)
    else '(body, rest') ← read_string rest; Some (String c body, rest')
  end.

Definition expect (word : string) (s : string) : option string :=
  if String.prefix word s
  then Some (String.substring (String.length word) (String.length s) s)
  else None.

Fixpoint read (fuel : nat) (s : string) : option (json * string) :=
  match fuel with
  | O => None
  | S fuel =>
    match s with
    | String "t" _ => rest ← expect "true" s; Some (JBool true, rest)
    | String "f" _ => rest ← expect "false" s; Some (JBool false, rest)
    | String "{" (String "}" rest) => Some (JObject [], rest)
    | String "{" rest =>
      (fix members (n : nat) (s : string) (acc : list (string * json)) :=
         match n with
         | O => None
         | S n =>
           match s with
           | String c s1 =>
             if Ascii.eqb c quote then
               '(key, s2) ← read_string s1;
               s3 ← expect ":" s2;
               '(v, s4) ← read fuel s3;
               match s4 with
               | String "," s5 => members n s5 (acc ++ [(key, v)])
               | String "}" s5 => Some (JObject (acc ++ [(key, v)]), s5)
               | _ => None
               end
             else None
           | EmptyString => None
           end
         end) (String.length s) rest []
    | String c rest =>
      if Ascii.eqb c quote
      then '(body, rest') ← read_string rest; Some (JString body, rest')
      else None
    | EmptyString => None
    end
  end.

Definition Permissions := list (string * bool).

Definition to_json (m : PDFProtection.metadata Permissions) : json :=
  JObject
    [("version", JString (PDFProtection.version m));
     ("encryption", JString (PDFProtection.encryption m));
     ("timestamp", JString (PDFProtection.timestamp m));
     ("permissions",
      JObject (map (λ '(k, b), (k, JBool b)) (PDFProtection.permissions m)));
     ("hasUserPassword", JBool (PDFProtection.hasUserPassword m));
     ("hasOwnerPassword", JBool (PDFProtection.hasOwnerPassword m))]%string.

Definition flags (fields : list (string * json)) : option Permissions :=
  mapM (λ '(k, v), match v with JBool b => Some (k, b) | _ => None end) fields.

Definition of_json (j : json) : option (PDFProtection.metadata Permissions) :=
  match j with
  | JObject [("version", JString v); ("encryption", JString e);
             ("timestamp", JString t); ("permissions", JObject ps);
             ("hasUserPassword", JBool u); ("hasOwnerPassword", JBool o)]%string =>
    ps' ← flags ps;
    Some {| PDFProtection.version := v; PDFProtection.encryption := e;
            PDFProtection.timestamp := t; PDFProtection.permissions := ps';
            PDFProtection.hasUserPassword := u;
            PDFProtection.hasOwnerPassword := o |}
  | _ => None
  end.

Definition JSON_stringify (m : PDFProtection.metadata Permissions) : result string :=
  Ok (print (to_json m)).

Definition JSON_parse (s : string) : result (PDFProtection.metadata Permissions) :=
  match read (String.length s) s with
  | Some (j, EmptyString) =>
    match of_json j with
    | Some m => Ok m
    | None => Throw SyntaxError
    end
  | _ => Throw SyntaxError
  end.

Definition protect_options : PDFProtection.options Permissions :=
  {| PDFProtection.opt_permissions :=
       [("print", true); ("modify", false); ("copy", false)]%string;
     PDFProtection.userPassword := Some "secret"%string;
     PDFProtection.ownerPassword := None |}.

Definition now : string := "2024-05-01T10:20:30.000Z".

(** A store with a salt, an IV and a ciphertext, in this order. *)
Definition store : heap :=
  [replicate 16 "s"%byte; replicate 12 "i"%byte; list_byte_of_string "ciphertext"].

Definition salt : Uint8Array := {| buffer := 0; byteOffset := 0; byteLength := 16 |}.
Definition iv : Uint8Array := {| buffer := 1; byteOffset := 0; byteLength := 12 |}.
Definition ciphertext : Uint8Array :=
  {| buffer := 2; byteOffset := 0; byteLength := 10 |}.

(** A window on the middle of a buffer, as the input of the stand-in. *)
Definition pdf_store : heap := [list_byte_of_string "%PDF-1.4 sample"].
Definition pdfData : Uint8Array := {| buffer := 0; byteOffset := 1; byteLength := 8 |}.

(** A progress callback that throws when the fallback is announced. *)
Definition brittle : GhostscriptWASM.callback := Some (λ _ progress, Z.eqb progress 50).

(** A stand-in for [crypto.subtle] in the sample runs: the key is the
    password followed by the salt, and the cipher reverses the text and
    appends the IV. *)
Definition importKey (password : list byte) : result (list byte) := Ok password.

Definition deriveKey (keyMaterial salt : list byte) : result (list byte) :=
  Ok (keyMaterial ++ salt).

Definition AES_GCM_encrypt (key iv plaintext : list byte) : result (list byte) :=
  Ok (rev plaintext ++ iv).

Definition AES_GCM_decrypt (key iv ciphertext : list byte) : result (list byte) :=
  Ok (rev (take (length ciphertext - length iv) ciphertext)).

Definition platform_message (e : error) : string := "error".

(** An input longer than the key of the stand-in. *)
Definition long_store : heap := [replicate 300 "a"%byte].
Definition long_pdfData : Uint8Array :=
  {| buffer := 0; byteOffset := 0; byteLength := 300 |}.

End Sample.

(** * Verification *)

(** ** privpdf.js *)

Section PrivPDF_facts.
Import PrivPDF.
Context {File : Type}.
Implicit Types st : state File.

Lemma resetTool_cleared st : cleared (resetTool st).
Proof. by repeat split. Qed.

Lemma constructor_rotations_ok : rotations_ok (@constructor File).
Proof. intros pageNum r H. cbn in H. by rewrite lookup_empty in H. Qed.

Lemma quarter_turn_step current degrees :
  quarter_turn current → degrees = -90 ∨ degrees = 90 →
  quarter_turn (JS.rem (current + degrees + 360) 360).
Proof.
  unfold quarter_turn, JS.rem.
  intros [-> | [-> | [-> | ->]]] [-> | ->]; vm_compute; tauto.
Qed.

Lemma or_zero_quarter_turn (x : option Z) :
  (∀ r, x = Some r → quarter_turn r) → quarter_turn (JS.or_zero x).
Proof.
  intros H. destruct x as [v|]; cbn; [|by left].
  destruct (Z.eqb_spec v 0); [by left | by apply H].
Qed.

Lemma rotatePage_rotations_ok st pageNum degrees :
  rotations_ok st → degrees = -90 ∨ degrees = 90 →
  rotations_ok (rotatePage pageNum degrees st).
Proof.
  intros Hst Hd p r. cbn. rewrite lookup_insert. case_decide as Hp.
  - intros [= <-]. apply quarter_turn_step; [|done].
    apply or_zero_quarter_turn. intros r. apply Hst.
  - apply Hst.
Qed.

Lemma rotateAllPages_rotations_ok thumbnails : ∀ st degrees,
  rotations_ok st → degrees = -90 ∨ degrees = 90 →
  rotations_ok (rotateAllPages thumbnails degrees st).
Proof.
  unfold rotateAllPages.
  induction thumbnails as [|pageNum thumbnails IH]; intros st degrees Hst Hd; [done|].
  cbn. apply IH; [|done]. by apply rotatePage_rotations_ok.
Qed.

Lemma rotate_rotations_ok st c :
  rotations_ok st → degrees_of c = -90 ∨ degrees_of c = 90 →
  rotations_ok (rotate st c).
Proof.
  destruct c; cbn; intros.
  - by apply rotatePage_rotations_ok.
  - by apply rotateAllPages_rotations_ok.
Qed.

(** C7. Whenever [switchTool] completes, the four containers of the
    application state are empty and [currentTool] is the tool switched
    to; it completes whenever the page holds the button and the panel of
    the tool; and [resetTool] on its own empties the four containers of
    every state. *)
Theorem switchTool_clears_state (doc : document) (tool : string) st :
  (∀ st', switchTool doc tool st = (JS.Ok (), st') →
          cleared st' ∧ currentTool st' = tool)
  ∧ (querySelector_data_tool doc tool = true →
     getElementById doc (tool +:+ "-panel") = true →
     ∃ st', switchTool doc tool st = (JS.Ok (), st'))
  ∧ cleared (resetTool st).
Proof.
  unfold switchTool. split; [|split].
  - intros st'.
    destruct (querySelector_data_tool doc tool); cbn; [|discriminate].
    destruct (getElementById doc (tool +:+ "-panel")); cbn; [|discriminate].
    intros [= <-]. split; [apply resetTool_cleared | done].
  - intros -> ->. cbn. eauto.
  - apply resetTool_cleared.
Qed.

(** C8. Starting from a rotation map whose entries are quarter turns (the
    empty map of the constructor and of [resetTool] in particular), every
    sequence of [rotatePage] and [rotateAllPages] calls with degrees -90
    or 90 leaves, for every page number, either no entry or one of 0, 90,
    180 and 270; a single call stores [(current + degrees + 360) % 360]. *)
Theorem rotatePage_quarter_turns st (calls : list rotation) (pageNum : Z) :
  rotations_ok st →
  Forall (λ c, degrees_of c = -90 ∨ degrees_of c = 90) calls →
  (∀ r, pageRotations (foldl rotate st calls) !! pageNum = Some r →
        r = 0 ∨ r = 90 ∨ r = 180 ∨ r = 270)
  ∧ (∀ degrees,
       pageRotations (rotatePage pageNum degrees st) !! pageNum
       = Some (JS.rem (JS.or_zero (pageRotations st !! pageNum) + degrees + 360) 360)).
Proof.
  intros Hst Hcalls. split.
  - revert st Hst. induction Hcalls as [|c calls Hc _ IH]; intros st Hst r.
    + apply Hst.
    + cbn. apply IH. by apply rotate_rotations_ok.
  - intros degrees. cbn. apply lookup_insert_eq.
Qed.

End PrivPDF_facts.

Lemma switchTool_clears_state_witness :
  let doc := PrivPDF.Build_document (λ _, true) (λ _, true) in
  let st : PrivPDF.state unit :=
    PrivPDF.mkState "merge" {[ "merge-1" := () ]} {[ 2 ]} {[ 3 := 90 ]} [1; 2] in
  ∃ st', PrivPDF.switchTool doc "split" st = (JS.Ok (), st')
         ∧ PrivPDF.cleared st' ∧ PrivPDF.currentTool st' = "split"%string.
Proof.
  intros doc st.
  destruct (switchTool_clears_state doc "split" st) as (Hclear & Hruns & _).
  destruct (Hruns eq_refl eq_refl) as [st' Hst'].
  exists st'. split; [exact Hst' | exact (Hclear st' Hst')].
Defined.

Lemma rotatePage_quarter_turns_witness :
  ∃ r, PrivPDF.pageRotations
         (foldl PrivPDF.rotate (@PrivPDF.constructor unit)
                [PrivPDF.RotatePage 1 (-90); PrivPDF.RotateAllPages [1; 2] 90;
                 PrivPDF.RotatePage 2 90]) !! 2 = Some r
       ∧ (r = 0 ∨ r = 90 ∨ r = 180 ∨ r = 270).
Proof.
  exists 180. split; [reflexivity|].
  refine (proj1 (rotatePage_quarter_turns (@PrivPDF.constructor unit)
            [PrivPDF.RotatePage 1 (-90); PrivPDF.RotateAllPages [1; 2] 90;
             PrivPDF.RotatePage 2 90] 2 _ _) 180 _).
  - apply constructor_rotations_ok.
  - repeat (apply List.Forall_cons; [cbn; lia|]). apply List.Forall_nil.
  - reflexivity.
Defined.

(** *** Page ranges *)

Section parsePageRange_facts.
Import PrivPDF.

Lemma uniq_from_elem_of (l : list Z) : ∀ seen x,
  x ∈ JS.uniq_from seen l ↔ x ∈ l ∧ x ∉ seen.
Proof.
  induction l as [|y l IH]; intros seen x; cbn.
  - split; [by intros ?%elem_of_nil | by intros [?%elem_of_nil _]].
  - case_bool_decide as Hy.
    + rewrite IH, elem_of_cons. split; [tauto|].
      intros [[-> | ?] ?]; tauto.
    + rewrite !elem_of_cons, IH, elem_of_cons. split.
      * intros [-> | [? ?]]; tauto.
      * intros [[-> | ?] ?]; [tauto|].
        destruct (decide (x = y)); tauto.
Qed.

Lemma uniq_from_NoDup (l : list Z) : ∀ seen, NoDup (JS.uniq_from seen l).
Proof.
  induction l as [|y l IH]; intros seen; cbn; [constructor|].
  case_bool_decide; [apply IH|].
  constructor; [|apply IH].
  rewrite uniq_from_elem_of, elem_of_cons. tauto.
Qed.

Lemma Set_spread_elem_of (l : list Z) x : x ∈ JS.Set_spread l ↔ x ∈ l.
Proof.
  unfold JS.Set_spread. rewrite uniq_from_elem_of.
  split; [tauto|]. intros ?. split; [done|]. apply not_elem_of_nil.
Qed.

Lemma StronglySorted_le_NoDup_lt (l : list Z) :
  StronglySorted Z.le l → NoDup l → StronglySorted Z.lt l.
Proof.
  induction 1 as [|x l Hl IH Hx]; intros Hnd; [constructor|].
  apply NoDup_cons in Hnd as [Hx' Hnd].
  constructor; [by apply IH|].
  apply Forall_forall. intros y Hy.
  assert (x ≤ y) by (revert y Hy; by apply Forall_forall).
  assert (x ≠ y) by (intros ->; done).
  lia.
Qed.

Lemma sort_ascending_elem_of (l : list Z) x : x ∈ JS.sort_ascending l ↔ x ∈ l.
Proof. unfold JS.sort_ascending. by rewrite merge_sort_Permutation. Qed.

Lemma sort_ascending_sorted (l : list Z) :
  NoDup l → StronglySorted Z.lt (JS.sort_ascending l).
Proof.
  intros Hnd. apply StronglySorted_le_NoDup_lt.
  - apply StronglySorted_merge_sort; apply _.
  - unfold JS.sort_ascending. by rewrite merge_sort_Permutation.
Qed.

Lemma part_pages_in_bounds part maxPage i :
  i ∈ part_pages part maxPage → 0 ≤ i < maxPage.
Proof.
  unfold part_pages. destruct (JS.includes _ _).
  - destruct (map _ _) as [|[start|] [|[end_|] ?]];
      try by intros ?%elem_of_nil.
    by intros [? _]%list_elem_of_filter.
  - destruct (_ <$> _) as [page|]; [|by intros ?%elem_of_nil].
    case_bool_decide; [|by intros ?%elem_of_nil].
    by intros ->%list_elem_of_singleton.
Qed.

Lemma split_without_separator c (l : list byte) :
  JS.includes c l = false → JS.split c l = [l].
Proof.
  unfold JS.includes. induction l as [|a l IH]; cbn; [done|].
  destruct (JS.chr c a); cbn; [done|].
  intros H. by rewrite (IH H).
Qed.


Lemma split_cons_includes c (l : list byte) p q r :
  JS.split c l = p :: q :: r → JS.includes c l = true.
Proof.
  intros Hsplit. destruct (JS.includes c l) eqn:Hinc; [done|].
  by rewrite (split_without_separator _ _ Hinc) in Hsplit.
Qed.











End parsePageRange_facts.

(** ** Bytes, stores and loops *)

Section JS_facts.
Import JS.

Lemma code_range (b : byte) : 0 ≤ code b < 256.
Proof. unfold code. pose proof (Byte.to_N_bounded b). lia. Qed.

Lemma u8_code (b : byte) : u8 (code b) = b.
Proof.
  unfold u8. rewrite Z.mod_small by apply code_range.
  unfold code. by rewrite N2Z.id, Byte.of_to_N.
Qed.

Lemma code_u8 (z : Z) : code (u8 z) = z mod 256.
Proof.
  unfold u8, code.
  pose proof (Z.mod_pos_bound z 256 eq_refl) as Hz.
  destruct (Byte.of_N (Z.to_N (z mod 256))) as [b|] eqn:Hb; cbn.
  - apply Byte.to_of_N in Hb. rewrite Hb. lia.
  - pose proof (Byte.to_of_N_option_map (Z.to_N (z mod 256))) as H.
    rewrite Hb in H. destruct (N.leb_spec (Z.to_N (z mod 256)) 255); [done | lia].
Qed.

Lemma lxor_mod_256 (a b : Z) :
  Z.lxor a b mod 256 = Z.lxor (a mod 256) (b mod 256).
Proof.
  change 256 with (2 ^ 8). rewrite <- !Z.land_ones by lia.
  apply Z.bits_inj'. intros n Hn.
  rewrite !Z.lxor_spec, !Z.land_spec, !Z.lxor_spec.
  by destruct (Z.testbit a n), (Z.testbit b n), (Z.testbit (Z.ones 8) n).
Qed.

Lemma u8_ext (a b : Z) : a mod 256 = b mod 256 → u8 a = u8 b.
Proof. unfold u8. by intros ->. Qed.

Lemma lxor_cancel (x k : Z) : Z.lxor (Z.lxor x k) k = x.
Proof. by rewrite Z.lxor_assoc, Z.lxor_nilpotent, Z.lxor_0_r. Qed.

(** Masking twice with the same byte-sized key gives the byte back. *)
Lemma u8_xor_xor (x : byte) (k : Z) :
  u8 (Z.lxor (code (u8 (Z.lxor (code x) k))) k) = x.
Proof.
  rewrite code_u8. rewrite <- (u8_code x) at 2.
  apply u8_ext.
  rewrite lxor_mod_256, Z.mod_mod by lia.
  rewrite <- lxor_mod_256. by rewrite lxor_cancel.
Qed.

Lemma for_each_app (l1 l2 : list nat) (body : nat → M unit) (h : heap) :
  for_each (l1 ++ l2) body h =
  match for_each l1 body h with
  | (Ok _, h') => for_each l2 body h'
  | (Throw e, h') => (Throw e, h')
  end.
Proof.
  revert h. induction l1 as [|i l1 IH]; intros h; cbn; [done|].
  unfold mbind, M_bind. destruct (body i h) as [[[]|e] h']; [apply IH | done].
Qed.

Lemma insert_prefix {A} (f : nat → A → A) (cur : list A) (k : nat) (x : A) :
  cur !! k = Some x →
  <[k := f k x]> (take k (imap f cur) ++ drop k cur)
  = take (S k) (imap f cur) ++ drop (S k) cur.
Proof.
  intros Hx. pose proof (lookup_lt_Some _ _ _ Hx) as Hk.
  assert (Hlen : length (take k (imap f cur)) = k)
    by (rewrite length_take, length_imap; lia).
  rewrite <- (Nat.add_0_r k) at 1. rewrite <- Hlen at 1.
  rewrite insert_app_r.
  rewrite (drop_S _ _ _ Hx). cbn.
  rewrite (take_S_r _ _ (f k x)); [by rewrite <- app_assoc|].
  by rewrite list_lookup_imap, Hx.
Qed.

(** A loop whose step [i] rewrites cell [i] of the buffer allocated last,
    from the value the cell holds, maps the buffer pointwise. *)
Lemma for_upto_imap (pre : heap) (cur : list byte) (body : nat → M unit)
    (f : nat → byte → byte) :
  (∀ i x cur', (i < length cur)%nat → cur' !! i = Some x →
     body i (pre ++ [cur']) = (Ok (), pre ++ [<[i := f i x]> cur'])) →
  for_upto (length cur) body (pre ++ [cur]) = (Ok (), pre ++ [imap f cur]).
Proof.
  intros Hbody. unfold for_upto.
  assert (Hk : ∀ k, (k ≤ length cur)%nat →
    for_each (seq 0 k) body (pre ++ [cur])
    = (Ok (), pre ++ [take k (imap f cur) ++ drop k cur])).
  { induction k as [|k IH]; intros Hle; [done|].
    rewrite seq_S, for_each_app, IH by lia. cbn.
    destruct (lookup_lt_is_Some_2 cur k) as [x Hx]; [lia|].
    unfold mbind, M_bind.
    rewrite (Hbody k x); [| lia |].
    - cbn. by rewrite (insert_prefix f cur k x Hx).
    - rewrite lookup_app_r; rewrite length_take, length_imap; [|lia].
      replace (k - k `min` length cur)%nat with 0%nat by lia.
      by rewrite lookup_drop, Nat.add_0_r. }
  rewrite Hk by done.
  rewrite firstn_all2 by (rewrite length_imap; lia).
  by rewrite drop_all, app_nil_r.
Qed.

End JS_facts.

(** ** The QPDF stand-in *)

Section QPDFEncryption_facts.
Import JS QPDFEncryption.

Lemma for_upto_imap_n (n : nat) (pre : heap) (cur : list byte)
    (body : nat → M unit) (f : nat → byte → byte) :
  length cur = n →
  (∀ i x cur', (i < n)%nat → cur' !! i = Some x →
     body i (pre ++ [cur']) = (Ok (), pre ++ [<[i := f i x]> cur'])) →
  for_upto n body (pre ++ [cur]) = (Ok (), pre ++ [imap f cur]).
Proof. intros <-. apply for_upto_imap. Qed.

Lemma put_last (pre : heap) (cur : list byte) (n i : nat) (v : Z) :
  (i < n)%nat → (i < length cur)%nat →
  put {| buffer := length pre; byteOffset := 0; byteLength := n |} i v (pre ++ [cur])
  = (Ok (), pre ++ [<[i := u8 v]> cur]).
Proof.
  intros Hn Hi. unfold put. cbn [buffer byteOffset byteLength].
  rewrite bool_decide_true by done.
  rewrite <- (Nat.add_0_r (length pre)), alter_app_r. cbn.
  unfold write_at. rewrite (insert_take_drop cur i) by done.
  by rewrite Nat.add_1_r.
Qed.

Lemma bytes_of_last (pre : heap) (cur : list byte) (n : nat) :
  (length cur ≤ n)%nat →
  bytes_of {| buffer := length pre; byteOffset := 0; byteLength := n |} (pre ++ [cur]) = cur.
Proof.
  intros Hn. unfold bytes_of. cbn.
  rewrite list_lookup_total_middle by done. by rewrite take_ge.
Qed.

Lemma get_last (pre : heap) (cur : list byte) (n i : nat) :
  (i < n)%nat →
  get {| buffer := length pre; byteOffset := 0; byteLength := n |} i (pre ++ [cur])
  = (Ok (cur !! i), pre ++ [cur]).
Proof.
  intros Hi. unfold get, bytes_of. cbn [buffer byteOffset byteLength].
  rewrite list_lookup_total_middle by done. by rewrite drop_0, lookup_take_lt.
Qed.

Lemma get_middle (pre : heap) (mid cur : list byte) (n j : nat) :
  (length mid ≤ n)%nat →
  get {| buffer := length pre; byteOffset := 0; byteLength := n |} j
      ((pre ++ [mid]) ++ [cur])
  = (Ok (mid !! j), (pre ++ [mid]) ++ [cur]).
Proof.
  intros Hn. unfold get, bytes_of. cbn [buffer byteOffset byteLength].
  replace (((pre ++ [mid]) ++ [cur]) !!! length pre) with mid.
  - by rewrite drop_0, take_ge.
  - rewrite <- app_assoc. by rewrite (list_lookup_total_middle pre ([] ++ [cur]) mid).
Qed.

Lemma bytes_of_app (a : Uint8Array) (h h' : heap) :
  (buffer a < length h)%nat → bytes_of a (h ++ h') = bytes_of a h.
Proof. intros Hb. unfold bytes_of. by rewrite lookup_total_app_l. Qed.

Lemma valid_length (h : heap) (a : Uint8Array) :
  valid h a → length (bytes_of a h) = byteLength a ∧ (buffer a < length h)%nat.
Proof.
  intros (bs & Hbs & Hlen). split; [|by eapply lookup_lt_Some].
  unfold bytes_of. rewrite (list_lookup_total_correct _ _ _ Hbs).
  rewrite length_take, length_drop. lia.
Qed.

Lemma generateKey_run (password : string) (h : heap) :
  generateKey password h
  = (Ok {| buffer := length h; byteOffset := 0; byteLength := 256 |},
     h ++ [key_bytes (TextEncoder_encode password)]).
Proof.
  unfold generateKey, Uint8Array_new, alloc, mbind, M_bind, mret, M_ret.
  rewrite (for_upto_imap_n 256 h (replicate 256 zero_byte) _
             (λ i _, u8 (xor (index_mod i (length (TextEncoder_encode password))
                              ≫= λ j, TextEncoder_encode password !! j)
                             (Z.of_nat i * 17)))).
  - done.
  - apply length_replicate.
  - intros i x cur' Hi Hx. apply put_last; [done|]. by eapply lookup_lt_Some.
Qed.

Lemma password_of_nonempty (opts : options) :
  TextEncoder_encode (password_of opts) ≠ [].
Proof.
  unfold password_of, TextEncoder_encode.
  destruct (userPassword opts) as [p|]; [|done].
  destruct (String.eqb_spec p ""); [done|].
  intros H. apply (f_equal string_of_list_byte) in H.
  by rewrite string_of_list_byte_of_string in H.
Qed.

Lemma key_bytes_lookup (data : list byte) (j : nat) :
  data ≠ [] → (j < 256)%nat →
  key_bytes data !! j = Some (u8 (spec_key data j)).
Proof.
  intros Hdata Hj. unfold key_bytes.
  rewrite list_lookup_imap, lookup_replicate_2 by done. cbn. f_equal.
  unfold index_mod. rewrite bool_decide_false by (by destruct data).
  cbn. assert (Hlt : (j mod length data < length data)%nat)
    by (apply Nat.mod_upper_bound; by destruct data).
  destruct (lookup_lt_is_Some_2 data _ Hlt) as [d Hd].
  unfold spec_key, xor. rewrite Hd, (list_lookup_total_correct _ _ _ Hd). cbn.
  apply u8_ext. rewrite !lxor_mod_256. by rewrite Z.mod_mod.
Qed.

Lemma spec_key_range (data : list byte) (j : nat) : 0 ≤ spec_key data j < 256.
Proof.
  unfold spec_key.
  set (a := code _). set (b := _ mod 256).
  assert (Ha : a mod 256 = a) by (apply Z.mod_small, code_range).
  assert (Hb : b mod 256 = b) by (apply Z.mod_small, Z.mod_pos_bound; lia).
  rewrite <- Ha, <- Hb, <- lxor_mod_256. apply Z.mod_pos_bound. lia.
Qed.

(** One run of [encrypt]: the key and the output are allocated after the
    buffers of the store, which stay as they are. *)
Lemma encrypt_run (pdfData : Uint8Array) (opts : options) (h : heap) :
  valid h pdfData →
  let data := TextEncoder_encode (password_of opts) in
  encrypt pdfData opts h
  = (Ok {| buffer := S (length h); byteOffset := 0; byteLength := byteLength pdfData |},
     h ++ [key_bytes data; spec_encrypt data (bytes_of pdfData h)]).
Proof.
  intros Hvalid data. destruct (valid_length _ _ Hvalid) as [Hlen Hbuf].
  unfold encrypt. fold data. unfold mbind at 1, M_bind at 1.
  rewrite generateKey_run. fold data.
  unfold Uint8Array_from, alloc, mbind, M_bind, mret, M_ret.
  rewrite bytes_of_app by done.
  rewrite (for_upto_imap_n (byteLength pdfData) (h ++ [key_bytes data])
             (bytes_of pdfData h) _
             (λ i x, u8 (Z.lxor (code x) (spec_key data (i mod 256))))).
  - rewrite <- app_assoc. cbn. do 3 f_equal. rewrite length_app. cbn. lia.
  - done.
  - intros i x cur' Hi Hx.
    pose proof (lookup_lt_Some _ _ _ Hx) as Hi'.
    rewrite get_last by done. rewrite Hx.
    cbn [byteLength]. unfold index_mod. rewrite bool_decide_false by done.
    cbn [from_option]. rewrite get_middle by (unfold key_bytes; by rewrite length_imap, length_replicate).
    rewrite key_bytes_lookup;
      [| apply password_of_nonempty | by apply Nat.mod_upper_bound].
    rewrite put_last by done. cbn [from_option]. unfold xor. cbn [from_option].
    rewrite code_u8, (Z.mod_small _ 256) by apply spec_key_range.
    done.
Qed.

Lemma spec_encrypt_lookup (pw input : list byte) (i : nat) (x : byte) :
  input !! i = Some x →
  ∃ y, spec_encrypt pw input !! i = Some y
       ∧ code y = Z.lxor (code x) (spec_key pw (i mod 256)).
Proof.
  intros Hx. eexists. unfold spec_encrypt.
  rewrite list_lookup_imap, Hx. split; [done|].
  rewrite code_u8. apply Z.mod_small.
  assert (Ha : code x mod 256 = code x) by apply Z.mod_small, code_range.
  assert (Hb : spec_key pw (i mod 256) mod 256 = spec_key pw (i mod 256))
    by apply Z.mod_small, spec_key_range.
  rewrite <- Ha, <- Hb, <- lxor_mod_256. apply Z.mod_pos_bound. lia.
Qed.

Lemma spec_encrypt_involutive (pw input : list byte) :
  spec_encrypt pw (spec_encrypt pw input) = input.
Proof.
  apply list_eq. intros i. unfold spec_encrypt.
  rewrite !list_lookup_imap.
  destruct (input !! i) as [x|]; cbn; [|done].
  by rewrite u8_xor_xor.
Qed.

Lemma bytes_of_second (h : heap) (a b : list byte) (n : nat) :
  (length b ≤ n)%nat →
  bytes_of {| buffer := S (length h); byteOffset := 0; byteLength := n |} (h ++ [a; b]) = b.
Proof.
  intros Hn. unfold bytes_of. cbn [buffer byteOffset byteLength].
  replace (h ++ [a; b]) with ((h ++ [a]) ++ [b]) by (by rewrite <- app_assoc).
  rewrite list_lookup_total_middle by (rewrite length_app; cbn; lia).
  by rewrite drop_0, take_ge.
Qed.

Lemma encrypt_output_valid (h : heap) (a b : list byte) (n : nat) :
  length b = n →
  valid (h ++ [a; b]) {| buffer := S (length h); byteOffset := 0; byteLength := n |}.
Proof.
  intros Hb. exists b. cbn [buffer byteOffset byteLength]. split; [|lia].
  rewrite lookup_app_r by lia. by replace (S (length h) - length h)%nat with 1%nat by lia.
Qed.

(** C3. On every store and every array of that store, [encrypt] returns a
    fresh array of the same length whose byte [i] is input byte [i] XOR
    [key[i mod 256]], where [key[j]] is
    [passwordBytes[j mod passwordLength] XOR (j * 17 mod 256)] and the
    password is [options.userPassword] when that is a non-empty string and
    ["default"] otherwise; no buffer of the store is written, so the input
    array shows the bytes it showed before. *)
Theorem encrypt_xor_key (pdfData : Uint8Array) (opts : options) (h : heap) :
  valid h pdfData →
  ∃ encrypted h' password,
    encrypt pdfData opts h = (Ok encrypted, h')
    ∧ (∀ p, userPassword opts = Some p → p ≠ ""%string → password = p)
    ∧ (userPassword opts = None ∨ userPassword opts = Some ""%string →
       password = "default"%string)
    ∧ length (bytes_of encrypted h') = length (bytes_of pdfData h)
    ∧ (∀ i x, bytes_of pdfData h !! i = Some x →
         ∃ y, bytes_of encrypted h' !! i = Some y
              ∧ code y = Z.lxor (code x)
                           (spec_key (TextEncoder_encode password) (i mod 256)))
    ∧ (∀ b, (b < length h)%nat → h' !! b = h !! b)
    ∧ bytes_of pdfData h' = bytes_of pdfData h.
Proof.
  intros Hvalid. destruct (valid_length _ _ Hvalid) as [Hlen Hbuf].
  eexists _, _, (password_of opts).
  split; [by apply encrypt_run|].
  assert (Hout : bytes_of
      {| buffer := S (length h); byteOffset := 0; byteLength := byteLength pdfData |}
      (h ++ [key_bytes (TextEncoder_encode (password_of opts));
             spec_encrypt (TextEncoder_encode (password_of opts)) (bytes_of pdfData h)])
      = spec_encrypt (TextEncoder_encode (password_of opts)) (bytes_of pdfData h)).
  { apply bytes_of_second. unfold spec_encrypt. rewrite length_imap. lia. }
  split; [|split; [|split; [|split; [|split]]]].
  - unfold password_of. intros p -> Hp. by destruct (String.eqb_spec p "").
  - unfold password_of. by intros [-> | ->].
  - rewrite Hout. unfold spec_encrypt. by rewrite length_imap.
  - intros i x Hx. rewrite Hout. by apply spec_encrypt_lookup.
  - intros b Hb. by rewrite lookup_app_l.
  - by apply bytes_of_app.
Qed.

(** C9. Encrypting the output of [encrypt] again, under options with the
    same [userPassword], gives an array that shows the bytes of the
    original input. *)
Theorem encrypt_twice_identity (pdfData : Uint8Array) (opts opts' : options) (h : heap) :
  valid h pdfData →
  userPassword opts = userPassword opts' →
  ∃ once h1 twice h2,
    encrypt pdfData opts h = (Ok once, h1)
    ∧ encrypt once opts' h1 = (Ok twice, h2)
    ∧ bytes_of twice h2 = bytes_of pdfData h.
Proof.
  intros Hvalid Hpw. destruct (valid_length _ _ Hvalid) as [Hlen Hbuf].
  assert (Hsame : password_of opts' = password_of opts)
    by (unfold password_of; by rewrite Hpw).
  set (pw := TextEncoder_encode (password_of opts)).
  set (once := {| buffer := S (length h); byteOffset := 0;
                  byteLength := byteLength pdfData |}).
  set (h1 := h ++ [key_bytes pw; spec_encrypt pw (bytes_of pdfData h)]).
  assert (Hvalid1 : valid h1 once).
  { apply encrypt_output_valid. unfold spec_encrypt. by rewrite length_imap. }
  assert (Hbytes1 : bytes_of once h1 = spec_encrypt pw (bytes_of pdfData h)).
  { apply bytes_of_second. unfold spec_encrypt. rewrite length_imap. lia. }
  eexists once, h1, _, _.
  split; [by apply encrypt_run|].
  split; [by apply encrypt_run|].
  rewrite Hsame. fold pw. rewrite Hbytes1, spec_encrypt_involutive.
  apply bytes_of_second. unfold once. cbn [byteLength]. lia.
Qed.

End QPDFEncryption_facts.

(** ** The container of the AES-GCM path *)

Section PDFProtection_facts.
Import JS PDFProtection.
Context {Permissions : Type}.
Context (JSON_stringify : metadata Permissions → result string).
Context (JSON_parse : string → result (metadata Permissions)).

Lemma write_at_fill (off : nat) (pre src : list byte) (k : nat) :
  off = length pre → (length src ≤ k)%nat →
  write_at off src (pre ++ replicate k zero_byte)
  = (pre ++ src) ++ replicate (k - length src) zero_byte.
Proof.
  intros -> Hk. unfold write_at.
  rewrite take_app_length, drop_app_add, drop_replicate.
  by rewrite <- app_assoc.
Qed.

Lemma write_at_fill_0 (src : list byte) (k : nat) :
  (length src ≤ k)%nat →
  write_at 0 src (replicate k zero_byte)
  = src ++ replicate (k - length src) zero_byte.
Proof. intros Hk. by apply (write_at_fill 0 []). Qed.

Lemma set_bytes_last (pre : heap) (cur src : list byte) (n off : nat) :
  (length src + off ≤ n)%nat →
  set_bytes {| buffer := length pre; byteOffset := 0; byteLength := n |} src off
            (pre ++ [cur])
  = (Ok (), pre ++ [write_at off src cur]).
Proof.
  intros Hn. unfold set_bytes. cbn [buffer byteOffset byteLength].
  rewrite bool_decide_true by done.
  by rewrite <- (Nat.add_0_r (length pre)), alter_app_r.
Qed.

Lemma set_last (pre : heap) (cur : list byte) (src : Uint8Array) (n off : nat) :
  (buffer src < length pre)%nat →
  (length (bytes_of src pre) + off ≤ n)%nat →
  set {| buffer := length pre; byteOffset := 0; byteLength := n |} src off
      (pre ++ [cur])
  = (Ok (), pre ++ [write_at off (bytes_of src pre) cur]).
Proof.
  intros Hsrc Hn. unfold set. rewrite bytes_of_app by done.
  by apply set_bytes_last.
Qed.

Lemma setUint32_le_last (pre : heap) (cur : list byte) (off : nat) (v : Z) :
  (off + 4 ≤ length cur)%nat →
  setUint32_le (length pre) off v (pre ++ [cur])
  = (Ok (), pre ++ [write_at off (le32 v) cur]).
Proof.
  intros Hn. unfold setUint32_le.
  rewrite list_lookup_total_middle by done.
  rewrite bool_decide_true by done.
  by rewrite <- (Nat.add_0_r (length pre)), alter_app_r.
Qed.

Lemma of_le_le32 (v : Z) : 0 ≤ v < 2 ^ 32 → of_le (le32 v) = v.
Proof.
  intros Hv. unfold of_le, le32. cbn [foldr]. rewrite !code_u8.
  change (2 ^ 8) with 256. change (2 ^ 16) with 65536.
  change (2 ^ 24) with 16777216. change (2 ^ 32) with 4294967296 in Hv.
  cbn [foldr]. Z.div_mod_to_equations. lia.
Qed.

Lemma createEncryptedContainer_run (now : string)
    (encryptedData salt iv : Uint8Array) (opts : options Permissions)
    (metadataStr : string) (h : heap) :
  valid h encryptedData → valid h salt → valid h iv →
  JSON_stringify (metadata_of now opts) = Ok metadataStr →
  let metadataBytes := TextEncoder_encode metadataStr in
  let n := (4 + length metadataBytes + byteLength salt + byteLength iv
            + byteLength encryptedData)%nat in
  createEncryptedContainer JSON_stringify now encryptedData salt iv opts h
  = (Ok {| buffer := length h; byteOffset := 0; byteLength := n |},
     h ++ [layout metadataBytes (bytes_of salt h) (bytes_of iv h)
                  (bytes_of encryptedData h)]).
Proof.
  intros He Hs Hi Hjson metadataBytes n.
  destruct (valid_length _ _ He) as [Hle Hbe].
  destruct (valid_length _ _ Hs) as [Hls Hbs].
  destruct (valid_length _ _ Hi) as [Hli Hbi].
  unfold createEncryptedContainer. rewrite Hjson. subst n metadataBytes.
  set (meta := TextEncoder_encode metadataStr).
  unfold lift, Uint8Array_new, alloc, mbind, M_bind, mret, M_ret.
  cbn [buffer].
  assert (H4 : ∀ v, length (le32 v) = 4%nat) by done.
  rewrite setUint32_le_last by (rewrite length_replicate; lia).
  rewrite write_at_fill_0 by (rewrite H4; lia).
  rewrite (set_bytes_last h) by lia.
  rewrite write_at_fill by (rewrite ?length_app, ?H4; cbn; lia).
  rewrite (set_last h) by (rewrite ?Hls; lia).
  rewrite write_at_fill by (rewrite ?length_app, ?H4, ?Hls; cbn; lia).
  rewrite (set_last h) by (rewrite ?Hli; lia).
  rewrite write_at_fill by (rewrite ?length_app, ?H4, ?Hls, ?Hli; cbn; lia).
  rewrite (set_last h) by (rewrite ?Hle; lia).
  rewrite write_at_fill by (rewrite ?length_app, ?H4, ?Hls, ?Hli, ?Hle; cbn; lia).
  do 3 f_equal. unfold layout.
  replace (_ - _)%nat with 0%nat by (rewrite ?H4, ?Hls, ?Hli, ?Hle; lia).
  cbn [replicate]. by rewrite app_nil_r, <- !app_assoc.
Qed.

Lemma decode_encode (s : string) :
  opens_with_brace s → TextDecoder_decode (TextEncoder_encode s) = s.
Proof.
  intros [rest ->]. unfold TextDecoder_decode, TextEncoder_encode.
  rewrite <- (string_of_list_byte_of_string (String "{" rest)) at 2.
  f_equal. cbn. by repeat case_match.
Qed.

Lemma Uint8Array_on_last (pre : heap) (cur : list byte) (off n : nat) :
  (off + n ≤ length cur)%nat →
  Uint8Array_on (length pre) off (Some n) (pre ++ [cur])
  = (Ok {| buffer := length pre; byteOffset := off; byteLength := n |}, pre ++ [cur]).
Proof.
  intros Hn. unfold Uint8Array_on.
  rewrite list_lookup_total_middle by done. by rewrite bool_decide_true.
Qed.

Lemma Uint8Array_on_last_rest (pre : heap) (cur : list byte) (off : nat) :
  (off ≤ length cur)%nat →
  Uint8Array_on (length pre) off None (pre ++ [cur])
  = (Ok {| buffer := length pre; byteOffset := off;
           byteLength := length cur - off |}, pre ++ [cur]).
Proof.
  intros Hn. unfold Uint8Array_on.
  rewrite list_lookup_total_middle by done. by rewrite bool_decide_true.
Qed.

Lemma bytes_of_window (pre : heap) (a b c : list byte) :
  bytes_of {| buffer := length pre; byteOffset := length a; byteLength := length b |}
           (pre ++ [a ++ b ++ c]) = b.
Proof.
  unfold bytes_of. cbn [buffer byteOffset byteLength].
  rewrite list_lookup_total_middle by done.
  by rewrite drop_app_length, take_app_length.
Qed.

Lemma bytes_of_window_eq (pre : heap) (content a b c : list byte) (off n : nat) :
  content = a ++ b ++ c → off = length a → n = length b →
  bytes_of {| buffer := length pre; byteOffset := off; byteLength := n |}
           (pre ++ [content]) = b.
Proof. intros -> -> ->. apply bytes_of_window. Qed.

Lemma parseEncryptedContainer_run (h : heap) (n : nat)
    (metadataStr : string) (md : metadata Permissions)
    (salt iv ciphertext : list byte) :
  let metadataBytes := TextEncoder_encode metadataStr in
  let m := length metadataBytes in
  Z.of_nat m < 2 ^ 32 →
  length salt = 16%nat → length iv = 12%nat →
  opens_with_brace metadataStr →
  JSON_parse metadataStr = Ok md →
  parseEncryptedContainer JSON_parse
    {| buffer := length h; byteOffset := 0; byteLength := n |}
    (h ++ [layout metadataBytes salt iv ciphertext])
  = (Ok {| p_metadata := md;
           p_salt := {| buffer := length h; byteOffset := 4 + m; byteLength := 16 |};
           p_iv := {| buffer := length h; byteOffset := 4 + m + 16; byteLength := 12 |};
           p_encryptedData :=
             {| buffer := length h; byteOffset := 4 + m + 16 + 12;
                byteLength := length ciphertext |} |},
     h ++ [layout metadataBytes salt iv ciphertext]).
Proof.
  intros metadataBytes m Hm Hs Hi Hbrace Hparse.
  assert (H4 : ∀ v, length (le32 v) = 4%nat) by done.
  assert (Hlen : length (layout metadataBytes salt iv ciphertext)
                 = (4 + m + 16 + 12 + length ciphertext)%nat).
  { unfold layout. rewrite !length_app, H4, Hs, Hi. fold m. lia. }
  unfold parseEncryptedContainer. cbn [buffer].
  unfold mbind at 1, M_bind at 1.
  unfold getUint32_le. rewrite list_lookup_total_middle by done.
  rewrite bool_decide_true by lia.
  replace (of_le _) with (Z.of_nat m).
  2:{ unfold layout. rewrite drop_0.
      rewrite <- (H4 (Z.of_nat (length metadataBytes))) at 1.
      rewrite take_app_length. rewrite of_le_le32; [done | lia]. }
  rewrite Nat2Z.id.
  unfold mbind at 1, M_bind at 1. rewrite Uint8Array_on_last by lia.
  unfold mbind at 1, M_bind at 1.
  replace (bytes_of _ _) with metadataBytes.
  2:{ symmetry. unfold layout.
      apply (bytes_of_window h (le32 _) metadataBytes). }
  unfold metadataBytes at 1. rewrite decode_encode by done.
  unfold mbind at 1, M_bind at 1, lift. rewrite Hparse.
  unfold mbind at 1, M_bind at 1. rewrite Uint8Array_on_last by lia.
  unfold mbind at 1, M_bind at 1. rewrite Uint8Array_on_last by lia.
  unfold mbind at 1, M_bind at 1. rewrite Uint8Array_on_last_rest by lia.
  unfold mret, M_ret. do 3 f_equal; f_equal; lia.
Qed.

(** C1. Given the ciphertext, a 16-byte salt and a 12-byte IV,
    [createEncryptedContainer] returns a fresh array that shows: the length
    of the JSON text of the metadata as a 4-byte little-endian unsigned
    integer, the bytes of that text, the 16 salt bytes, the 12 IV bytes and
    the ciphertext; its length is 4 + metadataLength + 16 + 12 +
    ciphertextLength.  The JSON text is shorter than 2^32 bytes, as every
    text the platform can produce is. *)
Theorem createEncryptedContainer_layout (now : string)
    (encryptedData salt iv : Uint8Array) (opts : options Permissions)
    (metadataStr : string) (h : heap) :
  valid h encryptedData → valid h salt → valid h iv →
  byteLength salt = 16%nat → byteLength iv = 12%nat →
  JSON_stringify (metadata_of now opts) = Ok metadataStr →
  Z.of_nat (length (TextEncoder_encode metadataStr)) < 2 ^ 32 →
  ∃ container h',
    createEncryptedContainer JSON_stringify now encryptedData salt iv opts h
    = (Ok container, h')
    ∧ let metadataBytes := TextEncoder_encode metadataStr in
      let bytes := bytes_of container h' in
      of_le (take 4 bytes) = Z.of_nat (length metadataBytes)
      ∧ bytes = take 4 bytes ++ metadataBytes ++ bytes_of salt h
                ++ bytes_of iv h ++ bytes_of encryptedData h
      ∧ length (bytes_of salt h) = 16%nat
      ∧ length (bytes_of iv h) = 12%nat
      ∧ length bytes = (4 + length metadataBytes + 16 + 12
                        + length (bytes_of encryptedData h))%nat.
Proof.
  intros He Hs Hi Hs16 Hi12 Hjson Hm.
  destruct (valid_length _ _ He) as [Hle Hbe].
  destruct (valid_length _ _ Hs) as [Hls Hbs].
  destruct (valid_length _ _ Hi) as [Hli Hbi].
  eexists _, _. split; [by apply createEncryptedContainer_run|].
  assert (H4 : ∀ v, length (le32 v) = 4%nat) by done.
  assert (Hlen : length (layout (TextEncoder_encode metadataStr) (bytes_of salt h)
                                (bytes_of iv h) (bytes_of encryptedData h))
                 = (4 + length (TextEncoder_encode metadataStr) + 16 + 12
                    + length (bytes_of encryptedData h))%nat).
  { unfold layout. rewrite !length_app, H4. lia. }
  cbn zeta. rewrite bytes_of_last by (rewrite Hlen; lia).
  assert (Htake : take 4 (layout (TextEncoder_encode metadataStr) (bytes_of salt h)
                                 (bytes_of iv h) (bytes_of encryptedData h))
                  = le32 (Z.of_nat (length (TextEncoder_encode metadataStr)))).
  { unfold layout.
    rewrite <- (H4 (Z.of_nat (length (TextEncoder_encode metadataStr)))) at 1.
    by rewrite take_app_length. }
  rewrite Htake. repeat split; try lia; try done.
  apply of_le_le32. lia.
Qed.

(** C2. When the JSON text of the metadata parses back to the metadata,
    [parseEncryptedContainer] applied to the container made by
    [createEncryptedContainer] returns that metadata and three arrays that
    show the bytes of the original salt, IV and ciphertext. *)
Theorem parse_create_roundtrip (now : string)
    (encryptedData salt iv : Uint8Array) (opts : options Permissions)
    (metadataStr : string) (h : heap) :
  valid h encryptedData → valid h salt → valid h iv →
  byteLength salt = 16%nat → byteLength iv = 12%nat →
  JSON_stringify (metadata_of now opts) = Ok metadataStr →
  opens_with_brace metadataStr →
  Z.of_nat (length (TextEncoder_encode metadataStr)) < 2 ^ 32 →
  JSON_parse metadataStr = Ok (metadata_of now opts) →
  ∃ container h' p,
    createEncryptedContainer JSON_stringify now encryptedData salt iv opts h
    = (Ok container, h')
    ∧ parseEncryptedContainer JSON_parse container h' = (Ok p, h')
    ∧ p_metadata p = metadata_of now opts
    ∧ bytes_of (p_salt p) h' = bytes_of salt h
    ∧ bytes_of (p_iv p) h' = bytes_of iv h
    ∧ bytes_of (p_encryptedData p) h' = bytes_of encryptedData h.
Proof.
  intros He Hs Hi Hs16 Hi12 Hjson Hbrace Hm Hparse.
  destruct (valid_length _ _ He) as [Hle Hbe].
  destruct (valid_length _ _ Hs) as [Hls Hbs].
  destruct (valid_length _ _ Hi) as [Hli Hbi].
  eexists _, _, _. split; [by apply createEncryptedContainer_run|].
  split.
  { apply parseEncryptedContainer_run; try done; lia. }
  cbn [p_metadata p_salt p_iv p_encryptedData].
  set (metadataBytes := TextEncoder_encode metadataStr).
  assert (H4 : length (le32 (Z.of_nat (length metadataBytes))) = 4%nat) by done.
  split; [done|]. unfold layout. fold metadataBytes.
  set (prefix := le32 (Z.of_nat (length metadataBytes))) in *.
  split; [|split].
  - apply (bytes_of_window_eq h _ (prefix ++ metadataBytes) _
             (bytes_of iv h ++ bytes_of encryptedData h)).
    + by rewrite <- !app_assoc.
    + rewrite length_app, H4. lia.
    + lia.
  - apply (bytes_of_window_eq h _ (prefix ++ metadataBytes ++ bytes_of salt h) _
             (bytes_of encryptedData h)).
    + by rewrite <- !app_assoc.
    + rewrite !length_app, H4. lia.
    + lia.
  - apply (bytes_of_window_eq h _
             (prefix ++ metadataBytes ++ bytes_of salt h ++ bytes_of iv h) _ []).
    + by rewrite <- !app_assoc, app_nil_r.
    + rewrite !length_app, H4. lia.
    + done.
Qed.

End PDFProtection_facts.



(** ** ghostscript-wasm.js: the loader *)

Section loader_facts.
Import JS GhostscriptWASM.

(** The stretches of a call that is loading keep [isLoading] set, until
    the stretch that ends the call clears it. *)
Lemma resume_loading (how : settled) (cb : callback) (p : place) (o : object) :
  loading p = true → isLoading o = true → isLoaded o = false →
  let '(p', o') := resume how cb p o in
  (loading p' = true ∧ isLoading o' = true ∧ isLoaded o' = false)
  ∨ (loading p' = false ∧ isLoading o' = false).
Proof.
  intros Hp Hl Hd.
  destruct p as [| | |k|r|[[]|e]| |]; try discriminate Hp; cbn;
    unfold loadRealModule_catch, loadMockModule_from;
    repeat case_match; simplify_eq; cbn; tauto.
Qed.

Lemma resume_idle (how : settled) (cb : callback) (p : place) (o : object) :
  loading p = false →
  resume how cb p o
  = (match p with
     | Polling => if isLoading o then Polling else Returned
     | _ => p
     end, o)
  ∧ loading (resume how cb p o).1 = false.
Proof. intros Hp. destruct p; try discriminate Hp; cbn; by repeat case_match. Qed.

Lemma loadModule_outcome (cb : callback) (o : object) :
  let '(p, o') := loadModule cb o in
  (isLoaded o = true ∧ p = Returned ∧ o' = o)
  ∨ (isLoaded o = false ∧ isLoading o = true ∧ p = Polling ∧ o' = o)
  ∨ (isLoaded o = false ∧ isLoading o = false
     ∧ ((loading p = true ∧ isLoading o' = true ∧ isLoaded o' = false)
        ∨ (loading p = false ∧ isLoading o' = false))).
Proof.
  unfold loadModule, loadRealModule_start, loadRealModule_catch, loadMockModule_from.
  destruct o as [g m [] []]; cbn; repeat case_match; simplify_eq; cbn; tauto.
Qed.

Lemma invariant_initial : invariant initial.
Proof. intros j (t & Ht & _). cbn in Ht. by rewrite lookup_nil in Ht. Qed.

Lemma in_progress_snoc_idle (ts : list task) (t : task) (j : nat) :
  loading (at_ t) = false →
  in_progress (ts ++ [t]) j ↔ in_progress ts j.
Proof.
  intros Ht. unfold in_progress. split.
  - intros (t' & [[? ?] | [-> ->]]%lookup_snoc_Some & Hl); [eauto | congruence].
  - intros (t' & Ht' & Hl). exists t'. split; [|done]. by apply lookup_app_l_Some.
Qed.

Lemma in_progress_snoc_loading (ts : list task) (t : task) (j : nat) :
  loading (at_ t) = true → (∀ k, ¬ in_progress ts k) →
  in_progress (ts ++ [t]) j ↔ j = length ts.
Proof.
  intros Ht Hnone. unfold in_progress. split.
  - intros (t' & [[? ?] | [-> ->]]%lookup_snoc_Some & Hl); [|done].
    destruct (Hnone j). by exists t'.
  - intros ->. exists t. split; [|done]. by apply list_lookup_middle.
Qed.

Lemma in_progress_insert_same (ts : list task) (t t' : task) (i j : nat) :
  ts !! i = Some t → loading (at_ t') = loading (at_ t) →
  in_progress (<[i := t']> ts) j ↔ in_progress ts j.
Proof.
  intros Ht Hsame. pose proof (lookup_lt_Some _ _ _ Ht) as Hlt.
  unfold in_progress. destruct (decide (j = i)) as [-> | Hne].
  - rewrite list_lookup_insert_eq by done. rewrite Ht. split.
    + intros (? & [= <-] & Hl). exists t. split; [done | congruence].
    + intros (? & [= <-] & Hl). exists t'. split; [done | congruence].
  - by rewrite list_lookup_insert_ne.
Qed.

Lemma in_progress_insert_idle (ts : list task) (t' : task) (i j : nat) :
  (∀ k, in_progress ts k ↔ k = i) → loading (at_ t') = false →
  ¬ in_progress (<[i := t']> ts) j.
Proof.
  intros Honly Ht' (t & Ht & Hl). destruct (decide (j = i)) as [-> | Hne].
  - destruct (proj2 (Honly i) eq_refl) as (t0 & Ht0 & _).
    pose proof (lookup_lt_Some _ _ _ Ht0).
    rewrite list_lookup_insert_eq in Ht by done. congruence.
  - rewrite list_lookup_insert_ne in Ht by done.
    apply Hne, Honly. by exists t.
Qed.

Lemma invariant_step (sys : system) (e : event) :
  invariant sys → invariant (step sys e).
Proof.
  destruct sys as [o ts]. unfold invariant. cbn [this tasks].
  intros Hinv. destruct e as [cb | i how]; cbn [step this tasks].
  - pose proof (loadModule_outcome cb o) as Hcall.
    destruct (loadModule cb o) as [p o']. cbn [this tasks].
    destruct Hcall as [(Hd & -> & ->) | [(Hd & Hl & -> & ->) | (Hd & Hl & Hp)]].
    + destruct (isLoading o).
      * destruct Hinv as [? _]. congruence.
      * intros j. by rewrite in_progress_snoc_idle.
    + rewrite Hl in *. destruct Hinv as [_ [i Hi]]. split; [done|].
      exists i. intros j. by rewrite in_progress_snoc_idle.
    + rewrite Hl in Hinv.
      destruct Hp as [(Hp & -> & Hd') | (Hp & ->)].
      * split; [done|]. exists (length ts). intros j.
        by apply in_progress_snoc_loading.
      * intros j. by rewrite in_progress_snoc_idle.
  - destruct (ts !! i) as [t|] eqn:Ht; [|done].
    destruct (loading (at_ t)) eqn:Hloading.
    + destruct (isLoading o) eqn:Hl.
      2:{ destruct (Hinv i). by exists t. }
      destruct Hinv as [Hd [i' Hi']].
      assert (i = i') as <- by (apply Hi'; by exists t).
      pose proof (resume_loading how (progressCallback t) (at_ t) o
                    Hloading Hl Hd) as Hres.
      destruct (resume how (progressCallback t) (at_ t) o) as [p o'].
      cbn [this tasks].
      destruct Hres as [(Hp & -> & Hd') | (Hp & ->)].
      * split; [done|]. exists i. intros j.
        rewrite (in_progress_insert_same ts t); [done | done | cbn; congruence].
      * intros j. by apply in_progress_insert_idle.
    + destruct (resume_idle how (progressCallback t) (at_ t) o Hloading) as [Hres Hp].
      destruct (resume how (progressCallback t) (at_ t) o) as [p o'].
      cbn in Hp. injection Hres as _ ->. cbn [this tasks].
      assert (Hsame : ∀ j,
        in_progress (<[i := {| progressCallback := progressCallback t; at_ := p |}]> ts) j
        ↔ in_progress ts j).
      { intros j. apply (in_progress_insert_same ts t); [done | cbn; congruence]. }
      destruct (isLoading o).
      * destruct Hinv as [Hd [i' Hi']]. split; [done|]. exists i'.
        intros j. by rewrite Hsame.
      * intros j. by rewrite Hsame.
Qed.

Lemma invariant_run (es : list event) : ∀ sys, invariant sys → invariant (run sys es).
Proof.
  induction es as [|e es IH]; intros sys Hsys; [done|].
  cbn. apply IH. by apply invariant_step.
Qed.

(** C6. In every state the calls of [loadModule] can reach, at most one
    call is loading (two loading calls are the same call), and [isLoading]
    is set exactly while some call is loading; a call made
    while [isLoaded] is set returns at once and leaves the object alone; a
    call made while [isLoading] is set starts polling and leaves the object
    alone; and a polling call, when resumed, polls again while [isLoading]
    is set and returns once it is clear, without writing the object. *)
Theorem loadModule_one_load_at_a_time (es : list event) :
  let sys := run initial es in
  (∀ i j, in_progress (tasks sys) i → in_progress (tasks sys) j → i = j)
  ∧ (isLoading (this sys) = true ↔ ∃ i, in_progress (tasks sys) i)
  ∧ (∀ cb, isLoaded (this sys) = true →
       step sys (Call cb)
       = {| this := this sys;
            tasks := tasks sys ++ [{| progressCallback := cb; at_ := Returned |}] |})
  ∧ (∀ cb, isLoading (this sys) = true →
       step sys (Call cb)
       = {| this := this sys;
            tasks := tasks sys ++ [{| progressCallback := cb; at_ := Polling |}] |})
  ∧ (∀ i t how, tasks sys !! i = Some t → at_ t = Polling →
       step sys (Resume i how)
       = {| this := this sys;
            tasks := <[i := {| progressCallback := progressCallback t;
                               at_ := if isLoading (this sys) then Polling
                                      else Returned |}]> (tasks sys) |}).
Proof.
  intros sys.
  assert (Hinv : invariant sys) by apply invariant_run, invariant_initial.
  unfold invariant in Hinv. split; [|split; [|split; [|split]]].
  - intros i j Hi Hj. destruct (isLoading (this sys)).
    + destruct Hinv as [_ [k Hk]]. apply Hk in Hi, Hj. congruence.
    + by destruct (Hinv i).
  - destruct (isLoading (this sys)).
    + destruct Hinv as [_ [k Hk]]. split; [|done]. intros _. exists k. by apply Hk.
    + split; [done|]. intros [i Hi]. by destruct (Hinv i).
  - intros cb Hd. cbn. unfold loadModule. by rewrite Hd.
  - intros cb Hl. rewrite Hl in Hinv. destruct Hinv as [Hd _].
    cbn. unfold loadModule. by rewrite Hd, Hl.
  - intros i t how Ht Hp. cbn. rewrite Ht, Hp. cbn. by destruct (isLoading (this sys)).
Qed.

Lemma fallback_resume (how : settled) (cb : callback) (p : place) (o : object) (r : nat) :
  quiet cb → fallback_stage p = Some r →
  match r with
  | O => isLoaded o = true ∧ isLoading o = false ∧ module o = true
  | S _ => isLoaded o = false ∧ isLoading o = true ∧ ((r ≤ 2)%nat → module o = true)
  end →
  let '(p', o') := resume how cb p o in
  fallback_stage p' = Some (pred r)
  ∧ gs o' = gs o
  ∧ match pred r with
    | O => isLoaded o' = true ∧ isLoading o' = false ∧ module o' = true
    | S _ => isLoaded o' = false ∧ isLoading o' = true
             ∧ ((pred r ≤ 2)%nat → module o' = true)
    end.
Proof.
  intros Hq Hp Ho.
  destruct p as [| | |k|[[]|e]|[[]|e]| |]; try discriminate Hp;
    unfold fallback_stage in Hp.
  - destruct (Nat.ltb_spec k 5) as [Hk|]; [|discriminate Hp]. injection Hp as <-.
    cbn. unfold loadMockModule_from.
    do 5 (destruct k as [|k];
          [cbn; rewrite ?Hq; cbn in *; intuition (try done; try lia)|]).
    exfalso. lia.
  - injection Hp as <-. destruct Ho as (Hd & Hl & Hm).
    cbn. repeat split; try done. intros _. apply Hm. lia.
  - injection Hp as <-. destruct Ho as (Hd & Hl & Hm).
    cbn. repeat split; try done. apply Hm. lia.
  - injection Hp as <-. by cbn.
Qed.

Lemma falling_back_step (g : bool) (i r : nat) (sys : system) (e : event) :
  falling_back g i r sys →
  falling_back g i (if resumes i e then pred r else r) (step sys e).
Proof.
  destruct sys as [o ts].
  intros (t & Ht & Hq & Hstage & Honly & Hg & Ho). cbn [this tasks] in *.
  pose proof (lookup_lt_Some _ _ _ Ht) as Hlt.
  destruct e as [cb | j how]; cbn [resumes step this tasks].
  - assert (Hcall : loadModule cb o
                    = (if isLoaded o then Returned else Polling, o)).
    { unfold loadModule. destruct r; destruct Ho as (Hd & Hl & _);
        by rewrite Hd, ?Hl. }
    rewrite Hcall. exists t. cbn [this tasks].
    split; [by apply lookup_app_l_Some|].
    repeat (split; [done|]). split; [|done].
    intros k Hk. apply Honly. eapply in_progress_snoc_idle; [|done].
    cbn. by destruct (isLoaded o).
  - destruct (Nat.eqb_spec i j) as [<- | Hne].
    + rewrite Ht.
      pose proof (fallback_resume how (progressCallback t) (at_ t) o r Hq Hstage Ho)
        as Hres.
      destruct (resume how (progressCallback t) (at_ t) o) as [p o'].
      destruct Hres as (Hstage' & Hg' & Ho'). cbn [this tasks].
      eexists. split; [by apply list_lookup_insert_eq|]. cbn.
      repeat (split; [done || congruence|]). split; [|split; [congruence | done]].
      intros k (t' & Ht' & Hl'). destruct (decide (k = i)) as [|Hki]; [done|].
      rewrite list_lookup_insert_ne in Ht' by done. apply Honly. by exists t'.
    + destruct (ts !! j) as [tj|] eqn:Htj; [|by exists t].
      assert (Hidle : loading (at_ tj) = false).
      { destruct (loading (at_ tj)) eqn:Hl; [|done].
        destruct Hne. symmetry. apply Honly. by exists tj. }
      destruct (resume_idle how (progressCallback tj) (at_ tj) o Hidle) as [Hres Hp].
      destruct (resume how (progressCallback tj) (at_ tj) o) as [p o'].
      cbn in Hp. injection Hres as _ ->. cbn [this tasks].
      exists t. cbn [this tasks]. split; [by rewrite list_lookup_insert_ne|].
      repeat (split; [done|]). split; [|done].
      intros k Hk. apply Honly.
      eapply (in_progress_insert_same ts tj); [done | | done]. cbn. congruence.
Qed.

Lemma resumes_of_cons (i : nat) (e : event) (es : list event) :
  resumes_of i (e :: es)
  = ((if resumes i e then 1 else 0) + resumes_of i es)%nat.
Proof.
  unfold resumes_of. rewrite filter_cons.
  destruct (resumes i e); by case_decide.
Qed.

Lemma falling_back_run (g : bool) (i : nat) (es : list event) : ∀ r sys,
  falling_back g i r sys →
  falling_back g i (r - resumes_of i es) (run sys es).
Proof.
  induction es as [|e es IH]; intros r sys H.
  - by rewrite Nat.sub_0_r.
  - apply (falling_back_step g i r sys e) in H. apply IH in H.
    rewrite resumes_of_cons. change (run sys (e :: es)) with (run (step sys e) es).
    destruct (resumes i e).
    + by replace (r - (1 + resumes_of i es))%nat
        with (pred r - resumes_of i es)%nat by lia.
    + done.
Qed.

Lemma falling_back_enter (es0 : list event) (i : nat) (t : task) (how : settled) :
  let sys := run initial es0 in
  tasks sys !! i = Some t →
  quiet (progressCallback t) →
  real_module_fails (at_ t) how →
  falling_back (gs (this sys)) i 7 (step sys (Resume i how)).
Proof.
  intros sys Ht Hq Hfail.
  assert (Hinv : invariant sys) by apply invariant_run, invariant_initial.
  unfold invariant in Hinv.
  assert (Hi : in_progress (tasks sys) i).
  { exists t. split; [done|]. by destruct Hfail as [[-> _] | [-> _]]. }
  destruct (isLoading (this sys)) eqn:Hl; [|by destruct (Hinv i)].
  destruct Hinv as [Hd [k Hk]].
  pose proof (lookup_lt_Some _ _ _ Ht) as Hlt.
  cbn [step]. rewrite Ht.
  assert (Hres : resume how (progressCallback t) (at_ t) (this sys)
                 = (AwaitMockTimer 0, this sys)).
  { destruct Hfail as [[-> [-> | ->]] | [-> ->]]; cbn;
      unfold loadRealModule_catch, loadMockModule_from; cbn; by rewrite ?Hq. }
  rewrite Hres. eexists. cbn [this tasks].
  split; [by apply list_lookup_insert_eq|]. cbn.
  repeat (split; [done|]).
  split; [|split; [done | split; [done | split; [done | intros; lia]]]].
  intros j (t' & Ht' & Hl'). destruct (decide (j = i)) as [|Hji]; [done|].
  rewrite list_lookup_insert_ne in Ht' by done.
  assert (j = k) by (apply Hk; by exists t').
  assert (i = k) by (by apply Hk). congruence.
Qed.

(** C5 (as amended).  Take a call of [loadModule] whose progress callback
    never throws, suspended on the import or on the initialisation of the
    real module, and let that import or initialisation fail.  Then, however
    the later stretches of this and other calls interleave, the call never
    throws and [loadRealModule] never rejects; and once the call has been
    resumed seven more times it has returned, the mock module is installed,
    [isLoaded] is set and [getStatus()] is ["ready"]. *)
Theorem loadRealModule_falls_back (es0 es : list event) (i : nat) (t : task)
    (how : settled) :
  let sys := run initial es0 in
  tasks sys !! i = Some t →
  quiet (progressCallback t) →
  real_module_fails (at_ t) how →
  fallback_succeeds i es sys (run (step sys (Resume i how)) es).
Proof.
  intros sys Ht Hq Hfail.
  pose proof (falling_back_enter es0 i t how Ht Hq Hfail) as Hin.
  apply (falling_back_run _ i es) in Hin. fold sys in Hin.
  destruct Hin as (t' & Ht' & _ & Hstage & _ & Hg & Ho). split.
  - intros t'' Ht'' e. rewrite Ht' in Ht''. injection Ht'' as <-.
    split; intros He; by rewrite He in Hstage.
  - intros Hn. replace (7 - resumes_of i es)%nat with 0%nat in * by lia.
    destruct Ho as (Hd & Hl & Hm).
    split; [|split; [done | split; [done | split; [done|]]]].
    + exists t'. split; [done|].
      destruct (at_ t') as [| | |k|[[]|?]|[[]|?]| |];
        unfold fallback_stage in Hstage; try done.
      destruct (Nat.ltb_spec k 5); [|done]. injection Hstage. lia.
    + unfold getStatus. by rewrite Hl, Hd.
Qed.

End loader_facts.

(** ** ghostscript-wasm.js: the mock compression *)

Section compression_facts.
Import JS GhostscriptWASM.

Lemma getCompressionRatio_named (quality : string) :
  quality ∉ Object_prototype_keys →
  getCompressionRatio quality = Own (spec_ratio quality).
Proof.
  intros Hq. unfold getCompressionRatio, property_or, property, spec_ratio, ratios.
  cbn [assoc].
  destruct (String.eqb_spec quality "screen") as [-> | _]; [done|].
  destruct (String.eqb_spec quality "ebook") as [-> | _]; [done|].
  destruct (String.eqb_spec quality "printer") as [-> | _]; [done|].
  destruct (String.eqb_spec quality "prepress") as [-> | _]; [done|].
  by rewrite bool_decide_false.
Qed.

Lemma write_at_length (pos : nat) (src bs : list byte) :
  (pos + length src ≤ length bs)%nat → length (write_at pos src bs) = length bs.
Proof.
  intros H. unfold write_at. rewrite !length_app, length_take, length_drop. lia.
Qed.

(** The simulated data has the floor of the product as its length (no
    byte at all when the product is [NaN]). *)
Lemma simulateCompression_length (pdfData : list byte) (ratio : member spec_float) :
  length (simulateCompression pdfData ratio)
  = Z.to_nat (default 0 (Math_floor (times (length pdfData) ratio))).
Proof.
  unfold simulateCompression.
  destruct (Math_floor (times (length pdfData) ratio)) as [t|]; cbn [default].
  - assert (Hkept : ∀ hd : list byte,
      length (write_at 0 (take (Nat.min (length hd) (Z.to_nat (t / 2))) hd)
                       (replicate (Z.to_nat t) zero_byte)) = Z.to_nat t).
    { intros hd. rewrite write_at_length; rewrite ?length_replicate; [done|].
      rewrite length_take.
      assert (Z.to_nat (t / 2) ≤ Z.to_nat t)%nat; [|lia].
      destruct (Z.le_gt_cases 0 t).
      - apply Z2Nat.inj_le; [|lia|]; Z.div_mod_to_equations; lia.
      - assert (t / 2 < 0) by (Z.div_mod_to_equations; lia). lia. }
    case_bool_decide; [|apply Hkept].
    rewrite write_at_length; [apply Hkept|]. rewrite Hkept. lia.
  - by rewrite write_at_length.
Qed.

(** For every quality that is not the name of a member of
    [Object.prototype], the mock compression behaves as claimed: the data
    has [floor(byteLength * r)] bytes, in binary64 arithmetic, for the ratio
    [r] claimed, and [reduction] is [toFixed(1)] of the expression of the
    source. *)
Lemma mockCompression_named_quality (pdfData : list byte) (quality : string) :
  quality ∉ Object_prototype_keys →
  let result := mockCompression pdfData quality in
  length (data result)
  = Z.to_nat (default 0 (Math_floor
      (b64_mul (b64_of_Z (Z.of_nat (length pdfData))) (spec_ratio quality))))
  ∧ reduction result
    = toFixed1 (b64_mul
        (b64_sub (b64_of_Z 1)
           (b64_div (b64_of_Z (Z.of_nat (length (data result))))
                    (b64_of_Z (Z.of_nat (length pdfData)))))
        (b64_of_Z 100)).
Proof.
  intros Hq result. split; [|done].
  unfold result, mockCompression. cbn [data].
  by rewrite simulateCompression_length, getCompressionRatio_named.
Qed.

(** Binary64 products round: 90 bytes at ['printer'] give 62 bytes, where
    90 * 7 / 10 is 63. *)
Remark mockCompression_printer_90 :
  length (data (mockCompression (replicate 90 zero_byte) "printer")) = 62%nat
  ∧ reduction (mockCompression (replicate 90 zero_byte) "printer") = "31.1"%string.
Proof. by vm_compute. Qed.

(** C4 (the code at the failing input).  For the quality string
    ["constructor"] the ratio table answers with the member every object
    inherits instead of falling through to the ratio of ['ebook']: the
    product is [NaN], the data of a 10-byte input is empty and the reduction
    reads "100.0", where the claimed length is floor(10 * 0.5) = 5. *)
Theorem mockCompression_inherited_quality :
  let pdfData := list_byte_of_string "%PDF-1.4 %" in
  let result := mockCompression pdfData "constructor" in
  length pdfData = 10%nat
  ∧ getCompressionRatio "constructor" = Inherited
  ∧ data result = []
  ∧ reduction result = "100.0"%string
  ∧ Math_floor (b64_mul (b64_of_Z 10) (spec_ratio "constructor")) = Some 5.
Proof. by vm_compute. Qed.

End compression_facts.

(** ** The statements on sample inputs *)

Section samples.
Import JS.

(** C5 as stated, for every callback, fails: with a progress callback that
    throws when it is told "Using fallback compression..." (progress 50), a
    call suspended on the import, and the import rejected, the [catch] block
    of [loadRealModule] throws in turn, [loadModule] rethrows and the object
    is left not loaded. *)
Lemma loadRealModule_fallback_can_throw :
  let sys := GhostscriptWASM.run GhostscriptWASM.initial
               [GhostscriptWASM.Call Sample.brittle] in
  let es := [GhostscriptWASM.Resume 0 GhostscriptWASM.Fulfilled] in
  let final :=
    GhostscriptWASM.run
      (GhostscriptWASM.step sys (GhostscriptWASM.Resume 0 GhostscriptWASM.Rejected))
      es in
  GhostscriptWASM.tasks sys !! 0%nat
  = Some {| GhostscriptWASM.progressCallback := Sample.brittle;
            GhostscriptWASM.at_ := GhostscriptWASM.AwaitImport |}
  ∧ GhostscriptWASM.real_module_fails GhostscriptWASM.AwaitImport
      GhostscriptWASM.Rejected
  ∧ GhostscriptWASM.tasks final !! 0%nat
    = Some {| GhostscriptWASM.progressCallback := Sample.brittle;
              GhostscriptWASM.at_ :=
                GhostscriptWASM.Threw
                  (Error "Failed to load Ghostscript WASM: callback") |}
  ∧ GhostscriptWASM.getStatus (GhostscriptWASM.this final) = "not-loaded"%string
  ∧ ¬ GhostscriptWASM.fallback_succeeds 0 es sys final.
Proof.
  intros sys es final.
  split; [reflexivity|]. split; [left; split; [reflexivity | by left]|].
  split; [reflexivity|]. split; [reflexivity|].
  intros [Hnever _].
  by destruct (Hnever _ eq_refl (Error "Failed to load Ghostscript WASM: callback"))
    as [Hthrew _].
Qed.

Lemma loadRealModule_falls_back_witness :
  let es0 := [GhostscriptWASM.Call None; GhostscriptWASM.Call None] in
  let es :=
    GhostscriptWASM.Resume 1 GhostscriptWASM.Fulfilled
    :: GhostscriptWASM.Call None
    :: replicate 7 (GhostscriptWASM.Resume 0 GhostscriptWASM.Fulfilled) in
  let sys := GhostscriptWASM.run GhostscriptWASM.initial es0 in
  let final :=
    GhostscriptWASM.run
      (GhostscriptWASM.step sys (GhostscriptWASM.Resume 0 GhostscriptWASM.Rejected)) es in
  GhostscriptWASM.fallback_succeeds 0 es sys final
  ∧ GhostscriptWASM.getStatus (GhostscriptWASM.this final) = "ready"%string.
Proof.
  intros es0 es sys final.
  assert (H : GhostscriptWASM.fallback_succeeds 0 es sys final).
  { apply (loadRealModule_falls_back es0 es 0%nat
             {| GhostscriptWASM.progressCallback := None;
                GhostscriptWASM.at_ := GhostscriptWASM.AwaitImport |}
             GhostscriptWASM.Rejected).
    - reflexivity.
    - intros text progress. reflexivity.
    - left. split; [reflexivity | left; reflexivity]. }
  split; [exact H | reflexivity].
Defined.

Lemma loadModule_one_load_at_a_time_witness :
  let sys := GhostscriptWASM.run GhostscriptWASM.initial [GhostscriptWASM.Call None] in
  GhostscriptWASM.step sys (GhostscriptWASM.Call None)
  = {| GhostscriptWASM.this := GhostscriptWASM.this sys;
       GhostscriptWASM.tasks :=
         GhostscriptWASM.tasks sys
         ++ [{| GhostscriptWASM.progressCallback := None;
                GhostscriptWASM.at_ := GhostscriptWASM.Polling |}] |}.
Proof.
  intros sys.
  apply (proj1 (proj2 (proj2 (proj2
    (loadModule_one_load_at_a_time [GhostscriptWASM.Call None]))))).
  reflexivity.
Defined.

Lemma encrypt_xor_key_witness :
  ∃ encrypted h' password,
    QPDFEncryption.encrypt Sample.pdfData
      {| QPDFEncryption.userPassword := Some "pw"%string |} Sample.pdf_store
    = (Ok encrypted, h')
    ∧ password = "pw"%string
    ∧ bytes_of Sample.pdfData h' = bytes_of Sample.pdfData Sample.pdf_store.
Proof.
  destruct (encrypt_xor_key Sample.pdfData
              {| QPDFEncryption.userPassword := Some "pw"%string |} Sample.pdf_store)
    as (encrypted & h' & password & Hrun & Hpw & _ & _ & _ & _ & Hsame).
  - eexists. split; [reflexivity | cbn; lia].
  - exists encrypted, h', password. split; [exact Hrun|].
    split; [|exact Hsame]. apply Hpw; [reflexivity | discriminate].
Defined.

Lemma encrypt_twice_identity_witness :
  ∃ once h1 twice h2,
    QPDFEncryption.encrypt Sample.pdfData
      {| QPDFEncryption.userPassword := None |} Sample.pdf_store = (Ok once, h1)
    ∧ QPDFEncryption.encrypt once
        {| QPDFEncryption.userPassword := None |} h1 = (Ok twice, h2)
    ∧ bytes_of twice h2 = list_byte_of_string "PDF-1.4 ".
Proof.
  apply (encrypt_twice_identity Sample.pdfData
           {| QPDFEncryption.userPassword := None |}
           {| QPDFEncryption.userPassword := None |} Sample.pdf_store).
  - eexists. split; [reflexivity | cbn; lia].
  - reflexivity.
Defined.

Lemma createEncryptedContainer_layout_witness :
  ∃ container h',
    PDFProtection.createEncryptedContainer Sample.JSON_stringify Sample.now
      Sample.ciphertext Sample.salt Sample.iv Sample.protect_options Sample.store
    = (Ok container, h')
    ∧ length (bytes_of container h') = (4 + 188 + 16 + 12 + 10)%nat.
Proof.
  destruct (createEncryptedContainer_layout Sample.JSON_stringify Sample.now
              Sample.ciphertext Sample.salt Sample.iv Sample.protect_options
              (Sample.print (Sample.to_json
                 (PDFProtection.metadata_of Sample.now Sample.protect_options)))
              Sample.store)
    as (container & h' & Hrun & _ & _ & _ & _ & Hlen).
  - eexists. split; [reflexivity | cbn; lia].
  - eexists. split; [reflexivity | cbn; lia].
  - eexists. split; [reflexivity | cbn; lia].
  - reflexivity.
  - reflexivity.
  - reflexivity.
  - vm_compute. reflexivity.
  - exists container, h'. split; [exact Hrun | exact Hlen].
Defined.

Lemma parse_create_roundtrip_witness :
  ∃ container h' p,
    PDFProtection.createEncryptedContainer Sample.JSON_stringify Sample.now
      Sample.ciphertext Sample.salt Sample.iv Sample.protect_options Sample.store
    = (Ok container, h')
    ∧ PDFProtection.parseEncryptedContainer Sample.JSON_parse container h' = (Ok p, h')
    ∧ PDFProtection.p_metadata p
      = PDFProtection.metadata_of Sample.now Sample.protect_options
    ∧ bytes_of (PDFProtection.p_salt p) h' = bytes_of Sample.salt Sample.store
    ∧ bytes_of (PDFProtection.p_iv p) h' = bytes_of Sample.iv Sample.store
    ∧ bytes_of (PDFProtection.p_encryptedData p) h'
      = bytes_of Sample.ciphertext Sample.store.
Proof.
  apply (parse_create_roundtrip Sample.JSON_stringify Sample.JSON_parse Sample.now
           Sample.ciphertext Sample.salt Sample.iv Sample.protect_options
           (Sample.print (Sample.to_json
              (PDFProtection.metadata_of Sample.now Sample.protect_options)))
           Sample.store).
  - eexists. split; [reflexivity | cbn; lia].
  - eexists. split; [reflexivity | cbn; lia].
  - eexists. split; [reflexivity | cbn; lia].
  - reflexivity.
  - reflexivity.
  - reflexivity.
  - eexists. reflexivity.
  - vm_compute. reflexivity.
  - vm_compute. reflexivity.
Defined.



(** A range that runs out of bounds is clipped, not dropped. *)
Example parsePageRange_clipped :
  PrivPDF.parsePageRange "0-2, 9-12" 10 = [0; 1; 8; 9].
Proof. by vm_compute. Qed.

(** Beyond [JS.MAX_SAFE_INTEGER] the numbers of the platform are not the
    integers.  [parseInt] rounds 9007199254740993 to 2^53; with [maxPage]
    2^53 the code finds [page] = 2^53 - 1 below [maxPage] and pushes it,
    where the part is a number beyond [maxPage] and the integers give
    nothing.  And [i++] at 2^53 gives 2^53 again: a loop that gets there
    stops advancing. *)
Example parsePageRange_beyond_safe_integers :
  let maxPage := JS.b64_of_Z (JS.MAX_SAFE_INTEGER + 1) in
  let page := JS.b64_sub (JS.b64_of_Z (JS.MAX_SAFE_INTEGER + 2)) (JS.b64_of_Z 1) in
  JS.parseInt (list_byte_of_string "9007199254740993") = Some (JS.MAX_SAFE_INTEGER + 2)
  ∧ JS.b64_of_Z (JS.MAX_SAFE_INTEGER + 2) = JS.b64_of_Z (JS.MAX_SAFE_INTEGER + 1)
  ∧ page = JS.b64_of_Z JS.MAX_SAFE_INTEGER
  ∧ SFleb (JS.b64_of_Z 0) page = true
  ∧ SFltb page maxPage = true
  ∧ PrivPDF.part_pages (list_byte_of_string "9007199254740993")
                       (JS.MAX_SAFE_INTEGER + 1) = []
  ∧ JS.b64_add (JS.b64_of_Z (JS.MAX_SAFE_INTEGER + 1)) (JS.b64_of_Z 1)
    = JS.b64_of_Z (JS.MAX_SAFE_INTEGER + 1).
Proof. vm_compute. repeat split. Qed.

Example parsePageRange_sample :
  PrivPDF.parsePageRange "3, 1-2, 9-12, 2-, x, 0x4, 7 - 6, 2" 10 = [0; 1; 2; 3; 8; 9].
Proof. by vm_compute. Qed.

Example encrypt_sample :
  (QPDFEncryption.encrypt Sample.pdfData
     {| QPDFEncryption.userPassword := Some ""%string |} Sample.pdf_store).1
  = Ok {| buffer := 2; byteOffset := 0; byteLength := 8 |}
  ∧ QPDFEncryption.spec_encrypt (list_byte_of_string "default")
      (list_byte_of_string "PDF-1.4 ")
    = [u8 52; u8 48; u8 2; u8 127; u8 0; u8 23; u8 38; u8 51].
Proof. by vm_compute. Qed.

Example mockCompression_sample :
  let result := GhostscriptWASM.mockCompression (replicate 2000 zero_byte) "screen" in
  length (GhostscriptWASM.data result) = 600%nat
  ∧ GhostscriptWASM.reduction result = "70.0"%string
  ∧ GhostscriptWASM.quality result = Own "Screen quality (72 DPI)"%string.
Proof. by vm_compute. Qed.

Example ratios_sample :
  map snd GhostscriptWASM.ratios
  = [S754_finite false 5404319552844595 (-54);
     S754_finite false 4503599627370496 (-53);
     S754_finite false 6305039478318694 (-53);
     S754_finite false 7656119366529843 (-53)].
Proof. by vm_compute. Qed.

End samples.

(** * More of the code

    The statements that follow cover the operations around those above:
    the page operations of [privpdf.js], the recogniser and the AES-GCM
    path of [PDFProtection], the key of the stand-in and [encryptPDF],
    the loader and the mock compression of [ghostscript-wasm.js], and the
    single-document viewer. *)

(** ** privpdf.js: page operations *)

Section pages_facts.
Import PrivPDF.
Context {File : Type}.
Implicit Types st : state File.

Lemma map_shift_seqZ (f : Z → Z) (k m n : Z) :
  (∀ x, f x = k + x) → map f (seqZ m n) = seqZ (k + m) n.
Proof.
  intros Hf. rewrite <- fmap_add_seqZ.
  change (Z.add k <$> seqZ m n) with (map (Z.add k) (seqZ m n)).
  by apply map_ext.
Qed.

Lemma Array_from_affine (f : Z → Z) (k n : Z) :
  (∀ x, f x = k + x) → JS.Array_from (Some n) f = seqZ k n.
Proof.
  intros Hf. unfold JS.Array_from. cbn.
  rewrite (map_shift_seqZ _ k) by done. by rewrite Z.add_0_r.
Qed.

Lemma Array_from_shift (n i : Z) :
  JS.Array_from (Some n) (λ idx, i + idx) = seqZ i n.
Proof. by apply Array_from_affine. Qed.

Lemma chunks_partition (p totalPages : Z) (fuel : nat) : ∀ i,
  0 < p → 0 ≤ i → totalPages - i ≤ Z.of_nat fuel →
  let files := chunks fuel (Some i) (Some p) totalPages in
  concat (map indices files) = seqZ i (totalPages - i)
  ∧ Forall (λ f, 0 < Z.of_nat (length (indices f)) ≤ p) files
  ∧ Z.of_nat (length files) = (Z.max 0 (totalPages - i) + p - 1) / p.
Proof.
  induction fuel as [|fuel IH]; intros i Hp Hi Hfuel.
  - cbn. rewrite seqZ_nil by lia. split; [done|]. split; [constructor|].
    symmetry. apply Z.div_small. lia.
  - cbn [chunks]. unfold JS.num_lt.
    destruct (Z.ltb_spec i totalPages) as [Hlt|Hge].
    + cbn [JS.num_add JS.Math_min JS.num_sub mbind option_bind default].
      rewrite Array_from_shift.
      destruct (IH (i + p)) as (Hcat & Hall & Hlen); [lia..|].
      cbn [map concat indices length].
      split; [|split].
      * rewrite Hcat.
        destruct (Z.le_gt_cases (i + p) totalPages).
        -- rewrite Z.min_l by lia.
           replace (totalPages - i) with (p + (totalPages - (i + p))) by lia.
           rewrite seqZ_app by lia. do 2 f_equal; lia.
        -- rewrite Z.min_r by lia. rewrite (seqZ_nil (i + p)) by lia.
           by rewrite app_nil_r.
      * constructor; [|done]. cbn [indices]. rewrite length_seqZ. lia.
      * rewrite Nat2Z.inj_succ, Hlen.
        destruct (Z.le_gt_cases (i + p) totalPages).
        -- rewrite !Z.max_r by lia.
           replace (totalPages - i + p - 1) with ((totalPages - (i + p) + p - 1) + 1 * p) by lia.
           rewrite Z.div_add by lia. lia.
        -- rewrite Z.max_l, Z.max_r by lia.
           rewrite (Z.div_small (0 + p - 1)) by lia.
           apply (Z.div_unique _ _ _ (totalPages - i - 1)); lia.
    + rewrite seqZ_nil by lia. split; [done|]. split; [constructor|].
      cbn. symmetry. apply Z.div_small. lia.
Qed.

(** X1. [splitPDF], method ['pages']: when the field holds a number [p]
    with 1 <= p <= totalPages, the files handed over hold, in order and
    without a gap or a repetition, the page indices 0 .. totalPages - 1;
    every file holds between 1 and [p] pages, and there are
    ceil(totalPages / p) files. *)
Theorem splitPDF_pages_partition (input : string) (p totalPages : Z) :
  JS.parseInt (list_byte_of_string input) = Some p →
  0 < p ≤ totalPages →
  ∃ files toast,
    splitPDF_pages input totalPages = Done files toast
    ∧ concat (map indices files) = seqZ 0 totalPages
    ∧ Forall (λ f, 0 < Z.of_nat (length (indices f)) ≤ p) files
    ∧ Z.of_nat (length files) = (totalPages + p - 1) / p.
Proof.
  intros Hparse Hp. unfold splitPDF_pages. rewrite Hparse.
  unfold JS.num_le, JS.num_gt, JS.num_lt.
  rewrite (proj2 (Z.leb_gt p 0)), (proj2 (Z.ltb_ge totalPages p)) by lia.
  cbn [orb]. eexists _, _. split; [done|].
  destruct (chunks_partition p totalPages (Z.to_nat totalPages) 0) as (Hcat & Hall & Hlen);
    [lia..|].
  rewrite Z.sub_0_r in Hcat. rewrite Z.sub_0_r, Z.max_r in Hlen by lia.
  done.
Qed.

(** X2. [splitPDF], method ['pages']: a field from which [parseInt] reads
    no number (an empty field, for one) passes the test on the page count,
    because both comparisons with [NaN] are false.  For a document with
    pages, one file without any page index is handed over, under the name
    "pages_1-NaN.pdf", and the toast reports success. *)
Theorem splitPDF_pages_not_a_number (input : string) (totalPages : Z) :
  JS.parseInt (list_byte_of_string input) = None →
  0 < totalPages →
  splitPDF_pages input totalPages
  = Done [{| indices := []; filename := "pages_1-NaN.pdf" |}]
         "Split into 1 files (NaN pages each)!".
Proof.
  intros Hparse Htotal.
  assert (Hchunks : chunks (Z.to_nat totalPages) (Some 0) None totalPages
                    = [{| indices := []; filename := "pages_1-NaN.pdf" |}]).
  { destruct (Z.to_nat totalPages) as [|fuel] eqn:Hfuel; [lia|].
    cbn [chunks]. unfold JS.num_lt at 1.
    rewrite (proj2 (Z.ltb_lt 0 totalPages)) by done.
    assert (Hrest : chunks fuel None None totalPages = []) by (by destruct fuel).
    replace (JS.num_add (Some 0) None) with (@None Z) by done.
    by rewrite Hrest. }
  unfold splitPDF_pages. rewrite Hparse, Hchunks. reflexivity.
Qed.

Lemma splitPDF_range_part_in_bounds (range : list byte) (totalPages : Z) (d : download) :
  splitPDF_range_part range totalPages = Some d →
  ∃ startPage endPage,
    1 ≤ startPage ∧ startPage ≤ endPage ∧ endPage ≤ totalPages
    ∧ indices d = seqZ (startPage - 1) (endPage - startPage + 1)
    ∧ filename d = (if bool_decide (startPage = endPage)
                    then "page_" +:+ pretty startPage +:+ ".pdf"
                    else "pages_" +:+ pretty startPage +:+ "-" +:+ pretty endPage
                         +:+ ".pdf")%string.
Proof.
  unfold splitPDF_range_part.
  destruct (if JS.includes JS.hyphen range then _ else _) as [[s|] [e|]];
    cbn [JS.isNaN orb]; try done.
  unfold JS.num_gt, JS.num_lt.
  destruct (Z.ltb_spec s 1); [done|].
  destruct (Z.ltb_spec totalPages e); [done|].
  destruct (Z.ltb_spec e s); [done|].
  cbn [orb]. intros [= <-]. exists s, e. cbn [indices filename].
  repeat split; try lia.
  - cbn [JS.num_sub JS.num_add mbind option_bind default].
    by rewrite Array_from_shift.
  - cbn [JS.show]. repeat case_bool_decide; simplify_eq; done.
Qed.

Lemma split_with_separator c (l : list byte) :
  JS.includes c l = true → ∃ p q r, JS.split c l = p :: q :: r.
Proof.
  unfold JS.includes. induction l as [|a l IH]; cbn; [done|].
  destruct (JS.chr c a); cbn.
  - intros _. destruct l as [|b l]; cbn; [by eexists _, _, _|].
    destruct (JS.chr c b); [by eexists _, _, _|].
    destruct (JS.split c l); by eexists _, _, _.
  - intros (p & q & r & ->)%IH. by eexists _, _, _.
Qed.

Lemma range_reads_unique range s e s' e' :
  range_reads range s e → range_reads range s' e' → s = s' ∧ e = e'.
Proof.
  intros [Hinc Hs -> | p q r Hsplit Hs He] [Hinc' Hs' -> | p' q' r' Hsplit' Hs' He'].
  - rewrite Hs in Hs'. by injection Hs' as ->.
  - by rewrite (split_without_separator _ _ Hinc) in Hsplit'.
  - by rewrite (split_without_separator _ _ Hinc') in Hsplit.
  - rewrite Hsplit in Hsplit'. injection Hsplit' as <- <- <-.
    rewrite Hs in Hs'. rewrite He in He'. injection Hs' as ->. by injection He' as ->.
Qed.

(** A piece gives a file exactly when it is read as a range inside the
    document, and then the file of that range. *)
Lemma splitPDF_range_part_reads (range : list byte) (totalPages : Z) (d : download) :
  splitPDF_range_part range totalPages = Some d ↔
  ∃ s e, range_reads range s e ∧ 1 ≤ s ∧ s ≤ e ∧ e ≤ totalPages ∧ d = range_file s e.
Proof.
  unfold splitPDF_range_part.
  set (bounds := if JS.includes JS.hyphen range then _ else _).
  assert (Hbounds : ∀ s e, bounds = (Some s, Some e) ↔ range_reads range s e).
  { intros s e. unfold bounds. split.
    - destruct (JS.includes JS.hyphen range) eqn:Hinc.
      + destruct (split_with_separator _ _ Hinc) as (p & q & r & Hsplit).
        rewrite Hsplit. cbn [map lookup list_lookup default].
        intros [= Hs He]. by eapply reads_range.
      + intros [= Hs He]. apply reads_page; [done | done |].
        rewrite Hs in He. by injection He.
    - intros [Hinc Hs -> | p q r Hsplit Hs He].
      + by rewrite Hinc, Hs.
      + rewrite (split_cons_includes _ _ _ _ _ Hsplit), Hsplit.
        cbn [map lookup list_lookup default]. by rewrite Hs, He. }
  clearbody bounds. destruct bounds as [[s|] [e|]].
  - cbn [JS.isNaN orb]. unfold JS.num_gt, JS.num_lt.
    destruct (Z.ltb_spec s 1), (Z.ltb_spec totalPages e), (Z.ltb_spec e s);
      cbn [orb];
      try (split; [done | intros (s' & e' & [= -> ->]%Hbounds & ?); lia]).
    assert (Hfile :
      {| indices :=
           JS.Array_from (JS.num_add (JS.num_sub (Some e) (Some s)) (Some 1))
                         (λ i, default 0 (Some s) - 1 + i);
         filename :=
           if bool_decide (Some s = Some e)
           then "page_" +:+ JS.show (Some s) +:+ ".pdf"
           else "pages_" +:+ JS.show (Some s) +:+ "-" +:+ JS.show (Some e)
                +:+ ".pdf" |} = range_file s e).
    { unfold range_file. f_equal.
      - cbn [JS.num_sub JS.num_add mbind option_bind default].
        by rewrite Array_from_shift.
      - cbn [JS.show]. repeat case_bool_decide; simplify_eq; done. }
    rewrite Hfile. split.
    + intros [= <-]. exists s, e. split; [by apply Hbounds|]. lia || (repeat split; lia).
    + intros (s' & e' & [= -> ->]%Hbounds & _ & _ & _ & ->). done.
  - split; [done|]. by intros (s' & e' & ?%Hbounds & _).
  - split; [done|]. by intros (s' & e' & ?%Hbounds & _).
  - split; [done|]. by intros (s' & e' & ?%Hbounds & _).
Qed.

Lemma omap_files_of_ranges (totalPages : Z) (ranges : list (list byte)) :
  files_of_ranges totalPages ranges
    (omap (λ range, splitPDF_range_part range totalPages) ranges).
Proof.
  induction ranges as [|range ranges IH]; [constructor|].
  cbn [omap list_omap]. fold (omap (λ range, splitPDF_range_part range totalPages) ranges).
  destruct (splitPDF_range_part range totalPages) as [d|] eqn:Hpart.
  - apply splitPDF_range_part_reads in Hpart as (s & e & Hreads & H1 & H2 & H3 & ->).
    by apply range_in_document.
  - apply range_skipped; [|done].
    intros s e Hreads.
    destruct (decide (1 ≤ s ∧ s ≤ e ∧ e ≤ totalPages)) as [(H1 & H2 & H3)|]; [|lia].
    assert (Hsome : splitPDF_range_part range totalPages = Some (range_file s e)).
    { apply splitPDF_range_part_reads. by exists s, e. }
    by rewrite Hpart in Hsome.
Qed.

(** X3. [splitPDF], method ['range']: whenever files are produced there
    is at least one, and every file holds the consecutive indices
    startPage - 1 .. endPage - 1 of a range with
    1 <= startPage <= endPage <= totalPages and is named after that range.
    The files follow the range text: in its order, one file for each
    comma-separated piece that is read as a range inside the document and
    none for any other piece.  A piece whose range ends after the last page
    gives no file: it is skipped, not clipped.  The toast counts the
    files. *)
Theorem splitPDF_range_in_bounds (rangeInput : string) (totalPages : Z)
    (files : list download) (toast : string) :
  splitPDF_range rangeInput totalPages = Done files toast →
  files ≠ []
  ∧ Forall (λ f, ∃ startPage endPage,
              1 ≤ startPage ∧ startPage ≤ endPage ∧ endPage ≤ totalPages
              ∧ indices f = seqZ (startPage - 1) (endPage - startPage + 1)
              ∧ filename f = (if bool_decide (startPage = endPage)
                              then "page_" +:+ pretty startPage +:+ ".pdf"
                              else "pages_" +:+ pretty startPage +:+ "-"
                                   +:+ pretty endPage +:+ ".pdf")%string)
           files
  ∧ files_of_ranges totalPages
      (map JS.trim (JS.split JS.comma (list_byte_of_string rangeInput))) files
  ∧ (∀ range startPage endPage,
       range_reads range startPage endPage →
       totalPages < endPage →
       splitPDF_range_part range totalPages = None)
  ∧ toast = ("Split into " +:+ pretty (length files) +:+ " files based on ranges!")%string.
Proof.
  unfold splitPDF_range. case_bool_decide; [done|]. case_bool_decide as Hlen; [|done].
  intros [= <- <-]. split; [|split; [|split; [|split]]].
  - intros Hnil. rewrite Hnil in Hlen. cbn in Hlen. lia.
  - apply Forall_forall. intros d Hd.
    apply list_elem_of_omap in Hd as (range & _ & Hd).
    by eapply splitPDF_range_part_in_bounds.
  - apply omap_files_of_ranges.
  - intros range s e Hreads Hout.
    destruct (splitPDF_range_part range totalPages) as [d|] eqn:Hpart; [|done].
    apply splitPDF_range_part_reads in Hpart as (s' & e' & Hreads' & _ & _ & He' & _).
    destruct (range_reads_unique _ _ _ _ _ Hreads Hreads') as [_ <-]. lia.
  - reflexivity.
Qed.

(** X4. [extractPages]: the indices handed to [copyPages] are strictly
    increasing; they are the selected page numbers less one, as many as
    pages are selected, in whatever order they were selected.  The
    operation is refused exactly when no page is selected. *)
Theorem extractPages_sorted st :
  match extractPages st with
  | Done files toast =>
    ∃ selectedIndices,
      files = [{| indices := selectedIndices; filename := "extracted_pages.pdf" |}]
      ∧ StronglySorted Z.lt selectedIndices
      ∧ (∀ i, i ∈ selectedIndices ↔ i + 1 ∈ selectedPages st)
      ∧ length selectedIndices = size (selectedPages st)
      ∧ selectedPages st ≠ ∅
  | Refused _ => selectedPages st = ∅
  end.
Proof.
  unfold extractPages.
  set (l := map (λ p, p - 1) (elements (selectedPages st))).
  assert (Hlen : length (JS.sort_ascending l) = size (selectedPages st)).
  { unfold JS.sort_ascending. rewrite merge_sort_Permutation.
    unfold l. by rewrite length_map. }
  case_bool_decide as Hempty.
  - apply leibniz_equiv, size_empty_inv. lia.
  - eexists. split; [done|]. split; [|split; [|split; [done|]]].
    3:{ intros Hnone. rewrite Hnone, size_empty in Hlen. lia. }
    + apply sort_ascending_sorted. unfold l.
      assert (Inj (=) (=) (λ p : Z, p - 1)) by (intros x y; lia).
      apply (NoDup_fmap_2 (λ p, p - 1)), NoDup_elements.
    + intros i. rewrite sort_ascending_elem_of. unfold l.
      change (map ?f ?l) with (f <$> l). rewrite list_elem_of_fmap. split.
      * intros (p & -> & Hp). apply elem_of_elements in Hp.
        by replace (p - 1 + 1) with p by lia.
      * intros Hi. exists (i + 1). split; [lia|]. by apply elem_of_elements.
Qed.

Lemma StronglySorted_filter {A} (R : relation A) (P : A → Prop)
    `{∀ x, Decision (P x)} (l : list A) :
  StronglySorted R l → StronglySorted R (filter P l).
Proof.
  induction 1 as [|x l Hl IH Hx]; [constructor|].
  rewrite filter_cons. case_decide; [|done].
  constructor; [done|]. apply Forall_forall. intros y Hy.
  apply list_elem_of_filter in Hy as [_ Hy].
  revert y Hy. by apply Forall_forall.
Qed.

Lemma seqZ_sorted (m n : Z) : StronglySorted Z.lt (seqZ m n).
Proof.
  destruct (Z.le_gt_cases n 0) as [Hn|Hn]; [rewrite seqZ_nil by done; constructor|].
  rewrite <- (Z2Nat.id n) by lia. clear Hn. revert m.
  induction (Z.to_nat n) as [|k IH]; intros m; [constructor|].
  rewrite seqZ_cons by lia. constructor.
  - replace (Z.pred (Z.of_nat (S k))) with (Z.of_nat k) by lia. apply IH.
  - apply Forall_forall. intros y Hy. apply elem_of_seqZ in Hy. lia.
Qed.

Lemma StronglySorted_lt_NoDup (l : list Z) : StronglySorted Z.lt l → NoDup l.
Proof.
  induction 1 as [|x l Hl IH Hx]; constructor; [|done].
  intros Hin. assert (x < x); [|lia]. revert x Hin Hx.
  intros x Hin Hx. by eapply Forall_forall in Hx.
Qed.

Lemma sorted_lt_unique (l1 l2 : list Z) :
  StronglySorted Z.lt l1 → StronglySorted Z.lt l2 →
  (∀ x, x ∈ l1 ↔ x ∈ l2) → l1 = l2.
Proof.
  intros H1 H2 Hel. apply (StronglySorted_unique_strong Z.lt); [|done..|].
  - intros; lia.
  - apply NoDup_Permutation; auto using StronglySorted_lt_NoDup.
Qed.

(** The list [pagesToKeep] of [deletePages]. *)
Lemma pagesToKeep_sorted (pageCount : Z) (selected : gset Z) :
  let pagesToKeep :=
    map (λ i, i - 1) (filter (λ i, i ∉ selected) (seqZ 1 pageCount)) in
  StronglySorted Z.lt pagesToKeep
  ∧ (∀ i, i ∈ pagesToKeep ↔ 0 ≤ i < pageCount ∧ i + 1 ∉ selected).
Proof.
  cbn zeta. split.
  - apply (StronglySorted_fmap _ Z.lt); [intros; lia|].
    apply StronglySorted_filter, seqZ_sorted.
  - intros i. change (map ?f ?l) with (f <$> l). rewrite list_elem_of_fmap. split.
    + intros (p & -> & Hp). apply list_elem_of_filter in Hp as [Hp Hin].
      apply elem_of_seqZ in Hin. replace (p - 1 + 1) with p by lia. split; [lia|done].
    + intros [Hi Hsel]. exists (i + 1). split; [lia|].
      apply list_elem_of_filter. split; [done|]. apply elem_of_seqZ. lia.
Qed.

Lemma pagesToKeep_length (pageCount : Z) (selected : gset Z) :
  0 ≤ pageCount →
  Z.of_nat (length (filter (λ i, i ∉ selected) (seqZ 1 pageCount)))
  + Z.of_nat (size (filter (λ p, 1 ≤ p ≤ pageCount) selected))
  = pageCount.
Proof.
  intros Hn.
  pose proof (filter_app_complement (λ i, i ∉ selected) (seqZ 1 pageCount)) as Hperm.
  apply Permutation_length in Hperm. rewrite length_app, length_seqZ in Hperm.
  assert (Hsize : size (filter (λ p, 1 ≤ p ≤ pageCount) selected)
                  = length (filter (λ i, ¬ (i ∉ selected)) (seqZ 1 pageCount))).
  { unfold size, set_size. cbn. apply Permutation_length, NoDup_Permutation.
    - apply NoDup_elements.
    - apply NoDup_filter, NoDup_seqZ.
    - intros x. rewrite elem_of_elements, elem_of_filter, list_elem_of_filter, elem_of_seqZ.
      split; [intros [? ?]; split; [tauto | lia]|].
      intros [Hx ?]. split; [lia|]. by destruct (decide (x ∈ selected)). }
  rewrite Hsize. lia.
Qed.

(** X5. [deletePages]: the indices kept are strictly increasing and are
    exactly the indices of the document whose page number is not selected;
    with the selected pages that belong to the document they make up the
    page count, while the toast reports the size of the whole selection.
    The operation is refused only when every page of the document is
    selected. *)
Theorem deletePages_keeps_unselected (pageCount : Z) st :
  match deletePages pageCount st with
  | Done files toast =>
    ∃ pagesToKeep,
      files = [{| indices := pagesToKeep; filename := "pages_deleted.pdf" |}]
      ∧ StronglySorted Z.lt pagesToKeep
      ∧ (∀ i, i ∈ pagesToKeep ↔ 0 ≤ i < pageCount ∧ i + 1 ∉ selectedPages st)
      ∧ Z.of_nat (length pagesToKeep)
        + Z.of_nat (size (filter (λ p, 1 ≤ p ≤ pageCount) (selectedPages st)))
        = pageCount
      ∧ toast = ("Deleted " +:+ pretty (size (selectedPages st))
                 +:+ " pages successfully!")%string
  | Refused _ => ∀ i, 1 ≤ i ≤ pageCount → i ∈ selectedPages st
  end.
Proof.
  unfold deletePages.
  destruct (pagesToKeep_sorted pageCount (selectedPages st)) as [Hsorted Hel].
  cbn zeta in Hsorted, Hel.
  set (pagesToKeep := map _ _) in *.
  case_bool_decide as Hempty.
  - intros i Hi. destruct (decide (i ∈ selectedPages st)) as [|Hout]; [done|].
    apply length_zero_iff_nil in Hempty.
    assert (Hin : i - 1 ∈ pagesToKeep).
    { apply Hel. replace (i - 1 + 1) with i by lia. split; [lia|done]. }
    rewrite Hempty in Hin. by apply not_elem_of_nil in Hin.
  - exists pagesToKeep. split; [done|]. split; [done|]. split; [done|].
    split; [|done].
    assert (0 ≤ pageCount).
    { destruct pagesToKeep as [|i l] eqn:Hl; [done|].
      assert (Hi : i ∈ i :: l) by left. apply Hel in Hi. lia. }
    unfold pagesToKeep. rewrite length_map. by apply pagesToKeep_length.
Qed.

Lemma state_eq st st' :
  currentTool st = currentTool st' → loadedPDFs st = loadedPDFs st' →
  selectedPages st = selectedPages st' → pageRotations st = pageRotations st' →
  pageOrder st = pageOrder st' → st = st'.
Proof. destruct st, st'; cbn; by intros -> -> -> -> ->. Qed.

Lemma invertSelection_elem_of (thumbnails : list Z) : ∀ st,
  NoDup thumbnails →
  same_document st (invertSelection thumbnails st)
  ∧ ∀ p, p ∈ selectedPages (invertSelection thumbnails st)
         ↔ ((p ∈ thumbnails ∧ p ∉ selectedPages st)
            ∨ ((p ∉ thumbnails) ∧ p ∈ selectedPages st)).
Proof.
  induction thumbnails as [|t ts IH]; intros st Hnd.
  - cbn. split; [done|]. intros p. rewrite elem_of_nil. tauto.
  - apply NoDup_cons in Hnd as [Ht Hnd].
    change (invertSelection (t :: ts) st)
      with (invertSelection ts
              (if bool_decide (t ∈ selectedPages st) then Set_delete t st
               else Set_add t st)).
    destruct (IH (if bool_decide (t ∈ selectedPages st) then Set_delete t st
                  else Set_add t st) Hnd) as [Hsame Hel].
    split.
    + destruct Hsame as (? & ? & ? & ?). unfold same_document.
      by case_bool_decide.
    + intros p. rewrite Hel, elem_of_cons.
      case_bool_decide; cbn [selectedPages Set_delete Set_add];
        rewrite ?elem_of_difference, ?elem_of_union, ?elem_of_singleton;
        destruct (decide (p = t)) as [->|]; tauto.
Qed.

(** X7. [invertSelection] on thumbnails with distinct page numbers: the
    page of a thumbnail is selected afterwards exactly when it was not
    before, any other page keeps its state, and inverting twice gives the
    state back. *)
Theorem invertSelection_involutive (thumbnails : list Z) st :
  NoDup thumbnails →
  (∀ p, p ∈ selectedPages (invertSelection thumbnails st)
        ↔ ((p ∈ thumbnails ∧ p ∉ selectedPages st)
           ∨ ((p ∉ thumbnails) ∧ p ∈ selectedPages st)))
  ∧ invertSelection thumbnails (invertSelection thumbnails st) = st.
Proof.
  intros Hnd.
  destruct (invertSelection_elem_of thumbnails st Hnd) as [Hsame Hel].
  destruct (invertSelection_elem_of thumbnails (invertSelection thumbnails st) Hnd)
    as [Hsame' Hel'].
  split; [done|].
  destruct Hsame as (? & ? & ? & ?), Hsame' as (? & ? & ? & ?).
  apply state_eq; try congruence.
  apply set_eq. intros p. rewrite Hel', Hel.
  destruct (decide (p ∈ thumbnails)), (decide (p ∈ selectedPages st)); tauto.
Qed.

Lemma selectAll_elem_of (thumbnails : list Z) (selected : bool) : ∀ st p,
  p ∈ selectedPages
        (foldl (λ s pageNum, if selected then Set_add pageNum s
                             else Set_delete pageNum s) st thumbnails)
  ↔ (if selected then p ∈ thumbnails ∨ p ∈ selectedPages st
     else (p ∉ thumbnails) ∧ p ∈ selectedPages st).
Proof.
  destruct selected; induction thumbnails as [|t ts IH]; intros st p;
    cbn [foldl]; rewrite ?IH; cbn [selectedPages Set_delete Set_add];
    rewrite ?elem_of_nil, ?elem_of_cons, ?elem_of_difference, ?elem_of_union,
            ?elem_of_singleton; tauto.
Qed.

(** X6. After [selectAllPagesForDeletion(true)] on the thumbnails of a
    document, [deletePages] is refused: all the pages cannot be deleted. *)
Theorem deletePages_all_selected_refused (pageCount : Z) st :
  deletePages pageCount (selectAllPagesForDeletion (seqZ 1 pageCount) true st).1
  = Refused "Cannot delete all pages".
Proof.
  unfold deletePages. rewrite bool_decide_true; [done|].
  rewrite length_map. apply length_zero_iff_nil.
  destruct (filter _ _) as [|i l] eqn:Hfilter; [done|].
  assert (Hi : i ∈ i :: l) by left. rewrite <- Hfilter in Hi.
  apply list_elem_of_filter in Hi as [Hout Hin]. destruct Hout.
  unfold selectAllPagesForDeletion. cbn [fst].
  apply (selectAll_elem_of _ true). by left.
Qed.

Lemma sorted_permutation_seqZ (l : list Z) (m n : Z) :
  l ≡ₚ seqZ m n → JS.sort_ascending l = seqZ m n.
Proof.
  intros Hperm. apply sorted_lt_unique.
  - apply sort_ascending_sorted. rewrite Hperm. apply NoDup_seqZ.
  - apply seqZ_sorted.
  - intros x. by rewrite sort_ascending_elem_of, Hperm.
Qed.

(** X9. [saveReorderedPDF]: when the container holds the thumbnails of
    the pages 1..numPages in any order, every page index 0..numPages-1 is
    copied exactly once; after [resetPageOrder] the container is back in
    page order and the indices copied are 0, 1, .., numPages-1. *)
Theorem saveReorderedPDF_permutation (container : list Z) (numPages : Z) st :
  container ≡ₚ seqZ 1 numPages →
  (∃ reorderedIndices,
     copied (saveReorderedPDF (updatePageOrder container st)) = [reorderedIndices]
     ∧ reorderedIndices ≡ₚ seqZ 0 numPages)
  ∧ (resetPageOrder container st).1 = seqZ 1 numPages
  ∧ copied (saveReorderedPDF (resetPageOrder container st).2) = [seqZ 0 numPages].
Proof.
  intros Hperm.
  assert (Hshift : map (λ p, p - 1) (seqZ 1 numPages) = seqZ 0 numPages).
  { rewrite (map_shift_seqZ _ (-1)); [done | intros; lia]. }
  split; [|split].
  - eexists. split; [done|]. cbn. by rewrite Hperm, Hshift.
  - cbn. by apply sorted_permutation_seqZ.
  - cbn. by rewrite (sorted_permutation_seqZ _ _ _ Hperm), Hshift.
Qed.

(** X8. When only pages of the document are selected, [extractPages]
    after [invertSelection] copies exactly the pages that [deletePages]
    keeps for the selection (and is refused exactly when it is). *)
Theorem extractPages_inverted (pageCount : Z) st :
  (∀ p, p ∈ selectedPages st → 1 ≤ p ≤ pageCount) →
  copied (extractPages (invertSelection (seqZ 1 pageCount) st))
  = copied (deletePages pageCount st).
Proof.
  intros Hsel.
  destruct (invertSelection_elem_of (seqZ 1 pageCount) st (NoDup_seqZ _ _)) as [_ Hel].
  destruct (pagesToKeep_sorted pageCount (selectedPages st)) as [Hsorted Hkeep].
  cbn zeta in Hsorted, Hkeep.
  unfold extractPages, deletePages.
  set (inverted := invertSelection (seqZ 1 pageCount) st) in *.
  assert (Heq : JS.sort_ascending (map (λ p, p - 1) (elements (selectedPages inverted)))
                = map (λ i, i - 1)
                      (filter (λ i, i ∉ selectedPages st) (seqZ 1 pageCount))).
  { apply sorted_lt_unique; [|done|].
    - apply sort_ascending_sorted.
      assert (Inj (=) (=) (λ p : Z, p - 1)) by (intros x y; lia).
      apply (NoDup_fmap_2 (λ p, p - 1)), NoDup_elements.
    - intros i. rewrite sort_ascending_elem_of, Hkeep.
      change (map ?f ?l) with (f <$> l). rewrite list_elem_of_fmap.
      split.
      + intros (p & -> & Hp). apply elem_of_elements, Hel in Hp.
        rewrite elem_of_seqZ in Hp. replace (p - 1 + 1) with p by lia.
        destruct Hp as [[? ?]|[Hout Hin]]; [split; [lia|done]|].
        destruct Hout. apply Hsel in Hin. lia.
      + intros [Hi Hout]. exists (i + 1). split; [lia|].
        apply elem_of_elements, Hel. left. rewrite elem_of_seqZ. split; [lia|done]. }
  rewrite Heq. by case_bool_decide.
Qed.

Lemma navigate_in_bounds (navs : list navigation) : ∀ v,
  1 ≤ currentPage v ≤ numPages v →
  1 ≤ currentPage (foldl navigate v navs) ≤ numPages v
  ∧ numPages (foldl navigate v navs) = numPages v.
Proof.
  induction navs as [|n navs IH]; intros v Hv; [done|].
  cbn [foldl].
  assert (Hstep : 1 ≤ currentPage (navigate v n) ≤ numPages (navigate v n)
                  ∧ numPages (navigate v n) = numPages v).
  { destruct n; cbn; unfold previousPage, nextPage;
      [destruct (Z.ltb_spec 1 (currentPage v)) | destruct (Z.ltb_spec (currentPage v) (numPages v))];
      cbn; lia. }
  destruct Hstep as [Hb Hn]. destruct (IH _ Hb) as [? ?]. lia.
Qed.

Lemma parsePageRange_bounds (range : string) (maxPage i : Z) :
  i ∈ parsePageRange range maxPage → 0 ≤ i < maxPage.
Proof.
  unfold parsePageRange. rewrite sort_ascending_elem_of, Set_spread_elem_of.
  rewrite list_elem_of_In. intros Hi. apply in_flat_map in Hi as (part & _ & Hi).
  apply list_elem_of_In in Hi. by apply part_pages_in_bounds in Hi.
Qed.

Lemma parsePageRange_increasing (range : string) (maxPage : Z) :
  StronglySorted Z.lt (parsePageRange range maxPage).
Proof. apply sort_ascending_sorted, uniq_from_NoDup. Qed.

(** X10. [convertPDFToImages]: with the preview on a page of a document,
    after any sequence of [previousPage] and [nextPage], the page numbers
    handed to [getPage] are strictly increasing and each is one of
    1..numPages, for every option and every range text. *)
Theorem pagesToConvert_in_document (pagesOption range : string)
    (v : viewer) (navs : list navigation) :
  1 ≤ currentPage v ≤ numPages v →
  let pages := pagesToConvert pagesOption range (foldl navigate v navs) in
  StronglySorted Z.lt pages ∧ ∀ p, p ∈ pages → 1 ≤ p ≤ numPages v.
Proof.
  intros Hv. destruct (navigate_in_bounds navs v Hv) as [Hb Hn].
  cbn zeta. unfold pagesToConvert. rewrite Hn.
  repeat case_match.
  - rewrite (Array_from_affine _ 1) by (intros; lia).
    split; [apply seqZ_sorted|]. intros p Hp. apply elem_of_seqZ in Hp. lia.
  - split; [repeat constructor|]. intros p Hp. apply list_elem_of_singleton in Hp. lia.
  - split.
    + apply (StronglySorted_fmap _ Z.lt); [intros; lia|].
      apply parsePageRange_increasing.
    + intros p Hp. change (map ?f ?l) with (f <$> l) in Hp.
      apply list_elem_of_fmap in Hp as (i & -> & Hi).
      apply parsePageRange_bounds in Hi. lia.
  - split; [constructor|]. intros p Hp. by apply elem_of_nil in Hp.
Qed.

(** X11. [applyWatermark]: for a document with at least one page, the
    indices of the pages to watermark are strictly increasing and lie in
    0..pageCount-1, for every option and every range text. *)
Theorem pagesToWatermark_in_document (pagesOption range : string) (pageCount : Z) :
  0 < pageCount →
  let pages := pagesToWatermark pagesOption range pageCount in
  StronglySorted Z.lt pages ∧ ∀ i, i ∈ pages → 0 ≤ i < pageCount.
Proof.
  intros Hn. cbn zeta. unfold pagesToWatermark.
  repeat case_match.
  - rewrite (Array_from_affine _ 0) by (intros; lia).
    split; [apply seqZ_sorted|]. intros p Hp. apply elem_of_seqZ in Hp. lia.
  - split; [repeat constructor|]. intros p Hp. apply list_elem_of_singleton in Hp. lia.
  - split; [repeat constructor|]. intros p Hp. apply list_elem_of_singleton in Hp. lia.
  - split; [apply parsePageRange_increasing|].
    intros p Hp. by apply parsePageRange_bounds in Hp.
  - split; [constructor|]. intros p Hp. by apply elem_of_nil in Hp.
Qed.

End pages_facts.

(** ** PDFProtection: recognising, encrypting and decrypting *)

Section container_facts.
Import JS PDFProtection.
Context {Permissions : Type}.
Context (JSON_stringify : metadata Permissions → result string).
Context (JSON_parse : string → result (metadata Permissions)).

(** X12. [isEncryptedPDF] never throws and does not write the store.  It
    answers [true] exactly when the array has at least 32 bytes, the first
    four bytes of its buffer give a length m with 0 < m < byteLength, the
    buffer holds m bytes after them, and these bytes, decoded, parse to
    metadata whose [encryption] is "AES-256-GCM". *)
Theorem isEncryptedPDF_never_throws (data : Uint8Array) (h : heap) :
  ∃ b, isEncryptedPDF JSON_parse data h = (Ok b, h)
       ∧ (b = true ↔
          let bs := h !!! buffer data in
          let m := Z.to_nat (of_le (take 4 bs)) in
          (32 ≤ byteLength data)%nat
          ∧ (0 < m < byteLength data)%nat
          ∧ (4 + m ≤ length bs)%nat
          ∧ ∃ md, JSON_parse (TextDecoder_decode (take m (drop 4 bs))) = Ok md
                  ∧ encryption md = "AES-256-GCM"%string).
Proof.
  unfold isEncryptedPDF, catch.
  case_bool_decide as H32.
  { eexists. split; [done|]. split; [done|]. cbn zeta. lia. }
  unfold mbind at 1, M_bind at 1, getUint32_le.
  case_bool_decide as H4.
  2:{ eexists. split; [done|]. split; [done|]. cbn zeta. lia. }
  rewrite drop_0. set (bs := h !!! buffer data) in *.
  assert (Hpos : 0 ≤ of_le (take 4 bs)).
  { unfold of_le. induction (take 4 bs) as [|x l IH]; cbn; [done|].
    pose proof (code_range x). lia. }
  case_bool_decide as Hm.
  2:{ eexists. split; [done|]. split; [done|]. cbn zeta. lia. }
  unfold mbind at 1, M_bind at 1, Uint8Array_on. fold bs.
  case_bool_decide as Hlen.
  2:{ eexists. split; [done|]. split; [done|]. cbn zeta. lia. }
  unfold mbind at 1, M_bind at 1. unfold mbind at 1, M_bind at 1, lift.
  unfold bytes_of. cbn [buffer byteOffset byteLength]. fold bs.
  destruct (JSON_parse _) as [md|e] eqn:Hparse.
  - exists (String.eqb (encryption md) "AES-256-GCM"). split; [done|].
    rewrite String.eqb_eq. cbn zeta. split.
    + intros Henc. repeat split; try lia. by exists md.
    + intros (_ & _ & _ & md' & Hmd' & Henc). congruence.
  - eexists. split; [done|]. split; [done|].
    cbn zeta. intros (_ & _ & _ & md' & Hmd' & _). congruence.
Qed.

(** X13. [isEncryptedPDF] recognises every container made by
    [createEncryptedContainer], when the JSON text of the metadata parses
    back to the metadata. *)
Theorem isEncryptedPDF_created (now : string)
    (encryptedData salt iv : Uint8Array) (opts : options Permissions)
    (metadataStr : string) (h : heap) :
  valid h encryptedData → valid h salt → valid h iv →
  byteLength salt = 16%nat → byteLength iv = 12%nat →
  JSON_stringify (metadata_of now opts) = Ok metadataStr →
  opens_with_brace metadataStr →
  Z.of_nat (length (TextEncoder_encode metadataStr)) < 2 ^ 32 →
  JSON_parse metadataStr = Ok (metadata_of now opts) →
  ∃ container h',
    createEncryptedContainer JSON_stringify now encryptedData salt iv opts h
    = (Ok container, h')
    ∧ isEncryptedPDF JSON_parse container h' = (Ok true, h').
Proof.
  intros He Hs Hi Hs16 Hi12 Hjson Hbrace Hm Hparse.
  destruct (valid_length _ _ He) as [Hle Hbe].
  destruct (valid_length _ _ Hs) as [Hls Hbs].
  destruct (valid_length _ _ Hi) as [Hli Hbi].
  eexists _, _. split; [by apply createEncryptedContainer_run|].
  set (metadataBytes := TextEncoder_encode metadataStr) in *.
  set (content := layout metadataBytes (bytes_of salt h) (bytes_of iv h)
                         (bytes_of encryptedData h)).
  assert (H4 : ∀ v, length (le32 v) = 4%nat) by done.
  assert (Hlen : length content
                 = (4 + length metadataBytes + 16 + 12
                    + length (bytes_of encryptedData h))%nat).
  { unfold content, layout. rewrite !length_app, H4. lia. }
  assert (Hpos : (0 < length metadataBytes)%nat).
  { destruct Hbrace as [rest ->]. cbn. lia. }
  unfold isEncryptedPDF, catch. cbn [byteLength buffer].
  rewrite bool_decide_false by lia.
  unfold mbind at 1, M_bind at 1, getUint32_le.
  rewrite list_lookup_total_middle by done.
  rewrite bool_decide_true by lia.
  replace (of_le _) with (Z.of_nat (length metadataBytes)).
  2:{ unfold content, layout. rewrite drop_0.
      rewrite <- (H4 (Z.of_nat (length metadataBytes))) at 1.
      rewrite take_app_length. rewrite of_le_le32; [done | lia]. }
  rewrite bool_decide_true by lia. rewrite Nat2Z.id.
  unfold mbind at 1, M_bind at 1. rewrite Uint8Array_on_last by lia.
  unfold mbind at 1, M_bind at 1.
  replace (bytes_of _ _) with metadataBytes.
  2:{ symmetry. unfold content, layout.
      apply (bytes_of_window h (le32 _) metadataBytes). }
  unfold metadataBytes at 1. rewrite decode_encode by done.
  unfold mbind at 1, M_bind at 1, lift. by rewrite Hparse.
Qed.

(** X14. When [parseEncryptedContainer] returns, it has not written the
    store, and the buffer it read is exactly: four bytes of length, the
    metadata bytes of that length, the 16 bytes shown by [salt], the 12
    bytes shown by [iv] and the bytes shown by [encryptedData]; the
    metadata returned is what [JSON.parse] makes of the decoded metadata
    bytes. *)
Theorem parseEncryptedContainer_partition (containerData : Uint8Array)
    (p : parsed Permissions) (h h' : heap) :
  parseEncryptedContainer JSON_parse containerData h = (Ok p, h') →
  h' = h
  ∧ let bs := h !!! buffer containerData in
    let metadataBytes := take (Z.to_nat (of_le (take 4 bs))) (drop 4 bs) in
    bs = take 4 bs ++ metadataBytes ++ bytes_of (p_salt p) h
           ++ bytes_of (p_iv p) h ++ bytes_of (p_encryptedData p) h
    ∧ length (take 4 bs) = 4%nat
    ∧ length metadataBytes = Z.to_nat (of_le (take 4 bs))
    ∧ length (bytes_of (p_salt p) h) = 16%nat
    ∧ length (bytes_of (p_iv p) h) = 12%nat
    ∧ JSON_parse (TextDecoder_decode metadataBytes) = Ok (p_metadata p).
Proof.
  unfold parseEncryptedContainer.
  unfold mbind at 1, M_bind at 1, getUint32_le.
  set (bs := h !!! buffer containerData).
  case_bool_decide as H4; [|done]. rewrite drop_0.
  set (m := Z.to_nat (of_le (take 4 bs))).
  unfold mbind at 1, M_bind at 1, Uint8Array_on. fold bs.
  case_bool_decide as Hm; [|done].
  unfold mbind at 1, M_bind at 1. unfold mbind at 1, M_bind at 1, lift.
  unfold bytes_of at 1. cbn [buffer byteOffset byteLength]. fold bs.
  destruct (JSON_parse _) as [md|e] eqn:Hparse; [|done].
  unfold mbind at 1, M_bind at 1. fold bs.
  case_bool_decide as Hs; [|done].
  unfold mbind at 1, M_bind at 1. fold bs.
  case_bool_decide as Hi; [|done].
  unfold mbind at 1, M_bind at 1. fold bs.
  case_bool_decide as Hrest; [|done].
  intros [= <- <-]. split; [done|]. cbn zeta.
  cbn [p_salt p_iv p_encryptedData p_metadata]. unfold bytes_of.
  cbn [buffer byteOffset byteLength]. fold bs. fold m.
  split; [|split; [|split; [|split; [|split]]]].
  - rewrite (take_ge (drop (0 + 4 + m + 16 + 12) bs)) by (rewrite length_drop; lia).
    rewrite <- (take_drop 4 bs) at 1. f_equal.
    rewrite <- (take_drop m (drop 4 bs)) at 1. f_equal.
    rewrite drop_drop.
    rewrite <- (take_drop 16 (drop (4 + m) bs)) at 1. f_equal.
    rewrite drop_drop.
    rewrite <- (take_drop 12 (drop (4 + m + 16) bs)) at 1. f_equal.
    by rewrite drop_drop.
  - rewrite length_take. lia.
  - rewrite length_take, length_drop. lia.
  - rewrite length_take, length_drop. lia.
  - rewrite length_take, length_drop. lia.
  - done.
Qed.

End container_facts.

Section WebCrypto_facts.
Import JS PDFProtection.
Context {Permissions : Type}.
Context (JSON_stringify : metadata Permissions → result string).
Context (JSON_parse : string → result (metadata Permissions)).
Context {KeyMaterial Key : Type}.
Context (importKey : list byte → result KeyMaterial).
Context (deriveKey : KeyMaterial → list byte → result Key).
Context (AES_GCM_encrypt AES_GCM_decrypt : Key → list byte → list byte → result (list byte)).
Context (platform_message : error → string).

Lemma getRandomValues_run (n : nat) (random : list byte) (h : heap) :
  length random = n →
  (a ← Uint8Array_new n; getRandomValues a random) h
  = (Ok {| buffer := length h; byteOffset := 0; byteLength := n |}, h ++ [random]).
Proof.
  intros Hn. unfold Uint8Array_new, alloc, getRandomValues, mbind, M_bind, mret, M_ret.
  cbn [byteLength].
  rewrite (set_bytes_last h) by (rewrite length_resize; lia).
  rewrite <- Hn, resize_all.
  rewrite write_at_fill_0 by lia. rewrite Nat.sub_diag. cbn. by rewrite app_nil_r.
Qed.

Lemma valid_last (pre : heap) (cur : list byte) (n : nat) :
  n = length cur →
  valid (pre ++ [cur]) {| buffer := length pre; byteOffset := 0; byteLength := n |}.
Proof.
  intros ->. exists cur. split; [by apply list_lookup_middle | cbn; lia].
Qed.

Lemma valid_app (h h' : heap) (a : Uint8Array) : valid h a → valid (h ++ h') a.
Proof. intros (bs & Hbs & Hlen). exists bs. split; [by apply lookup_app_l_Some | done]. Qed.

(** X15. [decryptPDF] undoes [encryptWithWebCrypto].  With the password the
    encryption uses ([userPassword], or [ownerPassword] when [userPassword]
    is empty or absent), [decryptPDF] applied to the container returns an
    array that shows the bytes of the original and the metadata written;
    the container has 4 + metadataLength + 16 + 12 + ciphertextLength
    bytes.  Of the platform it is assumed that the JSON text parses back
    to the metadata, that key import and derivation succeed, and that
    AES-GCM decrypts, under the same key and IV, what it has encrypted. *)
Theorem decryptPDF_encryptWithWebCrypto (random16 random12 : list byte)
    (now : string) (pdfData : Uint8Array) (opts : options Permissions)
    (password metadataStr : string) (keyMaterial : KeyMaterial) (key : Key)
    (ciphertext : list byte) (h : heap) :
  valid h pdfData →
  length random16 = 16%nat → length random12 = 12%nat →
  password_of opts = Some password → password ≠ ""%string →
  JSON_stringify (metadata_of now opts) = Ok metadataStr →
  opens_with_brace metadataStr →
  Z.of_nat (length (TextEncoder_encode metadataStr)) < 2 ^ 32 →
  JSON_parse metadataStr = Ok (metadata_of now opts) →
  importKey (TextEncoder_encode password) = Ok keyMaterial →
  deriveKey keyMaterial random16 = Ok key →
  AES_GCM_encrypt key random12 (bytes_of pdfData h) = Ok ciphertext →
  AES_GCM_decrypt key random12 ciphertext = Ok (bytes_of pdfData h) →
  ∃ r h1 d h2,
    encryptWithWebCrypto JSON_stringify importKey deriveKey AES_GCM_encrypt
      platform_message true random16 random12 now pdfData opts h = (Ok r, h1)
    ∧ protectedSize r
      = (4 + length (TextEncoder_encode metadataStr) + 16 + 12 + length ciphertext)%nat
    ∧ decryptPDF JSON_parse importKey deriveKey AES_GCM_decrypt platform_message
        true (data r) password h1 = (Ok d, h2)
    ∧ bytes_of (decrypted_data d) h2 = bytes_of pdfData h
    ∧ decrypted_metadata d = metadata_of now opts.
Proof.
  intros Hvalid H16 H12 Hpw Hne Hjson Hbrace Hm Hparse Hik Hdk Henc Hdec.
  destruct (valid_length _ _ Hvalid) as [Hlen Hbuf].
  set (h1 := h ++ [random16]).
  set (h2 := h1 ++ [random12]).
  set (h3 := h2 ++ [ciphertext]).
  set (salt := {| buffer := length h; byteOffset := 0; byteLength := 16 |}).
  set (iv := {| buffer := length h1; byteOffset := 0; byteLength := 12 |}).
  set (encrypted := {| buffer := length h2; byteOffset := 0;
                       byteLength := length ciphertext |}).
  assert (Hpdf2 : bytes_of pdfData h2 = bytes_of pdfData h).
  { unfold h2, h1. rewrite !bytes_of_app; rewrite ?length_app; cbn; done || lia. }
  assert (Hsalt3 : bytes_of salt h3 = random16).
  { unfold h3, h2. rewrite !bytes_of_app by (unfold h1; rewrite ?length_app; cbn; lia).
    apply bytes_of_last. lia. }
  assert (Hiv3 : bytes_of iv h3 = random12).
  { unfold h3. rewrite !bytes_of_app by (unfold h2; rewrite ?length_app; cbn; lia).
    apply bytes_of_last. lia. }
  assert (Henc3 : bytes_of encrypted h3 = ciphertext).
  { apply bytes_of_last. done. }
  assert (Hcreate : createEncryptedContainer JSON_stringify now encrypted salt iv opts h3
    = (Ok {| buffer := length h3; byteOffset := 0;
             byteLength := 4 + length (TextEncoder_encode metadataStr) + 16 + 12
                           + length ciphertext |},
       h3 ++ [layout (TextEncoder_encode metadataStr) random16 random12 ciphertext])).
  { rewrite (createEncryptedContainer_run JSON_stringify now encrypted salt iv opts
               metadataStr h3); [by rewrite Hsalt3, Hiv3, Henc3| | | |done].
    - by apply valid_last.
    - unfold h3, h2. do 2 apply valid_app. by apply valid_last.
    - unfold h3. apply valid_app. by apply valid_last. }
  eexists _, _, _, _. split; [|split; [|split; [|split]]].
  - unfold encryptWithWebCrypto. cbn [negb]. rewrite Hpw.
    unfold truthy. destruct (String.eqb_spec password ""); [done|]. cbn [negb].
    unfold catch.
    unfold mbind at 1, M_bind at 1, lift. rewrite Hik.
    unfold mbind at 1, M_bind at 1. rewrite getRandomValues_run by done.
    unfold mbind at 1, M_bind at 1. rewrite bytes_of_last by lia. rewrite Hdk.
    unfold mbind at 1, M_bind at 1. rewrite getRandomValues_run by done.
    unfold mbind at 1, M_bind at 1. fold h1. rewrite bytes_of_last by lia.
    fold h2. rewrite Hpdf2, Henc.
    unfold mbind at 1, M_bind at 1.
    unfold Uint8Array_of_result, alloc. unfold mbind at 1, M_bind at 1.
    unfold mret at 1, M_ret at 1. fold h2. fold encrypted. fold h3. fold salt. fold iv.
    unfold mbind at 1, M_bind at 1. rewrite Hcreate. reflexivity.
  - done.
  - unfold decryptPDF. cbn [negb data]. unfold catch.
    unfold mbind at 1, M_bind at 1.
    rewrite (parseEncryptedContainer_run JSON_parse h3 _ metadataStr
               (metadata_of now opts) random16 random12 ciphertext) by done.
    cbn [p_metadata metadata_of encryption]. rewrite String.eqb_refl. cbn [negb].
    unfold mbind at 1, M_bind at 1, lift. rewrite Hik.
    cbn [p_salt p_iv p_encryptedData].
    set (meta := TextEncoder_encode metadataStr).
    assert (H4 : length (le32 (Z.of_nat (length meta))) = 4%nat) by done.
    unfold mbind at 1, M_bind at 1.
    rewrite (bytes_of_window_eq h3 _ (le32 (Z.of_nat (length meta)) ++ meta) random16
               (random12 ++ ciphertext));
      [| unfold layout; by rewrite <- !app_assoc | rewrite length_app, H4; lia | lia].
    rewrite Hdk.
    unfold mbind at 1, M_bind at 1.
    rewrite (bytes_of_window_eq h3 _ (le32 (Z.of_nat (length meta)) ++ meta ++ random16)
               random12 ciphertext);
      [| unfold layout; by rewrite <- !app_assoc | rewrite !length_app, H4; lia | lia].
    rewrite (bytes_of_window_eq h3 _
               (le32 (Z.of_nat (length meta)) ++ meta ++ random16 ++ random12)
               ciphertext []);
      [| unfold layout; by rewrite <- !app_assoc, app_nil_r
       | rewrite !length_app, H4; lia | lia].
    rewrite Hdec. reflexivity.
  - cbn [decrypted_data]. rewrite bytes_of_last; [done | lia].
  - done.
Qed.

End WebCrypto_facts.

(** ** The QPDF stand-in: keys and [encryptPDF] *)

Section key_facts.
Import JS QPDFEncryption.

Lemma encrypt_bytes (pdfData : Uint8Array) (opts : options) (h : heap) :
  valid h pdfData →
  ∃ encrypted h',
    encrypt pdfData opts h = (Ok encrypted, h')
    ∧ bytes_of encrypted h'
      = spec_encrypt (TextEncoder_encode (password_of opts)) (bytes_of pdfData h).
Proof.
  intros Hvalid. destruct (valid_length _ _ Hvalid) as [Hlen Hbuf].
  eexists _, _. split; [by apply encrypt_run|].
  apply bytes_of_second. unfold spec_encrypt. rewrite length_imap. lia.
Qed.

(** X16. The key stream of the stand-in repeats every 256 bytes: for two
    input bytes 256 positions apart, the XOR of the two output bytes is the
    XOR of the two input bytes, whatever the password. *)
Theorem encrypt_keystream_period (pdfData : Uint8Array) (opts : options) (h : heap)
    (i : nat) (x x' : byte) :
  valid h pdfData →
  bytes_of pdfData h !! i = Some x →
  bytes_of pdfData h !! (i + 256)%nat = Some x' →
  ∃ encrypted h' y y',
    encrypt pdfData opts h = (Ok encrypted, h')
    ∧ bytes_of encrypted h' !! i = Some y
    ∧ bytes_of encrypted h' !! (i + 256)%nat = Some y'
    ∧ Z.lxor (code y) (code y') = Z.lxor (code x) (code x').
Proof.
  intros Hvalid Hx Hx'.
  destruct (encrypt_bytes pdfData opts h Hvalid) as (encrypted & h' & Hrun & Hbytes).
  set (pw := TextEncoder_encode (password_of opts)) in *.
  destruct (spec_encrypt_lookup pw _ _ _ Hx) as (y & Hy & Hcy).
  destruct (spec_encrypt_lookup pw _ _ _ Hx') as (y' & Hy' & Hcy').
  exists encrypted, h', y, y'. rewrite Hbytes.
  split; [exact Hrun|]. split; [exact Hy|]. split; [exact Hy'|].
  rewrite Hcy, Hcy'.
  replace ((i + 256) mod 256)%nat with (i mod 256)%nat
    by (rewrite <- (Nat.Div0.mod_add i 1 256); f_equal; lia).
  set (k := spec_key pw (i mod 256)).
  rewrite (Z.lxor_comm (code x') k), Z.lxor_assoc, <- (Z.lxor_assoc k k).
  by rewrite Z.lxor_nilpotent, Z.lxor_0_l.
Qed.

(** The key depends on the password only through the bytes it is read at. *)
Lemma spec_encrypt_ext (d d' input : list byte) :
  (∀ j, (j < 256)%nat → spec_key d j = spec_key d' j) →
  spec_encrypt d input = spec_encrypt d' input.
Proof.
  intros Hkey. unfold spec_encrypt. apply imap_ext. intros i x _. cbv beta.
  rewrite Hkey; [done|]. apply Nat.mod_upper_bound. lia.
Qed.





(** X18. Two passwords of at least 256 bytes that agree on their first
    256 bytes give the same output: what follows the 256th byte of a
    password is not used. *)
Theorem encrypt_long_password (pdfData : Uint8Array) (p q : string) (h : heap) :
  valid h pdfData →
  (256 ≤ length (TextEncoder_encode p))%nat →
  (256 ≤ length (TextEncoder_encode q))%nat →
  take 256 (TextEncoder_encode p) = take 256 (TextEncoder_encode q) →
  ∃ a h1 b h2,
    encrypt pdfData {| userPassword := Some p |} h = (Ok a, h1)
    ∧ encrypt pdfData {| userPassword := Some q |} h = (Ok b, h2)
    ∧ bytes_of a h1 = bytes_of b h2.
Proof.
  intros Hvalid Hlp Hlq Htake.
  destruct (encrypt_bytes pdfData {| userPassword := Some p |} h Hvalid)
    as (a & h1 & Hrun1 & Hbytes1).
  destruct (encrypt_bytes pdfData {| userPassword := Some q |} h Hvalid)
    as (b & h2 & Hrun2 & Hbytes2).
  exists a, h1, b, h2. split; [exact Hrun1|]. split; [exact Hrun2|].
  rewrite Hbytes1, Hbytes2. clear Hrun1 Hrun2 Hbytes1 Hbytes2.
  unfold password_of. cbn [userPassword].
  destruct (String.eqb_spec p "") as [->|_]; [cbn in Hlp; lia|].
  destruct (String.eqb_spec q "") as [->|_]; [cbn in Hlq; lia|].
  apply spec_encrypt_ext. intros j Hj. unfold spec_key.
  rewrite !Nat.mod_small by lia.
  assert (Hlook : ∀ d : list byte, (256 ≤ length d)%nat → d !!! j = take 256 d !!! j).
  { intros d Hd. by rewrite lookup_total_take_lt. }
  by rewrite (Hlook _ Hlp), (Hlook _ Hlq), Htake.
Qed.

End key_facts.

Section encryptPDF_facts.
Import JS QPDFEncryption.
Context (real_encrypt : Uint8Array → request → M Uint8Array).
Context (fallbackEncryption : Uint8Array → request → M encrypted).
Context (platform_message : error → string).

Lemma loadModule_fallback (initQPDFModule : environment) (this : object) :
  status this ≠ "ready"%string → status this ≠ "loading"%string →
  (initQPDFModule = None ∨ ∃ e, initQPDFModule = Some (Throw e)) →
  loadModule None initQPDFModule this
  = (Ok (), {| qpdf := Some Mock; status := "ready"; loadPromise := Some (Ok ()) |}).
Proof.
  intros Hr Hl Henv. unfold loadModule.
  destruct (String.eqb_spec (status this) "ready") as [Heq|_];
    [exfalso; exact (Hr Heq)|].
  destruct (String.eqb_spec (status this) "loading") as [Heq|_];
    [exfalso; exact (Hl Heq)|].
  destruct Henv as [-> | [e ->]]; reflexivity.
Qed.

(** X19. When the QPDF module cannot be had (the page offers no
    [initQPDFModule], or its call rejects), [encryptPDF] on an object that
    is neither ready nor loading installs the stand-in, leaves the object
    'ready', and returns the XOR obfuscation of the input under
    [userPassword] (or "default"), with [success] and [isRealEncryption]
    both [true] and the method text "QPDF <encryptionMethod>
    Encryption". *)
Theorem encryptPDF_fallback_reports_real (initQPDFModule : environment)
    (pdfData : Uint8Array) (opts : request) (this : object) (h : heap) :
  valid h pdfData →
  status this ≠ "ready"%string → status this ≠ "loading"%string →
  (initQPDFModule = None ∨ ∃ e, initQPDFModule = Some (Throw e)) →
  ∃ r this' h',
    encryptPDF real_encrypt fallbackEncryption platform_message
               initQPDFModule (Typed pdfData) opts this h
    = ((Ok r, this'), h')
    ∧ status this' = "ready"%string
    ∧ qpdf this' = Some Mock
    ∧ success r = true
    ∧ isRealEncryption r = true
    ∧ method r = ("QPDF " +:+ default "AES-256" (encryptionMethod opts)
                  +:+ " Encryption")%string
    ∧ bytes_of (data r) h'
      = spec_encrypt
          (TextEncoder_encode
             (password_of {| userPassword := request_userPassword opts |}))
          (bytes_of pdfData h).
Proof.
  intros Hvalid Hr Hl Henv.
  destruct (encrypt_bytes pdfData
              {| userPassword := Some (default ""%string (request_userPassword opts)) |}
              h Hvalid) as (encryptedData & h' & Hrun & Hbytes).
  unfold encryptPDF.
  destruct (String.eqb_spec (status this) "ready") as [Heq|_];
    [exfalso; exact (Hr Heq)|].
  cbn [negb].
  rewrite loadModule_fallback by done. cbn [qpdf].
  unfold catch, lift. unfold mbind at 1, M_bind at 1.
  unfold mbind at 1, M_bind at 1. unfold mret at 1, M_ret at 1.
  unfold mbind at 1, M_bind at 1. rewrite Hrun.
  eexists _, _, _. split; [reflexivity|].
  cbn [status qpdf success isRealEncryption method data].
  repeat (split; [done|]).
  rewrite Hbytes. do 2 f_equal. unfold password_of. cbn [userPassword].
  by destruct (request_userPassword opts).
Qed.

End encryptPDF_facts.

(** ** ghostscript-wasm.js: more on the loader and the mock compression *)

Section loader_more.
Import JS GhostscriptWASM.

Lemma loaded_step (sys : system) (e : event) :
  isLoaded (this sys) = true →
  (∀ j, ¬ in_progress (tasks sys) j) →
  this (step sys e) = this sys ∧ ∀ j, ¬ in_progress (tasks (step sys e)) j.
Proof.
  destruct sys as [o ts]. cbn [this tasks]. intros Hd Hnone.
  destruct e as [cb | i how]; cbn [step this tasks].
  - unfold loadModule. rewrite Hd. cbn [this tasks]. split; [done|].
    intros j. by rewrite in_progress_snoc_idle.
  - destruct (ts !! i) as [t|] eqn:Ht; [|done].
    assert (Hidle : loading (at_ t) = false).
    { destruct (loading (at_ t)) eqn:Hl; [|done]. destruct (Hnone i). by exists t. }
    destruct (resume_idle how (progressCallback t) (at_ t) o Hidle) as [Hres Hp].
    destruct (resume how (progressCallback t) (at_ t) o) as [p o'].
    cbn in Hp. injection Hres as _ ->. cbn [this tasks]. split; [done|].
    intros j. rewrite (in_progress_insert_same ts t); [done | done | cbn; congruence].
Qed.

(** X20. Once [isLoaded] is set in a state the calls of [loadModule] can
    reach, no later call or resumption changes the object: [getStatus()]
    stays "ready" and no call is loading. *)
Theorem loaded_is_final (es es' : list event) :
  let sys := run initial es in
  isLoaded (this sys) = true →
  this (run sys es') = this sys
  ∧ getStatus (this (run sys es')) = "ready"%string
  ∧ ∀ j, ¬ in_progress (tasks (run sys es')) j.
Proof.
  intros sys Hd.
  assert (Hinv : invariant sys) by apply invariant_run, invariant_initial.
  unfold invariant in Hinv.
  destruct (isLoading (this sys)) eqn:Hl; [destruct Hinv; congruence|].
  assert (Hrun : ∀ es' s, isLoaded (this s) = true → (∀ j, ¬ in_progress (tasks s) j) →
            this (run s es') = this s ∧ ∀ j, ¬ in_progress (tasks (run s es')) j).
  { clear. induction es' as [|e es' IH]; intros s Hd Hnone; [done|].
    destruct (loaded_step s e Hd Hnone) as [Hthis Hnone'].
    change (run s (e :: es')) with (run (step s e) es').
    destruct (IH (step s e)) as [? ?]; [congruence | done |]. split; [congruence | done]. }
  destruct (Hrun es' sys Hd Hinv) as [Hthis Hnone].
  split; [done|]. split; [|done].
  rewrite Hthis. unfold getStatus. by rewrite Hl, Hd.
Qed.

Lemma load_resume (how : settled) (cb : callback) (p : place) (o : object) (r : nat) :
  quiet cb → load_stage p = Some r →
  match r with
  | O => isLoaded o = true ∧ isLoading o = false ∧ module o = true
  | S _ => isLoaded o = false ∧ isLoading o = true ∧ ((r ≤ 2)%nat → module o = true)
  end →
  let '(p', o') := resume how cb p o in
  ∃ r', load_stage p' = Some r' ∧ (r' ≤ pred r)%nat
    ∧ match r' with
      | O => isLoaded o' = true ∧ isLoading o' = false ∧ module o' = true
      | S _ => isLoaded o' = false ∧ isLoading o' = true
               ∧ ((r' ≤ 2)%nat → module o' = true)
      end.
Proof.
  intros Hq Hp Ho.
  destruct p as [| | |k|[[]|e]|[[]|e]| |]; try discriminate Hp;
    unfold load_stage in Hp.
  - injection Hp as <-. destruct Ho as (Hd & Hl & _).
    destruct how; cbn; unfold loadRealModule_catch, loadMockModule_from;
      repeat (rewrite Hq; cbn); eexists; (split; [reflexivity|]);
      (split; [lia|]); cbn; repeat split; try done; lia.
  - injection Hp as <-. destruct Ho as (Hd & Hl & _).
    destruct how; cbn; unfold loadRealModule_catch, loadMockModule_from;
      repeat (rewrite Hq; cbn); eexists; (split; [reflexivity|]);
      (split; [lia|]); cbn; repeat split; try done; lia.
  - destruct (Nat.ltb_spec k 5) as [Hk|]; [|discriminate Hp]. injection Hp as <-.
    cbn. unfold loadMockModule_from.
    do 5 (destruct k as [|k];
          [cbn; rewrite ?Hq; cbn in *; eexists; split; [reflexivity|];
           split; [lia|]; intuition (try done; try lia)|]).
    exfalso. lia.
  - injection Hp as <-. destruct Ho as (Hd & Hl & Hm).
    cbn. exists 1%nat. split; [done|]. split; [lia|].
    split; [done|]. split; [done|]. intros _. apply Hm. lia.
  - injection Hp as <-. destruct Ho as (Hd & Hl & Hm).
    cbn. exists 0%nat. split; [done|]. split; [lia|].
    split; [done|]. split; [done|]. apply Hm. lia.
  - injection Hp as <-. cbn. exists 0%nat. split; [done|]. split; [lia|]. done.
Qed.

End loader_more.

Section loader_more2.
Import JS GhostscriptWASM.

Lemma loading_quietly_step (i r : nat) (sys : system) (e : event) :
  loading_quietly i r sys →
  loading_quietly i (if resumes i e then pred r else r) (step sys e).
Proof.
  destruct sys as [o ts].
  intros (t & r' & Ht & Hq & Hstage & Hle & Honly & Ho). cbn [this tasks] in *.
  pose proof (lookup_lt_Some _ _ _ Ht) as Hlt.
  destruct e as [cb | j how]; cbn [resumes step this tasks].
  - assert (Hcall : loadModule cb o
                    = (if isLoaded o then Returned else Polling, o)).
    { unfold loadModule. destruct r'; destruct Ho as (Hd & Hl & _);
        by rewrite Hd, ?Hl. }
    rewrite Hcall. exists t, r'. cbn [this tasks].
    split; [by apply lookup_app_l_Some|].
    repeat (split; [done|]). split; [|done].
    intros k Hk. apply Honly. eapply in_progress_snoc_idle; [|done].
    cbn. by destruct (isLoaded o).
  - destruct (Nat.eqb_spec i j) as [<- | Hne].
    + rewrite Ht.
      pose proof (load_resume how (progressCallback t) (at_ t) o r' Hq Hstage Ho)
        as Hres.
      destruct (resume how (progressCallback t) (at_ t) o) as [p o'].
      destruct Hres as (r'' & Hstage' & Hle' & Ho'). cbn [this tasks].
      eexists _, r''. split; [by apply list_lookup_insert_eq|]. cbn.
      split; [done|]. split; [done|]. split; [lia|]. split; [|done].
      intros k (t' & Ht' & Hl'). destruct (decide (k = i)) as [|Hki]; [done|].
      rewrite list_lookup_insert_ne in Ht' by done. apply Honly. by exists t'.
    + destruct (ts !! j) as [tj|] eqn:Htj; [|by exists t, r'].
      assert (Hidle : loading (at_ tj) = false).
      { destruct (loading (at_ tj)) eqn:Hl; [|done].
        destruct Hne. symmetry. apply Honly. by exists tj. }
      destruct (resume_idle how (progressCallback tj) (at_ tj) o Hidle) as [Hres Hp].
      destruct (resume how (progressCallback tj) (at_ tj) o) as [p o'].
      cbn in Hp. injection Hres as _ ->. cbn [this tasks].
      exists t, r'. cbn [this tasks]. split; [by rewrite list_lookup_insert_ne|].
      repeat (split; [done|]). split; [|done].
      intros k Hk. apply Honly.
      eapply (in_progress_insert_same ts tj); [done | | done]. cbn. congruence.
Qed.

Lemma loading_quietly_run (i : nat) (es : list event) : ∀ r sys,
  loading_quietly i r sys →
  loading_quietly i (r - resumes_of i es) (run sys es).
Proof.
  induction es as [|e es IH]; intros r sys H.
  - by rewrite Nat.sub_0_r.
  - apply (loading_quietly_step i r sys e) in H. apply IH in H.
    rewrite resumes_of_cons. change (run sys (e :: es)) with (run (step sys e) es).
    destruct (resumes i e).
    + by replace (r - (1 + resumes_of i es))%nat
        with (pred r - resumes_of i es)%nat by lia.
    + done.
Qed.

(** X21. A call of [loadModule] whose callback never throws (or is
    [null]), made while the module is neither loaded nor loading, never
    throws, however the import and the initialisation settle and however
    the calls interleave; once it has been resumed nine times it has
    returned with [isLoaded] set, a module installed and [getStatus()]
    "ready". *)
Theorem loadModule_quiet_ends_ready (es0 es : list event) (cb : callback) :
  let sys := run initial es0 in
  let i := length (tasks sys) in
  let final := run (step sys (Call cb)) es in
  quiet cb →
  isLoaded (this sys) = false → isLoading (this sys) = false →
  (∀ t e, tasks final !! i = Some t → at_ t ≠ Threw e)
  ∧ ((9 ≤ resumes_of i es)%nat →
     (∃ t, tasks final !! i = Some t ∧ at_ t = Returned)
     ∧ isLoaded (this final) = true
     ∧ module (this final) = true
     ∧ getStatus (this final) = "ready"%string).
Proof.
  intros sys i final Hq Hd Hl.
  assert (Hinv : invariant sys) by apply invariant_run, invariant_initial.
  unfold invariant in Hinv. rewrite Hl in Hinv.
  assert (Hstart : loading_quietly i 9 (step sys (Call cb))).
  { cbn [step]. unfold loadModule, loadRealModule_start. rewrite Hd, Hl, !Hq.
    cbn [this tasks].
    eexists _, 9%nat. split; [by apply list_lookup_middle|]. cbn.
    split; [done|]. split; [done|]. split; [done|]. split.
    - intros j Hj. by apply in_progress_snoc_loading in Hj.
    - split; [done|]. split; [done|]. intros; lia. }
  apply (loading_quietly_run i es) in Hstart. fold final in Hstart.
  destruct Hstart as (t & r' & Ht & _ & Hstage & Hle & _ & Ho). split.
  - intros t' e Ht' He. rewrite Ht in Ht'. injection Ht' as <-.
    by rewrite He in Hstage.
  - intros Hn. assert (r' = 0%nat) as -> by lia.
    destruct Ho as (Hd' & Hl' & Hm).
    split; [|split; [done | split; [done|]]].
    + exists t. split; [done|].
      destruct (at_ t) as [| | |k|[[]|?]|[[]|?]| |];
        unfold load_stage in Hstage; try done.
      destruct (Nat.ltb_spec k 5); [|done]. injection Hstage. lia.
    + unfold getStatus. by rewrite Hl', Hd'.
Qed.

Lemma loadModule_gs (cb : callback) (o : object) : gs (loadModule cb o).2 = gs o.
Proof.
  unfold loadModule, loadRealModule_start, loadRealModule_catch, loadMockModule_from.
  repeat case_match; simplify_eq; done.
Qed.

Lemma resume_gs (how : settled) (cb : callback) (p : place) (o : object) :
  p ≠ AwaitInit ∨ how = Rejected → gs (resume how cb p o).2 = gs o.
Proof.
  intros Hp. destruct p as [| | |k|r|[[]|e]| |]; cbn;
    unfold loadRealModule_catch, loadMockModule_from;
    repeat case_match; simplify_eq; cbn; try done.
  all: by destruct Hp.
Qed.

Lemma never_initialised_gs (es : list event) : ∀ sys,
  gs (this sys) = false → never_initialised sys es = true →
  gs (this (run sys es)) = false.
Proof.
  induction es as [|e es IH]; intros sys Hg Hnever; [done|].
  cbn [never_initialised] in Hnever. apply andb_true_iff in Hnever as [He Hes].
  change (run sys (e :: es)) with (run (step sys e) es).
  apply IH; [|done]. destruct e as [cb | i how]; cbn [step].
  - pose proof (loadModule_gs cb (this sys)) as Hcall.
    destruct (loadModule cb (this sys)) as [p o]. cbn in *. congruence.
  - destruct (tasks sys !! i) as [t|] eqn:Ht; [|done]. cbn in He.
    pose proof (resume_gs how (progressCallback t) (at_ t) (this sys)) as Hres.
    destruct (resume how (progressCallback t) (at_ t) (this sys)) as [p o].
    cbn in *. rewrite Hres; [done|].
    destruct (at_ t); try (by left). right. by destruct how.
Qed.

(** X22. As long as no initialisation of the real module has succeeded,
    [compressPDF] (its callbacks at their defaults) does not run
    Ghostscript: when the module counts as loaded it returns the result of
    the mock compression, otherwise it throws "Ghostscript WASM module not
    loaded". *)
Theorem compressPDF_without_initialisation (usable : bool)
    (realGhostscriptCompression :
       list byte → member (string * string) → result compression)
    (es : list event) (pdfData : list byte) (quality : string) :
  never_initialised initial es = true →
  compressPDF usable realGhostscriptCompression (this (run initial es)) pdfData quality
  = if isLoaded (this (run initial es))
    then Ok (mockCompression pdfData quality)
    else Throw (Error "Ghostscript WASM module not loaded").
Proof.
  intros Hnever. unfold compressPDF.
  rewrite (never_initialised_gs es initial eq_refl Hnever).
  by destruct (isLoaded _).
Qed.

End loader_more2.

Section compression_more.
Import JS GhostscriptWASM.

(** X23. The result of the mock compression depends on the length, the
    first 1024 bytes and the last 1024 bytes of its input only. *)
Theorem mockCompression_ignores_middle (a b : list byte) (quality : string) :
  length a = length b →
  take 1024 a = take 1024 b →
  drop (length a - 1024) a = drop (length b - 1024) b →
  mockCompression a quality = mockCompression b quality.
Proof.
  intros Hlen Hhead Htail.
  assert (Hsim : ∀ ratio, simulateCompression a ratio = simulateCompression b ratio).
  { intros ratio. unfold simulateCompression. rewrite <- Hlen in *.
    replace (length a - Nat.min 1024 (length a))%nat with (length a - 1024)%nat by lia.
    replace (take (Nat.min 1024 (length a)) a)
      with (take (Nat.min 1024 (length a)) (take 1024 a))
      by (rewrite take_take; f_equal; lia).
    replace (take (Nat.min 1024 (length a)) b)
      with (take (Nat.min 1024 (length a)) (take 1024 b))
      by (rewrite take_take; f_equal; lia).
    by rewrite Hhead, Htail. }
  unfold mockCompression. by rewrite Hsim, Hlen.
Qed.

Lemma simulateCompression_closed_form (pdfData : list byte) (ratio : member spec_float)
    (t : Z) :
  Math_floor (times (length pdfData) ratio) = Some t → 0 ≤ t →
  let f := Nat.min 1024 (length pdfData) in
  let k := Nat.min f (Z.to_nat (t / 2)) in
  let body := take k pdfData ++ replicate (Z.to_nat t - k) zero_byte in
  length body = Z.to_nat t
  ∧ simulateCompression pdfData ratio
    = if bool_decide (f < Z.to_nat t)%nat
      then take (Z.to_nat t - f) body ++ drop (length pdfData - f) pdfData
      else body.
Proof.
  intros Ht Hpos f k body.
  assert (Hhalf : (Z.to_nat (t / 2) ≤ Z.to_nat t)%nat).
  { apply Z2Nat.inj_le; [|lia|]; Z.div_mod_to_equations; lia. }
  assert (Hk : length (take k pdfData) = k).
  { rewrite length_take. unfold k, f. lia. }
  assert (Hbody : length body = Z.to_nat t).
  { unfold body. rewrite length_app, Hk, length_replicate. unfold k. lia. }
  split; [done|].
  unfold simulateCompression. rewrite Ht. cbn [default]. fold f.
  rewrite length_take. replace (Nat.min f (length pdfData)) with f by (unfold f; lia).
  rewrite take_take. fold k. unfold id.
  replace (Nat.min k f) with k by (unfold k; lia).
  rewrite write_at_fill_0 by (rewrite Hk; unfold k; lia).
  rewrite Hk. fold body.
  rewrite length_drop. replace (length pdfData - (length pdfData - f))%nat with f
    by (unfold f; lia).
  assert (Hcond : bool_decide (Z.of_nat f < t) = bool_decide (f < Z.to_nat t)%nat).
  { apply bool_decide_ext. lia. }
  rewrite Hcond. clear Hcond. case_bool_decide as Hf; [|done].
  unfold write_at. rewrite length_drop.
  replace (length pdfData - (length pdfData - f))%nat with f by (unfold f; lia).
  replace (Z.to_nat t - f + f)%nat with (Z.to_nat t) by lia.
  rewrite (drop_ge body) by lia. by rewrite app_nil_r.
Qed.

Lemma length_filter_take {A} (P : A → Prop) `{∀ x, Decision (P x)} (n : nat) (l : list A) :
  (length (filter P (take n l)) ≤ length (filter P l))%nat.
Proof.
  rewrite <- (take_drop n l) at 2. rewrite filter_app, length_app. lia.
Qed.

Lemma filter_replicate_zero (n : nat) :
  filter (λ b, (code b ≠ 0)%Z) (replicate n zero_byte) = [].
Proof.
  induction n as [|n IH]; [done|]. cbn [replicate].
  rewrite filter_cons. by case_decide.
Qed.

(** X24. The simulated data holds at most 2048 bytes that are not zero,
    whatever the size of the input; and when input and output are longer
    than 1024 bytes, the last 1024 bytes of the output are the last 1024
    bytes of the input. *)
Theorem simulateCompression_mostly_zero (pdfData : list byte)
    (ratio : member spec_float) :
  let simulatedData := simulateCompression pdfData ratio in
  (length (filter (λ b, (code b ≠ 0)%Z) simulatedData) ≤ 2048)%nat
  ∧ ((1024 ≤ length pdfData)%nat → (1024 < length simulatedData)%nat →
     drop (length simulatedData - 1024) simulatedData
     = drop (length pdfData - 1024) pdfData).
Proof.
  cbn zeta.
  destruct (Math_floor (times (length pdfData) ratio)) as [t|] eqn:Ht.
  2:{ assert (Hnil : simulateCompression pdfData ratio = []).
      { apply length_zero_iff_nil. by rewrite simulateCompression_length, Ht. }
      rewrite Hnil. cbn. split; [lia | intros; lia]. }
  destruct (Z.le_gt_cases 0 t) as [Hpos|Hneg].
  2:{ assert (Hnil : simulateCompression pdfData ratio = []).
      { apply length_zero_iff_nil. rewrite simulateCompression_length, Ht. cbn. lia. }
      rewrite Hnil. cbn. split; [lia | intros; lia]. }
  destruct (simulateCompression_closed_form pdfData ratio t Ht Hpos) as [Hbody ->].
  cbn zeta in *.
  set (f := Nat.min 1024 (length pdfData)) in *.
  set (k := Nat.min f (Z.to_nat (t / 2))) in *.
  set (body := take k pdfData ++ replicate (Z.to_nat t - k) zero_byte) in *.
  assert (Hnz : (length (filter (λ b, (code b ≠ 0)%Z) body) ≤ 1024)%nat).
  { unfold body. rewrite filter_app, filter_replicate_zero, app_nil_r.
    etrans; [apply length_filter|]. rewrite length_take. unfold k, f. lia. }
  assert (Hfooter : length (drop (length pdfData - f) pdfData) = f).
  { rewrite length_drop. unfold f. lia. }
  case_bool_decide as Hf.
  - split.
    + rewrite filter_app, length_app.
      pose proof (length_filter_take (λ b, (code b ≠ 0)%Z) (Z.to_nat t - f) body).
      pose proof (length_filter (λ b, (code b ≠ 0)%Z) (drop (length pdfData - f) pdfData)).
      unfold f in *. lia.
    + intros Hn _. replace f with 1024%nat in * by (unfold f; lia).
      rewrite length_app, length_take, Hbody, Hfooter.
      replace (Nat.min (Z.to_nat t - 1024) (Z.to_nat t) + 1024 - 1024)%nat
        with (length (take (Z.to_nat t - 1024) body))
        by (rewrite length_take, Hbody; lia).
      by rewrite drop_app_length.
  - split; [lia|]. intros Hn Hlong. rewrite Hbody in Hlong. unfold f in Hf. lia.
Qed.

End compression_more.

(** ** The single-document viewer *)

Section viewer_facts.
Import Viewer.

Lemma seqZ_split3 (n k : Z) :
  0 ≤ k → k + 2 ≤ n →
  seqZ 0 n = seqZ 0 k ++ [k; k + 1] ++ seqZ (k + 2) (n - k - 2).
Proof.
  intros Hk Hn.
  replace n with (k + (2 + (n - k - 2))) at 1 by lia.
  rewrite seqZ_app by lia. rewrite seqZ_app by lia. rewrite Z.add_0_l.
  do 2 f_equal. rewrite seqZ_cons by lia. rewrite seqZ_cons by lia.
  rewrite seqZ_nil by lia. by replace (Z.succ k) with (k + 1) by lia.
Qed.

(** X25. [reorderPages] of the viewer, on a page after the first: the
    array handed to [copyPages] is 0 .. numPages - 1 with the index of the
    current page and the index before it exchanged, so that every page is
    copied exactly once. *)
Theorem reorderPages_swaps (g : globals) (numPages : Z) :
  pdfDoc g = Some numPages →
  2 ≤ pageNum g ≤ numPages →
  let pageIndices :=
    seqZ 0 (pageNum g - 2) ++ [pageNum g - 1; pageNum g - 2]
    ++ seqZ (pageNum g) (numPages - pageNum g) in
  reorderPages g = Some (map Some pageIndices)
  ∧ pageIndices ≡ₚ seqZ 0 numPages.
Proof.
  intros Hdoc Hpage. cbn zeta. set (k := pageNum g - 2).
  assert (Hsplit : seqZ 0 numPages
                   = seqZ 0 k ++ [k; k + 1] ++ seqZ (k + 2) (numPages - k - 2))
    by (apply seqZ_split3; lia).
  replace (pageNum g - 1) with (k + 1) by (unfold k; lia).
  replace (seqZ (pageNum g) (numPages - pageNum g))
    with (seqZ (k + 2) (numPages - k - 2)) by (f_equal; unfold k; lia).
  split.
  - unfold reorderPages. rewrite Hdoc.
    rewrite (proj2 (Z.leb_gt numPages 1)), (proj2 (Z.leb_gt (pageNum g) 1)) by lia.
    cbn [orb]. cbv zeta. unfold JS.Array_keys. rewrite Hsplit.
    replace (Z.to_nat (pageNum g - 1)) with (Z.to_nat k + 1)%nat by (unfold k; lia).
    replace (Z.to_nat k + 1 - 1)%nat with (Z.to_nat k + 0)%nat by lia.
    rewrite !map_app. cbn [map app].
    set (l1 := map Some (seqZ 0 k)).
    assert (Hlen : length l1 = Z.to_nat k)
      by (unfold l1; by rewrite length_map, length_seqZ).
    rewrite <- Hlen.
    unfold JS.Array_get. rewrite !lookup_app_r by lia.
    replace (length l1 + 1 - length l1)%nat with 1%nat by lia.
    replace (length l1 + 0 - length l1)%nat with 0%nat by lia.
    cbn [lookup list_lookup default].
    unfold id.
    assert (Hin : ∀ i v (a : list (option Z)),
              (i < length a)%nat → JS.Array_set i v a = <[i := v]> a).
    { intros i v a Hi. unfold JS.Array_set. by rewrite bool_decide_true. }
    rewrite (Hin (length l1 + 0)%nat) by (rewrite length_app; cbn [length]; lia).
    rewrite insert_app_r. cbn [insert list_insert].
    rewrite (Hin (length l1 + 1)%nat) by (rewrite length_app; cbn [length]; lia).
    rewrite insert_app_r. cbn [insert list_insert].
    done.
  - rewrite Hsplit. apply Permutation_app_head. cbn [app]. apply perm_swap.
Qed.

(** X26. [splitPDF] of the viewer, for a document of at least two pages
    and a current page of the document: the first part holds the indices
    before the current page and the second those from the current page on;
    together they are 0 .. numPages - 1 in order.  The second part is never
    empty, and the first is empty exactly on page 1, where a single file,
    the whole document, is downloaded. *)
Theorem viewer_splitPDF_partition (g : globals) (numPages : Z) :
  pdfDoc g = Some numPages →
  2 ≤ numPages → 1 ≤ pageNum g ≤ numPages →
  ∃ part1 part2,
    splitPDF g = Some (part1, part2)
    ∧ part1 = seqZ 0 (pageNum g - 1)
    ∧ part2 = seqZ (pageNum g - 1) (numPages - pageNum g + 1)
    ∧ part1 ++ part2 = seqZ 0 numPages
    ∧ part2 ≠ []
    ∧ (part1 = [] ↔ pageNum g = 1).
Proof.
  intros Hdoc Hn Hpage. unfold splitPDF. rewrite Hdoc.
  rewrite (proj2 (Z.leb_gt numPages 1)) by lia.
  eexists _, _. split; [reflexivity|].
  assert (H1 : (if 1 <? pageNum g then JS.Array_keys (pageNum g - 1) else [])
               = seqZ 0 (pageNum g - 1)).
  { destruct (Z.ltb_spec 1 (pageNum g)); [done|]. by rewrite seqZ_nil by lia. }
  assert (H2 : JS.Array_from (Some (numPages - pageNum g + 1)) (λ i, i + pageNum g - 1)
               = seqZ (pageNum g - 1) (numPages - pageNum g + 1)).
  { apply Array_from_affine. intros; lia. }
  rewrite H1, H2. split; [done|]. split; [done|]. split; [|split].
  - rewrite <- (Z.add_0_l (pageNum g - 1)) at 2.
    rewrite <- seqZ_app by lia. f_equal. lia.
  - rewrite seqZ_cons by lia. done.
  - split.
    + intros Hnil. apply (f_equal length) in Hnil.
      rewrite length_seqZ in Hnil. cbn in Hnil. lia.
    + intros ->. done.
Qed.

Lemma rotations_snoc (cs : list click) (c : click) :
  rotations (cs ++ [c]) = rotations cs + (if decide (c = RotatePage) then 1 else 0).
Proof.
  unfold rotations. rewrite filter_app, length_app, Nat2Z.inj_add. f_equal.
  rewrite filter_cons, filter_nil. by case_decide.
Qed.

(** X27. From a freshly loaded document with pages, after any sequence of
    clicks on rotate, previous and next, the document is still there, the
    current page is one of its pages, and the rotation is 90 degrees times
    the number of rotations taken modulo 4. *)
Theorem clicks_keep_page_in_document (numPages : Z) (cs : list click) :
  1 ≤ numPages →
  let g := foldl handle (loaded numPages) cs in
  pdfDoc g = Some numPages
  ∧ 1 ≤ pageNum g ≤ numPages
  ∧ currentRotation g = 90 * (rotations cs mod 4).
Proof.
  intros Hn. cbn zeta. induction cs as [|c cs IH] using rev_ind.
  - split; [done|]. split; [cbn; lia | reflexivity].
  - rewrite foldl_snoc, rotations_snoc.
    destruct IH as (Hdoc & Hpage & Hrot).
    set (g := foldl handle (loaded numPages) cs) in *.
    assert (Hr : 0 ≤ rotations cs) by (unfold rotations; lia).
    destruct c; cbn [handle]; case_decide; try done.
    + unfold rotatePage. cbn [pdfDoc pageNum currentRotation].
      split; [done|]. split; [done|]. rewrite Hrot. unfold JS.rem.
      rewrite Z.rem_mod_nonneg by (pose proof (Z.mod_pos_bound (rotations cs) 4); lia).
      pose proof (Z.mod_pos_bound (rotations cs) 4 ltac:(lia)).
      rewrite (Z.add_mod (rotations cs) 1 4) by lia.
      assert (Hcase : rotations cs mod 4 = 0 ∨ rotations cs mod 4 = 1
                      ∨ rotations cs mod 4 = 2 ∨ rotations cs mod 4 = 3) by lia.
      destruct Hcase as [-> | [-> | [-> | ->]]]; reflexivity.
    + unfold showPreviousPage. rewrite Z.add_0_r.
      destruct (Z.leb_spec (pageNum g) 1); cbn; repeat split; try done; lia.
    + unfold showNextPage. rewrite Hdoc, Z.add_0_r.
      destruct (Z.leb_spec numPages (pageNum g)); cbn; repeat split; try done; lia.
Qed.

End viewer_facts.

(** ** The further statements on sample inputs *)

Section more_samples.
Import JS.

Lemma splitPDF_pages_partition_witness :
  ∃ files toast,
    PrivPDF.splitPDF_pages "3" 10 = PrivPDF.Done files toast
    ∧ concat (map PrivPDF.indices files) = seqZ 0 10
    ∧ Z.of_nat (length files) = 4.
Proof.
  destruct (splitPDF_pages_partition "3" 3 10) as (files & toast & Hrun & Hcat & _ & Hlen).
  - reflexivity.
  - lia.
  - exists files, toast. split; [exact Hrun|]. split; [exact Hcat | exact Hlen].
Defined.

Lemma splitPDF_pages_not_a_number_witness :
  PrivPDF.splitPDF_pages "" 4
  = PrivPDF.Done [{| PrivPDF.indices := []; PrivPDF.filename := "pages_1-NaN.pdf" |}]
                 "Split into 1 files (NaN pages each)!".
Proof.
  apply (splitPDF_pages_not_a_number "" 4).
  - reflexivity.
  - lia.
Defined.

Lemma splitPDF_range_in_bounds_witness :
  let files :=
    [{| PrivPDF.indices := [0; 1]; PrivPDF.filename := "pages_1-2.pdf" |};
     {| PrivPDF.indices := [3]; PrivPDF.filename := "page_4.pdf" |}] in
  PrivPDF.splitPDF_range "1-2, 4-9, 4, 3-1" 5
  = PrivPDF.Done files "Split into 2 files based on ranges!"
  ∧ files ≠ []
  ∧ PrivPDF.files_of_ranges 5
      (map list_byte_of_string ["1-2"; "4-9"; "4"; "3-1"]%string) files
  ∧ PrivPDF.splitPDF_range_part (list_byte_of_string "4-9") 5 = None.
Proof.
  intros files.
  assert (Hrun : PrivPDF.splitPDF_range "1-2, 4-9, 4, 3-1" 5
                 = PrivPDF.Done files "Split into 2 files based on ranges!")
    by (vm_compute; reflexivity).
  destruct (splitPDF_range_in_bounds _ _ _ _ Hrun) as (Hne & _ & Hfiles & Hskip & _).
  split; [exact Hrun|]. split; [exact Hne|]. split; [exact Hfiles|].
  apply (Hskip _ 4 9); [|lia].
  eapply (PrivPDF.reads_range _ 4 9 _ _ []); reflexivity.
Defined.

Lemma invertSelection_involutive_witness :
  let st := PrivPDF.mkState (File := unit) "extract" ∅ {[2]} ∅ [] in
  PrivPDF.invertSelection [1; 2; 3] (PrivPDF.invertSelection [1; 2; 3] st) = st.
Proof.
  intros st. apply (invertSelection_involutive [1; 2; 3] st).
  repeat constructor; rewrite ?elem_of_cons, ?elem_of_nil; lia.
Defined.

Lemma extractPages_inverted_witness :
  let st := PrivPDF.mkState (File := unit) "extract" ∅ {[2]} ∅ [] in
  PrivPDF.copied (PrivPDF.extractPages (PrivPDF.invertSelection (seqZ 1 3) st))
  = PrivPDF.copied (PrivPDF.deletePages 3 st).
Proof.
  intros st. apply (extractPages_inverted 3 st).
  intros p Hp. cbn in Hp. apply elem_of_singleton in Hp. lia.
Defined.

Lemma saveReorderedPDF_permutation_witness :
  let st := PrivPDF.mkState (File := unit) "reorder" ∅ ∅ ∅ [1; 2; 3] in
  PrivPDF.copied (PrivPDF.saveReorderedPDF (PrivPDF.resetPageOrder [2; 1; 3] st).2)
  = [seqZ 0 3].
Proof.
  intros st. apply (saveReorderedPDF_permutation [2; 1; 3] 3 st).
  apply perm_swap.
Defined.

Lemma pagesToConvert_in_document_witness :
  let v := {| PrivPDF.currentPage := 1; PrivPDF.numPages := 5 |} in
  let navs := [PrivPDF.PreviousPage; PrivPDF.NextPage; PrivPDF.NextPage] in
  StronglySorted Z.lt
    (PrivPDF.pagesToConvert "range" "4, 1-2" (foldl PrivPDF.navigate v navs)).
Proof.
  intros v navs.
  apply (proj1 (pagesToConvert_in_document "range" "4, 1-2" v navs ltac:(cbn; lia))).
Defined.

Lemma pagesToWatermark_in_document_witness :
  StronglySorted Z.lt (PrivPDF.pagesToWatermark "custom" "2-9" 4).
Proof.
  apply (proj1 (pagesToWatermark_in_document "custom" "2-9" 4 ltac:(lia))).
Defined.

Lemma isEncryptedPDF_created_witness :
  ∃ container h',
    PDFProtection.createEncryptedContainer Sample.JSON_stringify Sample.now
      Sample.ciphertext Sample.salt Sample.iv Sample.protect_options Sample.store
    = (Ok container, h')
    ∧ PDFProtection.isEncryptedPDF Sample.JSON_parse container h' = (Ok true, h').
Proof.
  apply (isEncryptedPDF_created Sample.JSON_stringify Sample.JSON_parse Sample.now
           Sample.ciphertext Sample.salt Sample.iv Sample.protect_options
           (Sample.print (Sample.to_json
              (PDFProtection.metadata_of Sample.now Sample.protect_options)))
           Sample.store).
  - eexists. split; [reflexivity | cbn; lia].
  - eexists. split; [reflexivity | cbn; lia].
  - eexists. split; [reflexivity | cbn; lia].
  - reflexivity.
  - reflexivity.
  - reflexivity.
  - eexists. reflexivity.
  - vm_compute. reflexivity.
  - vm_compute. reflexivity.
Defined.

Lemma parseEncryptedContainer_partition_witness :
  let metadataBytes :=
    TextEncoder_encode
      (Sample.print (Sample.to_json
         (PDFProtection.metadata_of Sample.now Sample.protect_options))) in
  let h : heap :=
    [PDFProtection.layout metadataBytes (replicate 16 "s"%byte)
       (replicate 12 "i"%byte) (list_byte_of_string "ciphertext")] in
  let containerData := {| buffer := 0; byteOffset := 0; byteLength := 230 |} in
  ∃ p, PDFProtection.parseEncryptedContainer Sample.JSON_parse containerData h
       = (Ok p, h)
       ∧ length (bytes_of (PDFProtection.p_salt p) h) = 16%nat
       ∧ length (bytes_of (PDFProtection.p_iv p) h) = 12%nat.
Proof.
  intros metadataBytes h containerData.
  destruct (PDFProtection.parseEncryptedContainer Sample.JSON_parse containerData h)
    as [[p|e] h'] eqn:Hrun; [|by vm_compute in Hrun].
  destruct (parseEncryptedContainer_partition Sample.JSON_parse containerData p h h' Hrun)
    as (-> & _ & _ & _ & Hsalt & Hiv & _).
  exists p. split; [reflexivity|]. split; [exact Hsalt | exact Hiv].
Defined.

Lemma decryptPDF_encryptWithWebCrypto_witness :
  let random16 := replicate 16 "r"%byte in
  let random12 := replicate 12 "n"%byte in
  ∃ r h1 d h2,
    PDFProtection.encryptWithWebCrypto Sample.JSON_stringify Sample.importKey
      Sample.deriveKey Sample.AES_GCM_encrypt Sample.platform_message
      true random16 random12 Sample.now Sample.pdfData Sample.protect_options
      Sample.pdf_store = (Ok r, h1)
    ∧ PDFProtection.decryptPDF Sample.JSON_parse Sample.importKey Sample.deriveKey
        Sample.AES_GCM_decrypt Sample.platform_message
        true (PDFProtection.data r) "secret" h1 = (Ok d, h2)
    ∧ bytes_of (PDFProtection.decrypted_data d) h2
      = bytes_of Sample.pdfData Sample.pdf_store.
Proof.
  intros random16 random12.
  destruct (decryptPDF_encryptWithWebCrypto Sample.JSON_stringify Sample.JSON_parse
              Sample.importKey Sample.deriveKey Sample.AES_GCM_encrypt
              Sample.AES_GCM_decrypt Sample.platform_message
              random16 random12 Sample.now Sample.pdfData Sample.protect_options
              "secret"
              (Sample.print (Sample.to_json
                 (PDFProtection.metadata_of Sample.now Sample.protect_options)))
              (list_byte_of_string "secret")
              (list_byte_of_string "secret" ++ random16)
              (rev (bytes_of Sample.pdfData Sample.pdf_store) ++ random12)
              Sample.pdf_store)
    as (r & h1 & d & h2 & Henc & _ & Hdec & Hbytes & _).
  - eexists. split; [reflexivity | cbn; lia].
  - reflexivity.
  - reflexivity.
  - reflexivity.
  - discriminate.
  - reflexivity.
  - eexists. reflexivity.
  - vm_compute. reflexivity.
  - vm_compute. reflexivity.
  - reflexivity.
  - reflexivity.
  - reflexivity.
  - vm_compute. reflexivity.
  - exists r, h1, d, h2. split; [exact Henc|]. split; [exact Hdec | exact Hbytes].
Defined.

Lemma encrypt_keystream_period_witness :
  ∃ encrypted h' y y',
    QPDFEncryption.encrypt Sample.long_pdfData
      {| QPDFEncryption.userPassword := Some "pw"%string |} Sample.long_store
    = (Ok encrypted, h')
    ∧ bytes_of encrypted h' !! 3%nat = Some y
    ∧ bytes_of encrypted h' !! (3 + 256)%nat = Some y'
    ∧ Z.lxor (code y) (code y') = 0.
Proof.
  destruct (encrypt_keystream_period Sample.long_pdfData
              {| QPDFEncryption.userPassword := Some "pw"%string |} Sample.long_store
              3 "a"%byte "a"%byte)
    as (encrypted & h' & y & y' & Hrun & Hy & Hy' & Hxor).
  - eexists. split; [reflexivity | cbn; lia].
  - reflexivity.
  - reflexivity.
  - exists encrypted, h', y, y'. repeat (split; [assumption|]). exact Hxor.
Defined.


Lemma encrypt_long_password_witness :
  let p := string_of_list_byte (replicate 256 "a"%byte ++ [ "x"%byte ]) in
  let q := string_of_list_byte (replicate 256 "a"%byte ++ [ "y"%byte; "z"%byte ]) in
  ∃ a h1 b h2,
    QPDFEncryption.encrypt Sample.pdfData
      {| QPDFEncryption.userPassword := Some p |} Sample.pdf_store = (Ok a, h1)
    ∧ QPDFEncryption.encrypt Sample.pdfData
        {| QPDFEncryption.userPassword := Some q |} Sample.pdf_store = (Ok b, h2)
    ∧ bytes_of a h1 = bytes_of b h2.
Proof.
  intros p q.
  apply (encrypt_long_password Sample.pdfData p q Sample.pdf_store).
  - eexists. split; [reflexivity | cbn; lia].
  - vm_compute. lia.
  - vm_compute. lia.
  - vm_compute. reflexivity.
Defined.

Lemma encryptPDF_fallback_reports_real_witness :
  let real_encrypt := λ (a : Uint8Array) (_ : QPDFEncryption.request), mret a in
  let fallbackEncryption := λ (a : Uint8Array) (_ : QPDFEncryption.request),
    mret {| QPDFEncryption.success := true; QPDFEncryption.data := a;
            QPDFEncryption.method := "Fallback Protection (Watermark)";
            QPDFEncryption.isRealEncryption := false |} in
  let opts := {| QPDFEncryption.request_userPassword := Some "pw"%string;
                 QPDFEncryption.request_ownerPassword := None;
                 QPDFEncryption.encryptionMethod := None |} in
  ∃ r this' h',
    QPDFEncryption.encryptPDF real_encrypt fallbackEncryption Sample.platform_message
      None (QPDFEncryption.Typed Sample.pdfData) opts QPDFEncryption.constructor
      Sample.pdf_store
    = ((Ok r, this'), h')
    ∧ QPDFEncryption.isRealEncryption r = true
    ∧ QPDFEncryption.method r = "QPDF AES-256 Encryption"%string.
Proof.
  intros real_encrypt fallbackEncryption opts.
  destruct (encryptPDF_fallback_reports_real real_encrypt fallbackEncryption
              Sample.platform_message None Sample.pdfData opts
              QPDFEncryption.constructor Sample.pdf_store)
    as (r & this' & h' & Hrun & _ & _ & _ & Hreal & Hmethod & _).
  - eexists. split; [reflexivity | cbn; lia].
  - discriminate.
  - discriminate.
  - by left.
  - exists r, this', h'. split; [exact Hrun|]. split; [exact Hreal | exact Hmethod].
Defined.

Lemma loaded_is_final_witness :
  let es :=
    GhostscriptWASM.Call None
    :: GhostscriptWASM.Resume 0 GhostscriptWASM.Rejected
    :: replicate 7 (GhostscriptWASM.Resume 0 GhostscriptWASM.Fulfilled) in
  let es' := [GhostscriptWASM.Call Sample.brittle;
              GhostscriptWASM.Resume 0 GhostscriptWASM.Fulfilled;
              GhostscriptWASM.Resume 1 GhostscriptWASM.Rejected] in
  GhostscriptWASM.getStatus
    (GhostscriptWASM.this
       (GhostscriptWASM.run (GhostscriptWASM.run GhostscriptWASM.initial es) es'))
  = "ready"%string.
Proof.
  intros es es'.
  apply (proj1 (proj2 (loaded_is_final es es' ltac:(reflexivity)))).
Defined.

Lemma loadModule_quiet_ends_ready_witness :
  let es :=
    GhostscriptWASM.Resume 0 GhostscriptWASM.Fulfilled
    :: GhostscriptWASM.Call None
    :: replicate 8 (GhostscriptWASM.Resume 0 GhostscriptWASM.Rejected) in
  let final :=
    GhostscriptWASM.run
      (GhostscriptWASM.step GhostscriptWASM.initial (GhostscriptWASM.Call None)) es in
  GhostscriptWASM.isLoaded (GhostscriptWASM.this final) = true
  ∧ GhostscriptWASM.getStatus (GhostscriptWASM.this final) = "ready"%string.
Proof.
  intros es final.
  destruct (loadModule_quiet_ends_ready [] es None) as [_ Hready].
  - intros text progress. reflexivity.
  - reflexivity.
  - reflexivity.
  - destruct Hready as (_ & Hloaded & _ & Hstatus); [vm_compute; lia|].
    split; [exact Hloaded | exact Hstatus].
Defined.

Lemma compressPDF_without_initialisation_witness :
  let es :=
    GhostscriptWASM.Call None
    :: GhostscriptWASM.Resume 0 GhostscriptWASM.Fulfilled
    :: GhostscriptWASM.Resume 0 GhostscriptWASM.Rejected
    :: replicate 7 (GhostscriptWASM.Resume 0 GhostscriptWASM.Fulfilled) in
  let real := λ (_ : list byte) (_ : member (string * string)),
    Throw (A := GhostscriptWASM.compression) (Error "gs") in
  GhostscriptWASM.compressPDF true real
    (GhostscriptWASM.this (GhostscriptWASM.run GhostscriptWASM.initial es))
    (list_byte_of_string "%PDF-1.4 %") "screen"
  = Ok (GhostscriptWASM.mockCompression (list_byte_of_string "%PDF-1.4 %") "screen").
Proof.
  intros es real.
  apply (compressPDF_without_initialisation true real es
           (list_byte_of_string "%PDF-1.4 %") "screen").
  reflexivity.
Defined.

Lemma mockCompression_ignores_middle_witness :
  let a := replicate 1024 "h"%byte ++ replicate 900 "x"%byte ++ replicate 1024 "t"%byte in
  let b := replicate 1024 "h"%byte ++ replicate 900 "y"%byte ++ replicate 1024 "t"%byte in
  GhostscriptWASM.mockCompression a "ebook" = GhostscriptWASM.mockCompression b "ebook".
Proof.
  intros a b. apply (mockCompression_ignores_middle a b "ebook").
  - reflexivity.
  - vm_compute. reflexivity.
  - vm_compute. reflexivity.
Defined.

Lemma simulateCompression_mostly_zero_witness :
  let pdfData := replicate 2000 "h"%byte ++ replicate 1024 "t"%byte in
  let simulatedData :=
    GhostscriptWASM.simulateCompression pdfData
      (GhostscriptWASM.getCompressionRatio "ebook") in
  drop (length simulatedData - 1024) simulatedData = replicate 1024 "t"%byte.
Proof.
  intros pdfData simulatedData. unfold simulatedData.
  rewrite (proj2 (simulateCompression_mostly_zero pdfData
                    (GhostscriptWASM.getCompressionRatio "ebook"))).
  - vm_compute. reflexivity.
  - vm_compute. lia.
  - vm_compute. lia.
Defined.

Lemma reorderPages_swaps_witness :
  Viewer.reorderPages {| Viewer.pdfDoc := Some 4; Viewer.pageNum := 3;
                         Viewer.currentRotation := 0 |}
  = Some [Some 0; Some 2; Some 1; Some 3].
Proof.
  apply (proj1 (reorderPages_swaps
    {| Viewer.pdfDoc := Some 4; Viewer.pageNum := 3; Viewer.currentRotation := 0 |} 4
    ltac:(reflexivity) ltac:(cbn; lia))).
Defined.

Lemma viewer_splitPDF_partition_witness :
  ∃ part1 part2,
    Viewer.splitPDF {| Viewer.pdfDoc := Some 4; Viewer.pageNum := 3;
                       Viewer.currentRotation := 0 |} = Some (part1, part2)
    ∧ part1 ++ part2 = seqZ 0 4.
Proof.
  destruct (viewer_splitPDF_partition
    {| Viewer.pdfDoc := Some 4; Viewer.pageNum := 3; Viewer.currentRotation := 0 |} 4)
    as (part1 & part2 & Hrun & _ & _ & Hcat & _).
  - reflexivity.
  - lia.
  - cbn. lia.
  - exists part1, part2. split; [exact Hrun | exact Hcat].
Defined.

Lemma clicks_keep_page_in_document_witness :
  let cs := [Viewer.RotatePage; Viewer.ShowNextPage; Viewer.RotatePage;
             Viewer.ShowPreviousPage; Viewer.ShowPreviousPage; Viewer.RotatePage;
             Viewer.RotatePage; Viewer.RotatePage] in
  Viewer.currentRotation (foldl Viewer.handle (Viewer.loaded 2) cs) = 90.
Proof.
  intros cs.
  apply (proj2 (proj2 (clicks_keep_page_in_document 2 cs ltac:(lia)))).
Defined.

End more_samples.
